(** * Movie-Baba recommender: a shallow embedding of app.py, app2.py, app3.py

    The three Streamlit scripts share one core: a title is resolved to a
    row of the precomputed similarity matrix, the row is sorted by score,
    the entries 1..5 of the sorted row are kept, and a poster URL is fetched
    from the TMDB service for each of them.

    Modelling choices:
    - Python exceptions are a [result] type; the network, the clock, the
      pauses and the Streamlit cache are threaded through a [world].
    - The remote service is an [endpoint]: a function from the number of
      the request and its URL to what comes back.
    - Scores are rationals: the code only compares them, and every finite
      binary64 value is a rational (a matrix holding NaN is outside the
      model).
    - The catalog is the list of the DataFrame's rows under the default
      range index, so that a row's label is its position.
    - [requests], [urllib3] and [streamlit] are libraries, not part of the
      scripts; what the scripts use of them is modelled next to its use.
    - In the thread pool of app3.py each submitted call is taken as one
      step; the order of these steps is a parameter. *)

From Stdlib Require Import ZArith QArith Lia Bool Permutation Sorted.
From stdpp Require Import base option list gmap strings pretty.

Local Open Scope string_scope.
Local Open Scope list_scope.
Local Open Scope Z_scope.

(** ** Exceptions and results *)

(** The exception classes the three scripts can meet.  [JSONDecodeError] is
    the [ValueError] raised by [response.json()]. *)
Inductive exn : Type :=
| IndexError
| AttributeError
| TypeError
| JSONDecodeError
| Timeout
| ConnectionError
| HTTPError (status : Z)
| RetryError.

Definition is_Timeout (e : exn) : bool :=
  match e with Timeout => true | _ => false end.

Definition is_HTTPError (e : exn) : bool :=
  match e with HTTPError _ => true | _ => false end.

(** [requests.exceptions.RequestException] and its subclasses. *)
Definition is_RequestException (e : exn) : bool :=
  match e with
  | Timeout | ConnectionError | HTTPError _ | RetryError => true
  | _ => false
  end.

Definition is_ValueError (e : exn) : bool :=
  match e with JSONDecodeError => true | _ => false end.

Definition is_IndexError (e : exn) : bool :=
  match e with IndexError => true | _ => false end.

Inductive result (A : Type) : Type :=
| Ok (a : A)
| Raise (e : exn).
Arguments Ok {A} a.
Arguments Raise {A} e.

(** ** The remote service as the scripts observe it *)

Inductive transport_error : Type :=
| ConnectTimeout
| ReadTimeout
| ConnectionFailed.

(** A value read out of the decoded body: [None], a string, or anything
    else, of which the code only uses the truth value and the text that an
    f-string renders. *)
Inductive pyval : Type :=
| PyNone
| PyStr (s : string)
| PyOther (truth : bool) (text : string).

(** A response body: not JSON at all, a JSON object (a [dict] after
    decoding), or another JSON value (which has no [get] method). *)
Inductive body : Type :=
| NotJSON
| JSONDict (fields : list (string * pyval))
| JSONOther.

(** What comes back for one request: nothing, a response without a
    Retry-After header, or a response whose Retry-After header asks for a
    number of seconds (the value of the header once parsed, a delay or a
    date). *)
Inductive http_outcome : Type :=
| NoResponse (e : transport_error)
| Response (status : Z) (b : body)
| ResponseRetryAfter (status : Z) (seconds : Z) (b : body).

Record response : Type := mkResponse { status_code : Z; content : body }.

(** The remote endpoint: what the n-th request of the process, sent to a
    given URL, comes back with. *)
Definition endpoint : Type := nat -> string -> http_outcome.

(** ** The world: clock, network log, sleeps, and the Streamlit data cache *)

Record world : Type := mkWorld {
  clock : Z;                              (* seconds *)
  net_log : list string;                  (* URLs requested, oldest first *)
  sleep_log : list Z;                     (* pauses slept, oldest first *)
  poster_cache : gmap Z (string * Z)      (* id -> (url, time stored) *)
}.

Definition M (A : Type) : Type := world -> result A * world.

Definition ret {A} (a : A) : M A := fun w => (Ok a, w).

Definition raise {A} (e : exn) : M A := fun w => (Raise e, w).

Definition lift {A} (r : result A) : M A := fun w => (r, w).

Definition bind {A B} (c : M A) (k : A -> M B) : M B :=
  fun w =>
    match c w with
    | (Ok a, w') => k a w'
    | (Raise e, w') => (Raise e, w')
    end.

(** [try: c except Exception as e: h e] *)
Definition try_except {A} (c : M A) (h : exn -> M A) : M A :=
  fun w =>
    match c w with
    | (Ok a, w') => (Ok a, w')
    | (Raise e, w') => h e w'
    end.

Notation "'let*' x ':=' c 'in' k" := (bind c (fun x => k))
  (at level 10, x name, c at level 100, k at level 200).

(** One request on the wire. *)
Definition send (net : endpoint) (url : string) : M http_outcome :=
  fun w =>
    (Ok (net (length (net_log w)) url),
     mkWorld (clock w) (net_log w ++ [url]) (sleep_log w) (poster_cache w)).

(** [time.sleep(d)] inside the retry loop. *)
Definition sleep (d : Z) : M unit :=
  fun w =>
    (Ok tt, mkWorld (clock w + d) (net_log w) (sleep_log w ++ [d]) (poster_cache w)).

(** Time passing between two user interactions. *)
Definition elapse (d : Z) (w : world) : world :=
  mkWorld (clock w + d) (net_log w) (sleep_log w) (poster_cache w).

Definition exn_of_transport (e : transport_error) : exn :=
  match e with
  | ConnectTimeout | ReadTimeout => Timeout
  | ConnectionFailed => ConnectionError
  end.

Definition deliver (o : http_outcome) : M response :=
  match o with
  | NoResponse e => raise (exn_of_transport e)
  | Response s b | ResponseRetryAfter s _ b => ret (mkResponse s b)
  end.

(** [requests.get(url, timeout=10)]: the default adapter allows no retry,
    and with no retry left a Retry-After header is not looked at. *)
Definition requests_get (net : endpoint) (url : string) : M response :=
  let* o := send net url in deliver o.

(** [response.raise_for_status()] *)
Definition raise_for_status (r : response) : M unit :=
  if (400 <=? status_code r) && (status_code r <? 600)
  then raise (HTTPError (status_code r))
  else ret tt.

(** [response.json()] followed by [data.get('poster_path')] *)
Fixpoint dict_get (fields : list (string * pyval)) (key : string) : pyval :=
  match fields with
  | [] => PyNone
  | (k, v) :: rest => if String.eqb k key then v else dict_get rest key
  end.

Definition json_get (r : response) (key : string) : M pyval :=
  match content r with
  | NotJSON => raise JSONDecodeError
  | JSONDict fields => ret (dict_get fields key)
  | JSONOther => raise AttributeError
  end.

(** Python truth value of the field. *)
Definition truthy (v : pyval) : bool :=
  match v with
  | PyNone => false
  | PyStr s => negb (String.eqb s "")
  | PyOther b _ => b
  end.

(** [prefix + v]: defined for strings only. *)
Definition str_add (prefix : string) (v : pyval) : M string :=
  match v with
  | PyStr s => ret (prefix +:+ s)
  | _ => raise TypeError
  end.

(** [f"{prefix}{v}"] *)
Definition fstring (prefix : string) (v : pyval) : string :=
  match v with
  | PyNone => prefix +:+ "None"
  | PyStr s => prefix +:+ s
  | PyOther _ text => prefix +:+ text
  end.

Definition api_url (api_key : string) (movie_id : Z) : string :=
  "https://api.themoviedb.org/3/movie/" +:+ pretty movie_id
    +:+ "?api_key=" +:+ api_key +:+ "&language=en-US".

Definition image_host : string := "https://image.tmdb.org/t/p/w500/".

(** ** The catalog and the similarity matrix *)

Record movie : Type := mkMovie { row_id : Z; row_title : string }.

(** Positions of the rows whose title is the one asked for:
    [movies[movies['title'] == t].index], under the default range index. *)
Fixpoint matching_from (pos : nat) (movies : list movie) (t : string) : list nat :=
  match movies with
  | [] => []
  | m :: rest =>
      if String.eqb (row_title m) t
      then pos :: matching_from (S pos) rest t
      else matching_from (S pos) rest t
  end.

(** [xs[0]] *)
Definition item0 {A} (xs : list A) : result A :=
  match xs with
  | [] => Raise IndexError
  | x :: _ => Ok x
  end.

Definition title_index (movies : list movie) (t : string) : result nat :=
  item0 (matching_from 0 movies t).

(** [xs[i]] for a position [i >= 0]; also [movies.iloc[i]]. *)
Definition getitem {A} (xs : list A) (i : nat) : result A :=
  match xs !! i with
  | Some x => Ok x
  | None => Raise IndexError
  end.

(** [list(enumerate(row))] *)
Fixpoint enumerate_from {A} (pos : nat) (xs : list A) : list (nat * A) :=
  match xs with
  | [] => []
  | x :: rest => (pos, x) :: enumerate_from (S pos) rest
  end.

Definition enumerate {A} (xs : list A) : list (nat * A) := enumerate_from 0 xs.

Definition Qltb (x y : Q) : bool :=
  match (x ?= y)%Q with Lt => true | _ => false end.

(** [sorted(xs, reverse=True, key=lambda x: x[1])].  Python's sort is stable
    and [reverse=True] keeps it stable, so entries come out by descending
    score and, among equal scores, in their order in [xs].  An entry is
    put behind the entries of the sorted rest whose score is strictly
    greater, and in front of all the others. *)
Fixpoint insert_desc (x : nat * Q) (l : list (nat * Q)) : list (nat * Q) :=
  match l with
  | [] => [x]
  | y :: l' =>
      if Qltb (snd x) (snd y) then y :: insert_desc x l' else x :: y :: l'
  end.

Fixpoint sorted_reverse (xs : list (nat * Q)) : list (nat * Q) :=
  match xs with
  | [] => []
  | x :: rest => insert_desc x (sorted_reverse rest)
  end.

(** [xs[1:6]] *)
Definition slice_1_6 {A} (xs : list A) : list A := take 5 (drop 1 xs).

(** ** What the page shows *)

(** [ImageAlways url] stands for the call
    [st.image(url, use_column_width='always')] of app3.py and for all that
    the installed Streamlit draws for it: the picture, and in the versions
    that deprecate the argument a notice as well. *)
Inductive element : Type :=
| Text (s : string)
| Image (url : string)
| ImageAlways (url : string)
| Markdown (s : string)
| Caption (s : string)
| Subheader (s : string)
| ErrorBox (s : string)
| WarningBox (s : string).

(** One [with col:] block of app.py and app2.py:
    [st.text(names[i]); st.image(posters[i])].  What was written before an
    exception stays on the page. *)
Definition show_pair (names posters : list string) (i : nat)
    : list element * option exn :=
  match getitem names i with
  | Raise e => ([], Some e)
  | Ok t =>
      match getitem posters i with
      | Raise e => ([Text t], Some e)
      | Ok p => ([Text t; Image p], None)
      end
  end.

(** The blocks of columns [i], [i+1], ... while [n] columns remain; after
    an exception the remaining columns stay empty. *)
Fixpoint show_pairs (names posters : list string) (i n : nat)
    : list (list element) * option exn :=
  match n with
  | O => ([], None)
  | S n' =>
      match show_pair names posters i with
      | (col, Some e) => (col :: replicate n' [], Some e)
      | (col, None) =>
          let (cols, err) := show_pairs names posters (S i) n' in
          (col :: cols, err)
      end
  end.

(** * app2.py *)
Module App2.

Section Script.
Variable movies : list movie.
Variable similarity : list (list Q).
Variable net : endpoint.

Definition fetch_poster (movie_id : Z) : M string :=
  try_except
    (let* response := requests_get net
         (api_url "b76bb27542ba7b7652281b79d2905180" movie_id) in
     let* _ := raise_for_status response in
     let* poster_path := json_get response "poster_path" in
     if truthy poster_path
     then str_add "https://image.tmdb.org/t/p/w500/" poster_path
     else ret "https://via.placeholder.com/500x750.png?text=No+Image")
    (fun e => ret "https://via.placeholder.com/500x750.png?text=Error").

(** The body of [for i in distances[1:6]]. *)
Fixpoint for_entries (entries : list (nat * Q))
    (names posters : list string) : M (list string * list string) :=
  match entries with
  | [] => ret (names, posters)
  | i :: rest =>
      let* m := lift (getitem movies (fst i)) in
      let* poster := fetch_poster (row_id m) in
      let* m' := lift (getitem movies (fst i)) in
      for_entries rest (names ++ [row_title m']) (posters ++ [poster])
  end.

Definition recommend (movie_title : string) : M (list string * list string) :=
  let* index := lift (title_index movies movie_title) in
  let* row := lift (getitem similarity index) in
  let distances := sorted_reverse (enumerate row) in
  for_entries (slice_1_6 distances) [] [].

(** The body of [if st.button('Show Recommendation'):]: five columns, and
    in column i the i-th name and the i-th poster. *)
Definition on_show_recommendation (selected_movie : string) (w : world)
    : (list (list element) * option exn) * world :=
  match recommend selected_movie w with
  | (Ok (recommended_movie_names, recommended_movie_posters), w') =>
      (show_pairs recommended_movie_names recommended_movie_posters 0 5, w')
  | (Raise e, w') => (([], Some e), w')
  end.

End Script.

End App2.

(** * app.py *)
Module App.

Section Script.
Variable movies : list movie.
Variable similarity : list (list Q).
Variable net : endpoint.

Definition base_url : string := "https://api.themoviedb.org/3/movie".
Definition image_base_url : string := "https://image.tmdb.org/t/p/w500/".

(** The three [except] clauses only log; control then reaches the final
    [return] with the error placeholder. *)
Definition handler (e : exn) : M string :=
  if is_RequestException e
  then ret "https://via.placeholder.com/500x750.png?text=Error"
  else if is_ValueError e
  then ret "https://via.placeholder.com/500x750.png?text=Error"
  else ret "https://via.placeholder.com/500x750.png?text=Error".

Definition fetch_poster (movie_id : Z) (fallback_text : string) : M string :=
  let placeholder_url :=
    "https://via.placeholder.com/500x750.png?text=" +:+ fallback_text in
  try_except
    (let url :=
       base_url +:+ "/" +:+ pretty movie_id
         +:+ "?api_key=b76bb27542ba7b7652281b79d2905180&language=en-US" in
     let* response := requests_get net url in
     let* _ := raise_for_status response in
     let* poster_path := json_get response "poster_path" in
     if truthy poster_path
     then str_add image_base_url poster_path
     else ret placeholder_url)
    handler.

(** The body of [for i in movies_list]. *)
Fixpoint for_entries (entries : list (nat * Q))
    (recommended_movies movie_poster : list string)
    : M (list string * list string) :=
  match entries with
  | [] => ret (recommended_movies, movie_poster)
  | i :: rest =>
      let* m := lift (getitem movies (fst i)) in
      let* poster := fetch_poster (row_id m) "No+Image" in
      let* m' := lift (getitem movies (fst i)) in
      for_entries rest (recommended_movies ++ [row_title m'])
                  (movie_poster ++ [poster])
  end.

Definition recommend_movies (movie_selected : string)
    : M (list string * list string) :=
  let* movie_index := lift (title_index movies movie_selected) in
  let* distance := lift (getitem similarity movie_index) in
  let movies_list := slice_1_6 (sorted_reverse (enumerate distance)) in
  for_entries movies_list [] [].

(** The body of [if st.button('Recommend'):]: five columns, and in column
    i the i-th recommendation and the i-th poster. *)
Definition on_recommend (movie_selected : string) (w : world)
    : (list (list element) * option exn) * world :=
  match recommend_movies movie_selected w with
  | (Ok (recommendations, poster), w') =>
      (show_pairs recommendations poster 0 5, w')
  | (Raise e, w') => (([], Some e), w')
  end.

End Script.

End App.

(** * app3.py *)
Module App3.

(** [urllib3.util.retry.Retry] as the script configures it.  [total] is the
    number of retries allowed after the first attempt. *)
Record Retry : Type := mkRetry {
  total : nat;
  backoff_factor : Z;
  status_forcelist : list Z;
  allowed_methods : list string
}.

Definition retry_strategy : Retry :=
  mkRetry 3 1 [429; 500; 502; 503; 504] ["HEAD"; "GET"; "OPTIONS"].

(** The pause before a retry, after [errors] consecutive failures: none
    before the first retry, then [backoff_factor * 2 ^ (errors - 1)]
    seconds, capped at two minutes. *)
Definition get_backoff_time (r : Retry) (errors : nat) : Z :=
  if (errors <=? 1)%nat then 0
  else Z.min 120 (backoff_factor r * 2 ^ (Z.of_nat errors - 1)).

(** The statuses for which urllib3 follows a Retry-After header. *)
Definition RETRY_AFTER_STATUS_CODES : list Z := [413; 429; 503].

(** [Retry.is_retry(method, status_code, has_retry_after)], where
    [retries_left] is the [total] of the Retry object at that point: a
    status of the force list is repeated; so is, while a retry is left, a
    status of [RETRY_AFTER_STATUS_CODES] whose response carries a
    Retry-After header ([respect_retry_after_header] is left at [True]). *)
Definition is_retry (r : Retry) (retries_left : nat) (method : string)
    (status : Z) (has_retry_after : bool) : bool :=
  bool_decide (method ∈ allowed_methods r)
  && (bool_decide (status ∈ status_forcelist r)
      || ((0 <? retries_left)%nat && has_retry_after
          && bool_decide (status ∈ RETRY_AFTER_STATUS_CODES))).

(** [Retry.parse_retry_after]: a delay that lies in the past counts as 0. *)
Definition parse_retry_after (seconds : Z) : Z :=
  if seconds <? 0 then 0 else seconds.

(** [Retry.sleep_for_retry]: sleeps what the header asks for, if it asks
    for more than nothing, and tells whether it slept. *)
Definition sleep_for_retry (retry_after : option Z) : M bool :=
  match retry_after with
  | Some seconds =>
      if parse_retry_after seconds =? 0 then ret false
      else let* _ := sleep (parse_retry_after seconds) in ret true
  | None => ret false
  end.

(** [Retry._sleep_backoff]: no call of [time.sleep] for a back-off of 0. *)
Definition sleep_backoff (r : Retry) (errors : nat) : M unit :=
  let backoff := get_backoff_time r errors in
  if backoff <=? 0 then ret tt else sleep backoff.

(** [Retry.sleep(response)] after a response. *)
Definition retry_sleep (r : Retry) (retry_after : option Z) (errors : nat)
    : M unit :=
  let* slept := sleep_for_retry retry_after in
  if slept then ret tt else sleep_backoff r errors.

(** What [requests] raises once the retries are used up. *)
Definition exn_after_retries (e : transport_error) : exn :=
  match e with
  | ConnectTimeout => Timeout
  | ReadTimeout | ConnectionFailed => ConnectionError
  end.

(** [http_session.get(url, headers=headers, timeout=10)] through the
    mounted adapter, after urllib3's retry loop: a request that gets no
    response, or a response that [is_retry] accepts, is repeated while
    retries are left, after the pause of [Retry.sleep]; once none is left
    the failure surfaces as an exception.  [errors] counts the failures so
    far, the length of the Retry object's history. *)
Fixpoint session_get (r : Retry) (retries_left errors : nat)
    (net : endpoint) (url : string) : M response :=
  let* o := send net url in
  match o with
  | NoResponse e =>
      match retries_left with
      | O => raise (exn_after_retries e)
      | S k =>
          let* _ := sleep_backoff r (S errors) in
          session_get r k (S errors) net url
      end
  | Response s b =>
      if is_retry r retries_left "GET" s false
      then match retries_left with
           | O => raise RetryError
           | S k =>
               let* _ := retry_sleep r None (S errors) in
               session_get r k (S errors) net url
           end
      else ret (mkResponse s b)
  | ResponseRetryAfter s seconds b =>
      if is_retry r retries_left "GET" s true
      then match retries_left with
           | O => raise RetryError
           | S k =>
               let* _ := retry_sleep r (Some seconds) (S errors) in
               session_get r k (S errors) net url
           end
      else ret (mkResponse s b)
  end.

(** [ttl="6h"], in seconds. *)
Definition ttl : Z := 6 * 3600.

(** Modelled from the spec: [st.cache_data] is Streamlit's decorator, whose
    code is not part of the repository.  A call looks the argument up in the
    process-wide cache; an entry younger than the TTL is returned without
    running the function; otherwise the function runs and its return value
    is stored with the current time.  An exception is not stored. *)
Definition cache_data (key : Z) (f : M string) : M string :=
  fun w =>
    let miss :=
      match f w with
      | (Ok url, w') =>
          (Ok url,
           mkWorld (clock w') (net_log w') (sleep_log w')
                   (<[key := (url, clock w')]> (poster_cache w')))
      | (Raise e, w') => (Raise e, w')
      end in
    match poster_cache w !! key with
    | Some (url, stored) =>
        if clock w <? stored + ttl then (Ok url, w) else miss
    | None => miss
    end.

Record movie_info : Type := mkInfo {
  tmdb_id : Z;
  title : string;
  original_order : nat
}.

(** [xs[i] = v] *)
Definition setitem {A} (xs : list A) (i : nat) (v : A) : result (list A) :=
  if (i <? length xs)%nat then Ok (<[i := v]> xs) else Raise IndexError.

(** The state of the submitted futures: future j, once done, holds what
    the call returned or raised. *)
Abbreviation futures := (gmap nat (result string)).

Section Script.
Variable movies : list movie.
Variable similarity : list (list Q).
Variable net : endpoint.

Definition placeholder_no_poster : string :=
  "https://via.placeholder.com/500x750.png?text=No+Poster+Available".
Definition placeholder_error : string :=
  "https://via.placeholder.com/500x750.png?text=Error+Loading+Poster".

Definition handler (e : exn) : M string :=
  if is_Timeout e then ret placeholder_error
  else if is_HTTPError e then ret placeholder_error
  else if is_RequestException e then ret placeholder_error
  else if is_ValueError e then ret placeholder_error
  else ret placeholder_error.

(** The decorated function's body. *)
Definition fetch_poster_body (movie_tmdb_id : Z) : M string :=
  let url := api_url "8c9ed4a92c476df16b161ba03d1e0430" movie_tmdb_id in
  try_except
    (let* response :=
       session_get retry_strategy (total retry_strategy) 0 net url in
     let* _ := raise_for_status response in
     let* poster_path := json_get response "poster_path" in
     if truthy poster_path
     then ret (fstring "https://image.tmdb.org/t/p/w500/" poster_path)
     else ret placeholder_no_poster)
    handler.

Definition fetch_poster_robust_cached (movie_tmdb_id : Z) : M string :=
  cache_data movie_tmdb_id (fetch_poster_body movie_tmdb_id).

(** The loop that fills [recommended_movies_data_to_fetch]. *)
Fixpoint prepare (i : nat) (entries : list (nat * Q))
    (data : list movie_info) : result (list movie_info) :=
  match entries with
  | [] => Ok data
  | (original_df_index, _) :: rest =>
      if (original_df_index <? length movies)%nat
      then
        match getitem movies original_df_index with
        | Ok m =>
            prepare (S i) rest
              (data ++ [mkInfo (row_id m) (row_title m) i])
        | Raise e => Raise e
        end
      else prepare (S i) rest data
  end.

(** The pool runs the submitted calls; [completion] lists the futures in
    the order in which they finish, each call taken as one step. *)
Fixpoint run_pool (job : Z -> M string) (data : list movie_info)
    (completion : list nat) (fs : futures) (w : world) : futures * world :=
  match completion with
  | [] => (fs, w)
  | j :: rest =>
      match data !! j with
      | Some info =>
          let (r, w') := job (tmdb_id info) w in
          run_pool job data rest (<[j := r]> fs) w'
      | None => run_pool job data rest fs w
      end
  end.

(** [for future in as_completed(future_to_movie_info)] *)
Fixpoint as_completed_loop (data : list movie_info) (fs : futures)
    (completion : list nat) (posters_map titles_map : gmap Z string)
    : gmap Z string * gmap Z string :=
  match completion with
  | [] => (posters_map, titles_map)
  | j :: rest =>
      match data !! j, fs !! j with
      | Some info, Some (Ok poster_url) =>
          as_completed_loop data fs rest
            (<[tmdb_id info := poster_url]> posters_map)
            (<[tmdb_id info := title info]> titles_map)
      | Some info, Some (Raise _) =>
          as_completed_loop data fs rest
            (<[tmdb_id info :=
                 "https://via.placeholder.com/500x750.png?text=Error+Processing"]>
               posters_map)
            (<[tmdb_id info := title info]> titles_map)
      | _, _ => as_completed_loop data fs rest posters_map titles_map
      end
  end.

(** [for movie_info in recommended_movies_data_to_fetch] *)
Fixpoint reorder (todo : list movie_info)
    (posters_map titles_map : gmap Z string)
    (ordered_titles ordered_posters : list (option string))
    : result (list (option string) * list (option string)) :=
  match todo with
  | [] => Ok (ordered_titles, ordered_posters)
  | info :: rest =>
      match setitem ordered_titles (original_order info)
              (Some (default "Title Not Found" (titles_map !! tmdb_id info))) with
      | Ok ts =>
          match setitem ordered_posters (original_order info)
                  (Some (default
                     "https://via.placeholder.com/500x750.png?text=Poster+Not+Found"
                     (posters_map !! tmdb_id info))) with
          | Ok ps => reorder rest posters_map titles_map ts ps
          | Raise e => Raise e
          end
      | Raise e => Raise e
      end
  end.

(** Lines 109-145: the concurrent fetch and the reassembly. *)
Definition fetch_all (job : Z -> M string) (completion : list nat)
    (data : list movie_info)
    : M (list (option string) * list (option string)) :=
  fun w =>
    let (fs, w') := run_pool job data completion ∅ w in
    let (posters_map, titles_map) :=
      as_completed_loop data fs completion ∅ ∅ in
    let num_recommendations := length data in
    (reorder data posters_map titles_map
       (replicate num_recommendations None)
       (replicate num_recommendations None), w').

Definition recommend_movies_final (completion : list nat)
    (movie_selected_title : string)
    : M (list (option string) * list (option string)) :=
  match title_index movies movie_selected_title with
  | Raise e => if is_IndexError e then ret ([], []) else raise e
  | Ok movie_index =>
      let* distances := lift (getitem similarity movie_index) in
      let movies_list_indices_scores :=
        slice_1_6 (sorted_reverse (enumerate distances)) in
      let* data := lift (prepare 0 movies_list_indices_scores []) in
      match data with
      | [] => ret ([], [])
      | _ => fetch_all fetch_poster_robust_cached completion data
      end
  end.

(** Truth value of a list cell: [None] and the empty string are false. *)
Definition cell_truth (cell : option string) : bool :=
  match cell with
  | Some s => negb (String.eqb s "")
  | None => false
  end.

(** The loop [for i in range(num_recommendations)] over the columns: in
    column i the calls [st.markdown] and then [st.image] or [st.caption]. *)
Fixpoint show_cells (titles posters : list (option string)) (i n : nat)
    : list (list element) * option exn :=
  match n with
  | O => ([], None)
  | S n' =>
      match getitem titles i with
      | Raise e => ([] :: replicate n' [], Some e)
      | Ok t =>
          let heading := Markdown ("**" +:+ default "None" t +:+ "**") in
          match getitem posters i with
          | Raise e => ([heading] :: replicate n' [], Some e)
          | Ok p =>
              let picture :=
                if cell_truth p then ImageAlways (default "" p)
                else Caption "Poster not available" in
              let (cols, err) := show_cells titles posters (S i) n' in
              ([heading; picture] :: cols, err)
          end
      end
  end.

Record page : Type := mkPage {
  banner : list element;
  columns : list (list element)
}.

(** The body of [if st.button(...):], for the selection of the box, which
    is [None] until a movie is chosen. *)
Definition on_get_recommendations (completion : list nat)
    (movie_selected_title : option string) (w : world)
    : (page * option exn) * world :=
  if cell_truth movie_selected_title then
    let t := default "" movie_selected_title in
    match recommend_movies_final completion t w with
    | (Raise e, w') => ((mkPage [] [], Some e), w')
    | (Ok (recommended_titles, recommended_posters), w') =>
        if negb (bool_decide (recommended_titles = []))
           && negb (bool_decide (recommended_posters = []))
        then
          let heading :=
            Subheader ("Recommended Movies for You (based on " +:+ t +:+ "):") in
          let num_recommendations := length recommended_titles in
          if (0 <? num_recommendations)%nat
          then
            let (cols, err) :=
              show_cells recommended_titles recommended_posters 0
                         num_recommendations in
            ((mkPage [heading] cols, err), w')
          else
            ((mkPage
                [heading;
                 WarningBox "No recommendations found for this movie. This could be due to data limitations or API issues."]
                [], None), w')
        else
          ((mkPage
              [ErrorBox "Sorry, couldn't fetch recommendations. Please try another movie or check the console for errors."]
              [], None), w')
    end
  else ((mkPage [WarningBox "Please select a movie first!"] [], None), w).

End Script.

End App3.

(** * Derived notions used to state the properties *)

(** The catalog and the matrix fit: one row per movie, one score per movie
    in every row. *)
Definition square (movies : list movie) (similarity : list (list Q)) : Prop :=
  length similarity = length movies
  ∧ Forall (fun row => length row = length movies) similarity.

(** The catalog positions kept for a row: the index column of
    [sorted(...)[1:6]]. *)
Definition recommended_indices (row : list Q) : list nat :=
  map fst (slice_1_6 (sorted_reverse (enumerate row))).

(** The titles found at a list of catalog positions. *)
Definition titles_at (movies : list movie) (idxs : list nat) : list string :=
  omap (fun i => row_title <$> movies !! i) idxs.

(** [x] comes before [y] in the order of [sorted(..., reverse=True)]:
    a greater score first, and for equal scores the smaller index first. *)
Definition precedes (x y : nat * Q) : Prop :=
  (snd y < snd x)%Q ∨ ((snd x == snd y)%Q ∧ (fst x < fst y)%nat).

(** The query's own entry is the first of its sorted row: no score of the
    row is above it, and none before it is equal to it. *)
Definition sorts_first (row : list Q) (q : nat) : Prop :=
  ∃ own, row !! q = Some own
    ∧ ∀ j s, row !! j = Some s → j ≠ q →
        (s <= own)%Q ∧ ((j < q)%nat → (s < own)%Q).

(** A request that ends in the error branch of the fetch functions. *)
Definition failure (o : http_outcome) : bool :=
  match o with
  | NoResponse _ => true
  | Response s b | ResponseRetryAfter s _ b =>
      ((400 <=? s) && (s <? 600))
      || match b with NotJSON | JSONOther => true | JSONDict _ => false end
  end.

(** The URL a finished future stands for in [as_completed]'s loop body. *)
Definition resolved (r : result string) : string :=
  match r with
  | Ok url => url
  | Raise _ => "https://via.placeholder.com/500x750.png?text=Error+Processing"
  end.

(** * Basic facts *)

Lemma Qltb_lt (x y : Q) : Qltb x y = true ↔ (x < y)%Q.
Proof.
  unfold Qltb. rewrite Qlt_alt. destruct (x ?= y)%Q; split; congruence.
Qed.

Lemma Qltb_ge (x y : Q) : Qltb x y = false ↔ (y <= x)%Q.
Proof.
  split; intros H.
  - apply Qnot_lt_le. intros Hlt. apply Qltb_lt in Hlt. congruence.
  - destruct (Qltb x y) eqn:E; [|done].
    apply Qltb_lt in E. exfalso. exact (Qle_not_lt _ _ H E).
Qed.

Lemma matching_from_bounds pos movies t i :
  i ∈ matching_from pos movies t →
  (pos ≤ i)%nat ∧ (row_title <$> movies !! (i - pos)%nat) = Some t.
Proof.
  revert pos. induction movies as [|m rest IH]; intros pos Hin; simpl in Hin.
  - by apply elem_of_nil in Hin.
  - destruct (String.eqb (row_title m) t) eqn:E.
    + apply elem_of_cons in Hin as [->|Hin].
      * split; [lia|]. replace (pos - pos)%nat with 0%nat by lia. simpl.
        apply String.eqb_eq in E. by rewrite E.
      * apply IH in Hin as [Hle Hlk]. split; [lia|].
        replace (i - pos)%nat with (S (i - S pos)) by lia. done.
    + apply IH in Hin as [Hle Hlk]. split; [lia|].
      replace (i - pos)%nat with (S (i - S pos)) by lia. done.
Qed.

Lemma matching_from_nil pos movies t :
  matching_from pos movies t = [] ↔ Forall (fun m => row_title m ≠ t) movies.
Proof.
  revert pos. induction movies as [|m rest IH]; intros pos; simpl.
  - split; [constructor|done].
  - destruct (String.eqb (row_title m) t) eqn:E.
    + apply String.eqb_eq in E. split; [done|].
      intros H. inversion H; subst. congruence.
    + apply String.eqb_neq in E. rewrite IH. split.
      * intros H. by constructor.
      * intros H. by inversion H.
Qed.

(** An unknown title: [.index[0]] raises [IndexError]. *)
Lemma title_index_unknown movies t :
  Forall (fun m => row_title m ≠ t) movies →
  title_index movies t = Raise IndexError.
Proof.
  intros H. unfold title_index. apply (matching_from_nil 0) in H. by rewrite H.
Qed.

(** A known title resolves to a position of the catalog holding it. *)
Lemma title_index_known movies t :
  (∃ m, m ∈ movies ∧ row_title m = t) →
  ∃ q, title_index movies t = Ok q ∧ (q < length movies)%nat
       ∧ (row_title <$> movies !! q) = Some t.
Proof.
  intros (m & Hin & Ht). unfold title_index.
  destruct (matching_from 0 movies t) as [|q l] eqn:E.
  - apply matching_from_nil in E. rewrite Forall_forall in E.
    exfalso. by apply (E m).
  - exists q. split; [done|].
    assert (Hq : q ∈ matching_from 0 movies t) by (rewrite E; left).
    apply matching_from_bounds in Hq as [_ Hlk].
    replace (q - 0)%nat with q in Hlk by lia. split; [|done].
    destruct (movies !! q) eqn:Eq; [|done].
    by eapply lookup_lt_Some.
Qed.

Lemma title_index_Ok movies t q :
  title_index movies t = Ok q →
  (q < length movies)%nat ∧ (row_title <$> movies !! q) = Some t.
Proof.
  unfold title_index. intros H.
  destruct (matching_from 0 movies t) as [|q' l] eqn:E; [done|].
  simpl in H. injection H as ->.
  assert (Hq : q ∈ matching_from 0 movies t) by (rewrite E; left).
  apply matching_from_bounds in Hq as [_ Hlk].
  replace (q - 0)%nat with q in Hlk by lia. split; [|done].
  destruct (movies !! q) eqn:Eq; [|done].
  by eapply lookup_lt_Some.
Qed.

Lemma getitem_Ok {A} (xs : list A) i x :
  getitem xs i = Ok x ↔ xs !! i = Some x.
Proof. unfold getitem. destruct (xs !! i); split; congruence. Qed.

Lemma enumerate_from_fst {A} pos (xs : list A) :
  map fst (enumerate_from pos xs) = seq pos (length xs).
Proof.
  revert pos. induction xs as [|x rest IH]; intros pos; simpl; [done|].
  by rewrite IH.
Qed.

Lemma enumerate_from_lookup {A} pos (xs : list A) i s :
  (i, s) ∈ enumerate_from pos xs ↔ (pos ≤ i)%nat ∧ xs !! (i - pos)%nat = Some s.
Proof.
  revert pos. induction xs as [|x rest IH]; intros pos; simpl.
  - split; [intros H; by apply elem_of_nil in H | intros [_ H]; done].
  - rewrite elem_of_cons, IH. split.
    + intros [H|[Hle Hlk]].
      * injection H as -> ->. split; [lia|].
        by replace (pos - pos)%nat with 0%nat by lia.
      * split; [lia|]. by replace (i - pos)%nat with (S (i - S pos)) by lia.
    + intros [Hle Hlk]. destruct (decide (i = pos)) as [->|Hne].
      * left. replace (pos - pos)%nat with 0%nat in Hlk by lia.
        simpl in Hlk. congruence.
      * right. split; [lia|].
        by replace (i - pos)%nat with (S (i - S pos)) in Hlk by lia.
Qed.

Lemma enumerate_lookup {A} (xs : list A) i s :
  (i, s) ∈ enumerate xs ↔ xs !! i = Some s.
Proof.
  unfold enumerate. rewrite enumerate_from_lookup.
  replace (i - 0)%nat with i by lia. split; [by intros [_ ?]|].
  intros H. split; [lia|done].
Qed.

Lemma length_enumerate {A} (xs : list A) : length (enumerate xs) = length xs.
Proof.
  unfold enumerate. rewrite <- (length_map fst), enumerate_from_fst.
  apply length_seq.
Qed.

(** ** The sort *)

Lemma insert_desc_perm x l : insert_desc x l ≡ₚ x :: l.
Proof.
  induction l as [|y l IH]; simpl; [done|].
  destruct (Qltb (snd x) (snd y)); [|done].
  rewrite IH. apply Permutation_swap.
Qed.

Lemma sorted_reverse_perm xs : sorted_reverse xs ≡ₚ xs.
Proof.
  induction xs as [|x rest IH]; simpl; [done|].
  by rewrite insert_desc_perm, IH.
Qed.

Lemma length_sorted_reverse xs : length (sorted_reverse xs) = length xs.
Proof. apply Permutation_length, sorted_reverse_perm. Qed.

Lemma length_slice_1_6 {A} (xs : list A) :
  length (slice_1_6 xs) = Nat.min 5 (length xs - 1).
Proof. unfold slice_1_6. by rewrite length_take, length_drop. Qed.

Lemma slice_1_6_subset {A} (xs : list A) x : x ∈ slice_1_6 xs → x ∈ xs.
Proof.
  unfold slice_1_6. intros H.
  apply list_elem_of_lookup in H as [i Hi].
  apply lookup_take_Some in Hi as [Hi _]. rewrite lookup_drop in Hi.
  apply list_elem_of_lookup. eauto.
Qed.

Lemma insert_desc_sorted x l :
  StronglySorted precedes l →
  Forall (fun y => (fst x < fst y)%nat) l →
  StronglySorted precedes (insert_desc x l).
Proof.
  induction l as [|y l IH]; intros Hs Hidx; simpl.
  - repeat constructor.
  - inversion Hs as [|? ? Hs' Hy]; subst.
    inversion Hidx as [|? ? Hxy Hidx']; subst.
    destruct (Qltb (snd x) (snd y)) eqn:E.
    + apply Qltb_lt in E. constructor; [by apply IH|].
      rewrite insert_desc_perm. constructor; [by left|done].
    + apply Qltb_ge in E. constructor; [done|].
      constructor.
      * apply Qle_lt_or_eq in E as [E|E]; [by left|].
        right. split; [by symmetry|done].
      * rewrite Forall_forall in Hy, Hidx'. apply Forall_forall.
        intros z Hz. specialize (Hy z Hz). specialize (Hidx' z Hz).
        destruct Hy as [Hlt|[Heq _]].
        -- left. eapply Qlt_le_trans; eauto.
        -- apply Qle_lt_or_eq in E as [E|E].
           ++ left. rewrite <- Heq. done.
           ++ right. split; [|done]. rewrite <- E. by symmetry.
Qed.

Lemma sorted_reverse_enumerate_from pos (row : list Q) :
  StronglySorted precedes (sorted_reverse (enumerate_from pos row))
  ∧ Forall (fun y => (pos ≤ fst y)%nat) (sorted_reverse (enumerate_from pos row)).
Proof.
  revert pos. induction row as [|s rest IH]; intros pos; simpl.
  - split; constructor.
  - destruct (IH (S pos)) as [Hs Hidx]. split.
    + apply insert_desc_sorted; [done|].
      eapply Forall_impl; [exact Hidx|]. simpl. intros; lia.
    + rewrite insert_desc_perm. constructor; [simpl; lia|].
      eapply Forall_impl; [exact Hidx|]. simpl. intros; lia.
Qed.

(** The sorted row is ordered by descending score, ties by ascending
    index, and holds exactly the entries of the row. *)
Lemma sorted_reverse_spec (row : list Q) :
  StronglySorted precedes (sorted_reverse (enumerate row))
  ∧ sorted_reverse (enumerate row) ≡ₚ enumerate row.
Proof.
  split; [apply sorted_reverse_enumerate_from | apply sorted_reverse_perm].
Qed.

Lemma precedes_irrefl_pair x y : precedes x y → precedes y x → False.
Proof.
  intros [H1|[E1 L1]] [H2|[E2 L2]].
  - exact (Qlt_irrefl _ (Qlt_trans _ _ _ H1 H2)).
  - rewrite E2 in H1. exact (Qlt_irrefl _ H1).
  - rewrite E1 in H2. exact (Qlt_irrefl _ H2).
  - lia.
Qed.

(** Two lists with the same entries, both in the order of [precedes], are
    the same list: whatever stable algorithm [sorted] runs, its result on a
    row is [sorted_reverse (enumerate row)]. *)
Lemma sorted_by_precedes_unique (l1 l2 : list (nat * Q)) :
  l1 ≡ₚ l2 →
  StronglySorted precedes l1 → StronglySorted precedes l2 → l1 = l2.
Proof.
  revert l2. induction l1 as [|x t1 IH]; intros l2 Hp H1 H2.
  - by apply Permutation_nil_l in Hp.
  - destruct l2 as [|y t2].
    { by apply Permutation_nil_r in Hp. }
    inversion H1 as [|? ? H1' Hx]; subst.
    inversion H2 as [|? ? H2' Hy]; subst.
    rewrite Forall_forall in Hx, Hy.
    assert (x = y) as ->.
    { assert (Hxin : x ∈ y :: t2) by (rewrite <- Hp; left).
      assert (Hyin : y ∈ x :: t1) by (rewrite Hp; left).
      apply elem_of_cons in Hxin as [?|Hxin]; [done|].
      apply elem_of_cons in Hyin as [?|Hyin]; [done|].
      exfalso. exact (precedes_irrefl_pair x y (Hx y Hyin) (Hy x Hxin)). }
    f_equal. apply IH; [|done|done].
    by apply (Permutation_cons_inv (a := y)).
Qed.

Lemma sorted_reverse_unique (row : list Q) (l : list (nat * Q)) :
  l ≡ₚ enumerate row → StronglySorted precedes l →
  l = sorted_reverse (enumerate row).
Proof.
  intros Hp Hs. destruct (sorted_reverse_spec row) as [Hs' Hp'].
  apply sorted_by_precedes_unique; [|done|done]. by rewrite Hp, Hp'.
Qed.

Lemma sorted_indices_NoDup (row : list Q) :
  NoDup (map fst (sorted_reverse (enumerate row))).
Proof.
  rewrite (sorted_reverse_perm (enumerate row)).
  unfold enumerate. rewrite enumerate_from_fst. apply NoDup_seq.
Qed.

(** When the query's entry sorts first, it is the head of the sorted row,
    and dropping the head drops the query. *)
Lemma sorts_first_excluded (row : list Q) q :
  sorts_first row q → q ∉ recommended_indices row.
Proof.
  intros (own & Hown & Hdom). unfold recommended_indices.
  pose proof (sorted_reverse_spec row) as [Hs Hp].
  pose proof (sorted_indices_NoDup row) as Hnd.
  assert (Hin : (q, own) ∈ sorted_reverse (enumerate row)).
  { rewrite Hp. by apply enumerate_lookup. }
  destruct (sorted_reverse (enumerate row)) as [|h T] eqn:E.
  { by apply elem_of_nil in Hin. }
  assert (Hh : h = (q, own)).
  { apply elem_of_cons in Hin as [Hin|Hin]; [done|].
    inversion Hs as [|? ? _ Hall]; subst.
    rewrite Forall_forall in Hall. specialize (Hall _ Hin).
    destruct h as [j s].
    assert (Hj : row !! j = Some s).
    { apply enumerate_lookup. rewrite <- Hp. left. }
    destruct (decide (j = q)) as [->|Hne]; [congruence|].
    destruct (Hdom j s Hj Hne) as [Hle Hlt]. exfalso.
    destruct Hall as [H|[Heq Hidx]]; simpl in *.
    - exact (Qle_not_lt _ _ Hle H).
    - specialize (Hlt Hidx). rewrite Heq in Hlt. exact (Qlt_irrefl _ Hlt). }
  subst h. simpl in Hnd. apply NoDup_cons in Hnd as [Hnot _].
  intros Hq. apply Hnot.
  apply list_elem_of_fmap in Hq as ([j s] & Hj & Hjs). simpl in Hj. subst j.
  apply list_elem_of_fmap. exists (q, s). split; [done|].
  unfold slice_1_6 in Hjs. simpl in Hjs.
  apply list_elem_of_lookup in Hjs as [i Hi].
  apply lookup_take_Some in Hi as [Hi _].
  apply list_elem_of_lookup. eauto.
Qed.

(** ** The fetch functions of app.py and app2.py *)

Definition error_url : string :=
  "https://via.placeholder.com/500x750.png?text=Error".

(** What [fetch_poster] makes of the answer to its single request. *)
Definition simple_answer (no_image : string) (o : http_outcome) : string :=
  match o with
  | NoResponse _ => error_url
  | Response s b | ResponseRetryAfter s _ b =>
      if (400 <=? s) && (s <? 600) then error_url
      else match b with
           | JSONDict fields =>
               match dict_get fields "poster_path" with
               | PyNone => no_image
               | PyStr p => if String.eqb p "" then no_image else image_host +:+ p
               | PyOther true _ => error_url
               | PyOther false _ => no_image
               end
           | NotJSON | JSONOther => error_url
           end
  end.

Definition logged (url : string) (w : world) : world :=
  mkWorld (clock w) (net_log w ++ [url]) (sleep_log w) (poster_cache w).

Ltac run_fetch :=
  cbv [try_except bind requests_get send deliver raise_for_status
       json_get str_add raise ret logged simple_answer status_code content].

Lemma App2_fetch_poster_eval net movie_id w :
  let url := api_url "b76bb27542ba7b7652281b79d2905180" movie_id in
  App2.fetch_poster net movie_id w
  = (Ok (simple_answer "https://via.placeholder.com/500x750.png?text=No+Image"
           (net (length (net_log w)) url)),
     logged url w).
Proof.
  intros url. unfold App2.fetch_poster. fold url. run_fetch.
  destruct (net (length (net_log w)) url) as [[]|s b|s ra b]; simpl; try done.
  all: destruct ((400 <=? s) && (s <? 600)); simpl; [done|].
  all: destruct b as [|fields|]; simpl; try done.
  all: destruct (dict_get fields "poster_path") as [|p|[] text]; simpl; try done.
  all: destruct (String.eqb p ""); done.
Qed.

Lemma App_handler_eval e w : App.handler e w = (Ok error_url, w).
Proof. unfold App.handler. by destruct e. Qed.

Lemma App_fetch_poster_eval net movie_id fallback_text w :
  let url := api_url "b76bb27542ba7b7652281b79d2905180" movie_id in
  App.fetch_poster net movie_id fallback_text w
  = (Ok (simple_answer
           ("https://via.placeholder.com/500x750.png?text=" +:+ fallback_text)
           (net (length (net_log w)) url)),
     logged url w).
Proof.
  intros url. unfold App.fetch_poster.
  change (App.base_url +:+ "/" +:+ pretty movie_id
            +:+ "?api_key=b76bb27542ba7b7652281b79d2905180&language=en-US")
    with url.
  run_fetch.
  destruct (net (length (net_log w)) url) as [[]|s b|s ra b]; simpl;
    try apply App_handler_eval.
  all: destruct ((400 <=? s) && (s <? 600)); simpl; [apply App_handler_eval|].
  all: destruct b as [|fields|]; simpl; try apply App_handler_eval.
  all: destruct (dict_get fields "poster_path") as [|p|[] text]; simpl;
    try done; try apply App_handler_eval.
  all: destruct (String.eqb p ""); done.
Qed.

Lemma simple_answer_failure no_image o :
  failure o = true → simple_answer no_image o = error_url.
Proof.
  destruct o as [e|s b|s ra b]; simpl; [done| |].
  all: destruct ((400 <=? s) && (s <? 600)); simpl; [done|].
  all: by destruct b.
Qed.

(** ** The loops of app.py and app2.py *)

(** What the sequential loop collects: the k-th poster is the answer to the
    k-th request of the loop, sent for the k-th entry's id. *)
Fixpoint sequential_posters (no_image : string) (movies : list movie)
    (net : endpoint) (n : nat) (entries : list (nat * Q)) : list string :=
  match entries with
  | [] => []
  | e :: rest =>
      match movies !! fst e with
      | Some m =>
          simple_answer no_image
            (net n (api_url "b76bb27542ba7b7652281b79d2905180" (row_id m)))
          :: sequential_posters no_image movies net (S n) rest
      | None => []
      end
  end.

Lemma length_sequential_posters no_image movies net n entries :
  Forall (fun e => (fst e < length movies)%nat) entries →
  length (sequential_posters no_image movies net n entries) = length entries.
Proof.
  intros Hall. revert n. induction Hall as [|e entries He _ IH]; intros n; [done|].
  simpl. apply lookup_lt_is_Some in He as [m ->]. simpl. by rewrite IH.
Qed.

Lemma sequential_posters_lookup no_image movies net n entries k e m :
  Forall (fun e => (fst e < length movies)%nat) entries →
  entries !! k = Some e → movies !! fst e = Some m →
  sequential_posters no_image movies net n entries !! k
  = Some (simple_answer no_image
            (net (n + k)%nat
               (api_url "b76bb27542ba7b7652281b79d2905180" (row_id m)))).
Proof.
  intros Hall. revert n k.
  induction Hall as [|e0 entries He _ IH]; intros n k Hk Hm; [done|].
  simpl. destruct k as [|k]; simpl in *.
  - injection Hk as ->. rewrite Hm. simpl. by rewrite Nat.add_0_r.
  - apply lookup_lt_is_Some in He as [m0 ->]. simpl.
    rewrite (IH (S n) k Hk Hm).
    by replace (S n + k)%nat with (n + S k)%nat by lia.
Qed.

Lemma titles_at_app movies xs ys :
  titles_at movies (xs ++ ys) = titles_at movies xs ++ titles_at movies ys.
Proof. unfold titles_at. apply omap_app. Qed.

Lemma length_titles_at movies idxs :
  Forall (fun i => (i < length movies)%nat) idxs →
  length (titles_at movies idxs) = length idxs.
Proof.
  induction 1 as [|i idxs Hi _ IH]; [done|].
  unfold titles_at in *. simpl.
  apply lookup_lt_is_Some in Hi as [m Hm]. rewrite Hm. simpl. by f_equal.
Qed.

Lemma App2_for_entries_eval movies net entries names posters w :
  Forall (fun e => (fst e < length movies)%nat) entries →
  ∃ w',
    App2.for_entries movies net entries names posters w
    = (Ok (names ++ titles_at movies (map fst entries),
           posters ++ sequential_posters "https://via.placeholder.com/500x750.png?text=No+Image"
                        movies net (length (net_log w)) entries), w')
    ∧ length (net_log w') = (length (net_log w) + length entries)%nat
    ∧ poster_cache w' = poster_cache w.
Proof.
  intros Hall. revert names posters w.
  induction Hall as [|e entries He _ IH]; intros names posters w; simpl.
  - exists w. unfold ret, titles_at. simpl. rewrite !app_nil_r.
    repeat split; lia.
  - apply lookup_lt_is_Some in He as [m Hm].
    rewrite Hm. simpl.
    set (url := api_url "b76bb27542ba7b7652281b79d2905180" (row_id m)).
    set (poster := simple_answer "https://via.placeholder.com/500x750.png?text=No+Image" (net (length (net_log w)) url)).
    destruct (IH (names ++ [row_title m]) (posters ++ [poster]) (logged url w))
      as (w' & Heq & Hlog & Hc).
    exists w'. split.
    + unfold bind at 1, lift at 1, getitem at 1. rewrite Hm.
      unfold bind at 1. rewrite App2_fetch_poster_eval.
      unfold bind at 1, lift at 1, getitem at 1. rewrite Hm.
      fold url. fold poster. rewrite Heq. rewrite <- !app_assoc. simpl.
      rewrite length_app. simpl.
      by replace (length (net_log w) + 1)%nat with (S (length (net_log w))) by lia.
    + rewrite Hlog, Hc. unfold logged. simpl. rewrite length_app. simpl.
      repeat split; lia.
Qed.

Lemma App_for_entries_eval movies net entries names posters w :
  Forall (fun e => (fst e < length movies)%nat) entries →
  ∃ w',
    App.for_entries movies net entries names posters w
    = (Ok (names ++ titles_at movies (map fst entries),
           posters ++ sequential_posters ("https://via.placeholder.com/500x750.png?text=" +:+ "No+Image")
                        movies net (length (net_log w)) entries), w')
    ∧ length (net_log w') = (length (net_log w) + length entries)%nat
    ∧ poster_cache w' = poster_cache w.
Proof.
  intros Hall. revert names posters w.
  induction Hall as [|e entries He _ IH]; intros names posters w; simpl.
  - exists w. unfold ret, titles_at. simpl. rewrite !app_nil_r.
    repeat split; lia.
  - apply lookup_lt_is_Some in He as [m Hm].
    rewrite Hm. simpl.
    set (url := api_url "b76bb27542ba7b7652281b79d2905180" (row_id m)).
    set (poster := simple_answer ("https://via.placeholder.com/500x750.png?text=" +:+ "No+Image") (net (length (net_log w)) url)).
    destruct (IH (names ++ [row_title m]) (posters ++ [poster]) (logged url w))
      as (w' & Heq & Hlog & Hc).
    exists w'. split.
    + unfold bind at 1, lift at 1, getitem at 1. rewrite Hm.
      unfold bind at 1. rewrite App_fetch_poster_eval.
      unfold bind at 1, lift at 1, getitem at 1. rewrite Hm.
      fold url. fold poster. rewrite Heq. rewrite <- !app_assoc. simpl.
      rewrite length_app. simpl.
      by replace (length (net_log w) + 1)%nat with (S (length (net_log w))) by lia.
    + rewrite Hlog, Hc. unfold logged. simpl. rewrite length_app. simpl.
      repeat split; lia.
Qed.

(** ** The lookup part of the three recommendation functions *)

Lemma slice_entries_bound (row : list Q) :
  Forall (fun e => (fst e < length row)%nat)
         (slice_1_6 (sorted_reverse (enumerate row))).
Proof.
  apply Forall_forall. intros [i s] Hin. simpl.
  apply slice_1_6_subset in Hin.
  rewrite (sorted_reverse_perm (enumerate row)) in Hin.
  apply enumerate_lookup in Hin. by eapply lookup_lt_Some.
Qed.

Lemma length_recommended_indices (row : list Q) :
  length (recommended_indices row) = Nat.min 5 (length row - 1).
Proof.
  unfold recommended_indices.
  by rewrite length_map, length_slice_1_6, length_sorted_reverse, length_enumerate.
Qed.

Lemma recommended_indices_bound (row : list Q) :
  Forall (fun i => (i < length row)%nat) (recommended_indices row).
Proof.
  unfold recommended_indices. apply Forall_fmap.
  exact (slice_entries_bound row).
Qed.

Lemma square_row movies similarity q :
  square movies similarity → (q < length movies)%nat →
  ∃ row, similarity !! q = Some row ∧ length row = length movies.
Proof.
  intros [Hlen Hrows] Hq.
  destruct (lookup_lt_is_Some_2 similarity q) as [row Hrow]; [lia|].
  exists row. split; [done|].
  rewrite Forall_forall in Hrows. apply Hrows.
  apply list_elem_of_lookup. eauto.
Qed.

Lemma App2_recommend_eval movies similarity net t w q row :
  title_index movies t = Ok q →
  similarity !! q = Some row →
  (length row ≤ length movies)%nat →
  ∃ w',
    App2.recommend movies similarity net t w
    = (Ok (titles_at movies (recommended_indices row),
           sequential_posters "https://via.placeholder.com/500x750.png?text=No+Image"
             movies net (length (net_log w))
             (slice_1_6 (sorted_reverse (enumerate row)))), w')
    ∧ length (net_log w')
      = (length (net_log w) + length (recommended_indices row))%nat
    ∧ poster_cache w' = poster_cache w.
Proof.
  intros Ht Hrow Hlen. unfold App2.recommend.
  unfold bind at 1, lift at 1. rewrite Ht.
  unfold bind at 1, lift at 1, getitem at 1. rewrite Hrow.
  destruct (App2_for_entries_eval movies net
              (slice_1_6 (sorted_reverse (enumerate row))) [] [] w)
    as (w' & Heq & Hlog & Hc).
  { eapply Forall_impl; [apply slice_entries_bound|]. simpl. intros; lia. }
  exists w'. unfold recommended_indices.
  rewrite length_map. by rewrite Heq.
Qed.

Lemma App_recommend_movies_eval movies similarity net t w q row :
  title_index movies t = Ok q →
  similarity !! q = Some row →
  (length row ≤ length movies)%nat →
  ∃ w',
    App.recommend_movies movies similarity net t w
    = (Ok (titles_at movies (recommended_indices row),
           sequential_posters ("https://via.placeholder.com/500x750.png?text=" +:+ "No+Image")
             movies net (length (net_log w))
             (slice_1_6 (sorted_reverse (enumerate row)))), w')
    ∧ length (net_log w')
      = (length (net_log w) + length (recommended_indices row))%nat
    ∧ poster_cache w' = poster_cache w.
Proof.
  intros Ht Hrow Hlen. unfold App.recommend_movies.
  unfold bind at 1, lift at 1. rewrite Ht.
  unfold bind at 1, lift at 1, getitem at 1. rewrite Hrow.
  destruct (App_for_entries_eval movies net
              (slice_1_6 (sorted_reverse (enumerate row))) [] [] w)
    as (w' & Heq & Hlog & Hc).
  { eapply Forall_impl; [apply slice_entries_bound|]. simpl. intros; lia. }
  exists w'. unfold recommended_indices.
  rewrite length_map. by rewrite Heq.
Qed.

(** Whatever the catalog and the matrix, a returned pair has two lists of
    one length: the loop appends to both or to none. *)
Lemma App2_for_entries_lengths movies net entries names posters w r w' :
  App2.for_entries movies net entries names posters w = (Ok r, w') →
  length names = length posters → length (fst r) = length (snd r).
Proof.
  revert names posters w.
  induction entries as [|e entries IH]; intros names posters w; simpl.
  - unfold ret. intros [= <- _]. done.
  - unfold bind at 1, lift at 1. destruct (getitem movies e.1) as [m|]; cbv beta iota; [|done].
    unfold bind at 1. rewrite App2_fetch_poster_eval.
    unfold bind at 1, lift at 1. cbv beta iota.
    intros Heq Hl. eapply IH; [exact Heq|].
    rewrite !length_app. simpl. lia.
Qed.

Lemma App_for_entries_lengths movies net entries names posters w r w' :
  App.for_entries movies net entries names posters w = (Ok r, w') →
  length names = length posters → length (fst r) = length (snd r).
Proof.
  revert names posters w.
  induction entries as [|e entries IH]; intros names posters w; simpl.
  - unfold ret. intros [= <- _]. done.
  - unfold bind at 1, lift at 1. destruct (getitem movies e.1) as [m|]; cbv beta iota; [|done].
    unfold bind at 1. rewrite App_fetch_poster_eval.
    unfold bind at 1, lift at 1. cbv beta iota.
    intros Heq Hl. eapply IH; [exact Heq|].
    rewrite !length_app. simpl. lia.
Qed.

Lemma App2_recommend_lengths movies similarity net t w r w' :
  App2.recommend movies similarity net t w = (Ok r, w') →
  length (fst r) = length (snd r).
Proof.
  unfold App2.recommend.
  unfold bind at 1, lift at 1. destruct (title_index movies t); cbv beta iota; [|done].
  unfold bind at 1, lift at 1. destruct (getitem similarity a); cbv beta iota; [|done].
  intros H. by eapply App2_for_entries_lengths.
Qed.

Lemma App_recommend_movies_lengths movies similarity net t w r w' :
  App.recommend_movies movies similarity net t w = (Ok r, w') →
  length (fst r) = length (snd r).
Proof.
  unfold App.recommend_movies.
  unfold bind at 1, lift at 1. destruct (title_index movies t); cbv beta iota; [|done].
  unfold bind at 1, lift at 1. destruct (getitem similarity a); cbv beta iota; [|done].
  intros H. by eapply App_for_entries_lengths.
Qed.

(** ** The fetch function of app3.py *)

Lemma App3_handler_eval e w :
  App3.handler e w = (Ok App3.placeholder_error, w).
Proof. unfold App3.handler. by destruct e. Qed.

(** The response a request was answered with, if it was answered. *)
Definition answered (o : http_outcome) : option response :=
  match o with
  | NoResponse _ => None
  | Response s b | ResponseRetryAfter s _ b => Some (mkResponse s b)
  end.

(** The pauses of the retry loop move the clock forward, or not at all,
    and leave the network log and the cache alone. *)
Lemma sleep_backoff_effect r errs w :
  ∃ w', App3.sleep_backoff r errs w = (Ok tt, w')
    ∧ net_log w' = net_log w ∧ poster_cache w' = poster_cache w
    ∧ clock w <= clock w'.
Proof.
  unfold App3.sleep_backoff.
  destruct (App3.get_backoff_time r errs <=? 0) eqn:E.
  - exists w. unfold ret. repeat split; lia.
  - apply Z.leb_gt in E. eexists. unfold sleep. split; [reflexivity|].
    simpl. repeat split; lia.
Qed.

Lemma retry_sleep_effect r retry_after errs w :
  ∃ w', App3.retry_sleep r retry_after errs w = (Ok tt, w')
    ∧ net_log w' = net_log w ∧ poster_cache w' = poster_cache w
    ∧ clock w <= clock w'.
Proof.
  unfold App3.retry_sleep, App3.sleep_for_retry.
  destruct retry_after as [seconds|].
  - destruct (App3.parse_retry_after seconds =? 0) eqn:E.
    + unfold bind, ret. apply sleep_backoff_effect.
    + apply Z.eqb_neq in E.
      assert (0 <= App3.parse_retry_after seconds).
      { unfold App3.parse_retry_after.
        destruct (seconds <? 0) eqn:E'; [done|]. by apply Z.ltb_ge in E'. }
      eexists. unfold bind, sleep, ret. split; [reflexivity|].
      simpl. repeat split; lia.
  - unfold bind, ret. apply sleep_backoff_effect.
Qed.

(** A call through the session sends at least one request, leaves the
    cache alone, and either hands back an answer of the endpoint, or
    raises a [RequestException]. *)
Lemma session_get_shape r k errs net url w :
  ∃ res w',
    App3.session_get r k errs net url w = (res, w')
    ∧ poster_cache w' = poster_cache w
    ∧ (length (net_log w) < length (net_log w'))%nat
    ∧ match res with
      | Ok resp => ∃ n, answered (net n url) = Some resp
      | Raise e => is_RequestException e = true
      end.
Proof.
  revert errs w. induction k as [|k IH]; intros errs w; simpl;
    unfold bind at 1, send at 1; cbv beta iota;
    destruct (net (length (net_log w)) url) as [e|s b|s ra b] eqn:E.
  - eexists _, _. split; [reflexivity|]. simpl. rewrite length_app. simpl.
    repeat split; [lia|by destruct e].
  - destruct (App3.is_retry r 0 "GET" s false) eqn:Er.
    + eexists _, _. split; [reflexivity|]. simpl. rewrite length_app. simpl.
      repeat split; lia.
    + eexists _, _. split; [reflexivity|]. simpl. rewrite length_app. simpl.
      repeat split; [lia|]. exists (length (net_log w)). by rewrite E.
  - destruct (App3.is_retry r 0 "GET" s true) eqn:Er.
    + eexists _, _. split; [reflexivity|]. simpl. rewrite length_app. simpl.
      repeat split; lia.
    + eexists _, _. split; [reflexivity|]. simpl. rewrite length_app. simpl.
      repeat split; [lia|]. exists (length (net_log w)). by rewrite E.
  - unfold bind at 1.
    edestruct (sleep_backoff_effect r (S errs)) as (w1 & -> & Hn1 & Hc1 & _).
    edestruct (IH (S errs) w1) as (res & w' & -> & Hc & Hlog & Hres).
    exists res, w'. rewrite Hn1, Hc1 in *. simpl in *.
    rewrite length_app in Hlog. simpl in Hlog.
    repeat split; [done|lia|done].
  - destruct (App3.is_retry r (S k) "GET" s false) eqn:Er.
    + unfold bind at 1.
      edestruct (retry_sleep_effect r None (S errs)) as (w1 & -> & Hn1 & Hc1 & _).
      edestruct (IH (S errs) w1) as (res & w' & -> & Hc & Hlog & Hres).
      exists res, w'. rewrite Hn1, Hc1 in *. simpl in *.
      rewrite length_app in Hlog. simpl in Hlog.
      repeat split; [done|lia|done].
    + eexists _, _. split; [reflexivity|]. simpl. rewrite length_app. simpl.
      repeat split; [lia|]. exists (length (net_log w)). by rewrite E.
  - destruct (App3.is_retry r (S k) "GET" s true) eqn:Er.
    + unfold bind at 1.
      edestruct (retry_sleep_effect r (Some ra) (S errs))
        as (w1 & -> & Hn1 & Hc1 & _).
      edestruct (IH (S errs) w1) as (res & w' & -> & Hc & Hlog & Hres).
      exists res, w'. rewrite Hn1, Hc1 in *. simpl in *.
      rewrite length_app in Hlog. simpl in Hlog.
      repeat split; [done|lia|done].
    + eexists _, _. split; [reflexivity|]. simpl. rewrite length_app. simpl.
      repeat split; [lia|]. exists (length (net_log w)). by rewrite E.
Qed.

(** The status of an answer, if the request was answered. *)
Definition status_of (o : http_outcome) : option Z :=
  status_code <$> answered o.

(** Against an endpoint that answers every request with a status of the
    force list, with or without a Retry-After header, the session uses up
    its retries: one request more than retries left, then [RetryError]. *)
Lemma session_get_exhaust r net url k errs w :
  (∀ n, ∃ resp, answered (net n url) = Some resp
          ∧ status_code resp ∈ App3.status_forcelist r) →
  "GET" ∈ App3.allowed_methods r →
  ∃ w', App3.session_get r k errs net url w = (Raise RetryError, w')
    ∧ net_log w' = net_log w ++ replicate (S k) url
    ∧ poster_cache w' = poster_cache w.
Proof.
  intros Hnet Hget.
  assert (Hre : ∀ n s h, s ∈ App3.status_forcelist r →
            App3.is_retry r n "GET" s h = true).
  { intros n s h Hs. unfold App3.is_retry.
    rewrite (bool_decide_eq_true_2 _ Hget), (bool_decide_eq_true_2 _ Hs). done. }
  revert errs w. induction k as [|k IH]; intros errs w; simpl;
    unfold bind at 1, send at 1; cbv beta iota;
    destruct (Hnet (length (net_log w))) as (resp & Ha & Hs);
    destruct (net (length (net_log w)) url) as [e|s b|s ra b];
    try done; injection Ha as <-; simpl in Hs; rewrite (Hre _ _ _ Hs).
  - eexists. split; [reflexivity|]. done.
  - eexists. split; [reflexivity|]. done.
  - unfold bind at 1.
    edestruct (retry_sleep_effect r None (S errs)) as (w1 & -> & Hn1 & Hc1 & _).
    edestruct (IH (S errs) w1) as (w' & -> & Hlog & Hc).
    exists w'. split; [done|]. rewrite Hlog, Hc, Hn1, Hc1. simpl.
    by rewrite <- app_assoc.
  - unfold bind at 1.
    edestruct (retry_sleep_effect r (Some ra) (S errs))
      as (w1 & -> & Hn1 & Hc1 & _).
    edestruct (IH (S errs) w1) as (w' & -> & Hlog & Hc).
    exists w'. split; [done|]. rewrite Hlog, Hc, Hn1, Hc1. simpl.
    by rewrite <- app_assoc.
Qed.

(** What the body of [fetch_poster_robust_cached] makes of the response
    the session hands back. *)
Definition robust_answer (resp : response) : string :=
  if (400 <=? status_code resp) && (status_code resp <? 600)
  then App3.placeholder_error
  else match content resp with
       | JSONDict fields =>
           let poster_path := dict_get fields "poster_path" in
           if truthy poster_path
           then fstring image_host poster_path
           else App3.placeholder_no_poster
       | NotJSON | JSONOther => App3.placeholder_error
       end.

Definition robust_url (movie_tmdb_id : Z) : string :=
  api_url "8c9ed4a92c476df16b161ba03d1e0430" movie_tmdb_id.

Lemma fetch_poster_body_eval net movie_tmdb_id w :
  App3.fetch_poster_body net movie_tmdb_id w
  = match App3.session_get App3.retry_strategy 3 0 net
            (robust_url movie_tmdb_id) w with
    | (Ok resp, w') => (Ok (robust_answer resp), w')
    | (Raise e, w') => (Ok App3.placeholder_error, w')
    end.
Proof.
  unfold App3.fetch_poster_body, try_except. unfold bind at 1.
  change (App3.total App3.retry_strategy) with 3%nat.
  fold (robust_url movie_tmdb_id).
  destruct (App3.session_get App3.retry_strategy 3 0 net
              (robust_url movie_tmdb_id) w) as [[resp|e] w'];
    [|apply App3_handler_eval].
  unfold robust_answer, bind, raise_for_status, json_get, raise, ret.
  destruct ((400 <=? status_code resp) && (status_code resp <? 600));
    [apply App3_handler_eval|].
  destruct (content resp) as [|fields|]; try apply App3_handler_eval.
  by destruct (truthy (dict_get fields "poster_path")).
Qed.

(** The body always returns a URL, after at least one request, and does
    not touch the cache. *)
Lemma fetch_poster_body_total net movie_tmdb_id w :
  ∃ url w',
    App3.fetch_poster_body net movie_tmdb_id w = (Ok url, w')
    ∧ poster_cache w' = poster_cache w
    ∧ (length (net_log w) < length (net_log w'))%nat.
Proof.
  rewrite fetch_poster_body_eval.
  destruct (session_get_shape App3.retry_strategy 3 0 net
              (robust_url movie_tmdb_id) w) as (res & w' & -> & Hc & Hlog & _).
  destruct res; eauto.
Qed.

(** If every answer of the endpoint is a failure, the body returns the
    error placeholder. *)
Lemma fetch_poster_body_failure net movie_tmdb_id w :
  (∀ n, failure (net n (robust_url movie_tmdb_id)) = true) →
  ∃ w', App3.fetch_poster_body net movie_tmdb_id w
        = (Ok App3.placeholder_error, w').
Proof.
  intros Hfail. rewrite fetch_poster_body_eval.
  destruct (session_get_shape App3.retry_strategy 3 0 net
              (robust_url movie_tmdb_id) w) as (res & w' & -> & _ & _ & Hres).
  destruct res as [resp|e]; [|eauto].
  destruct Hres as [n Hn]. specialize (Hfail n).
  exists w'. unfold robust_answer.
  destruct (net n (robust_url movie_tmdb_id)) as [e|s b|s ra b]; [done| |];
    injection Hn as <-; simpl in *.
  all: destruct ((400 <=? s) && (s <? 600)); [done|].
  all: simpl in Hfail; by destruct b.
Qed.

(** A cache entry younger than the TTL answers the call; the world is
    left as it was. *)
Lemma fetch_cached_hit net movie_tmdb_id w url stored :
  poster_cache w !! movie_tmdb_id = Some (url, stored) →
  clock w < stored + App3.ttl →
  App3.fetch_poster_robust_cached net movie_tmdb_id w = (Ok url, w).
Proof.
  intros Hc Hfresh. unfold App3.fetch_poster_robust_cached, App3.cache_data.
  rewrite Hc. destruct (clock w <? stored + App3.ttl) eqn:E; [done|].
  apply Z.ltb_ge in E. lia.
Qed.

Definition stale (w : world) (movie_tmdb_id : Z) : Prop :=
  match poster_cache w !! movie_tmdb_id with
  | Some (_, stored) => stored + App3.ttl <= clock w
  | None => True
  end.

(** Without such an entry the body runs and what it returns is stored
    under the id with the time of storing. *)
Lemma fetch_cached_miss net movie_tmdb_id w :
  stale w movie_tmdb_id →
  ∃ url w',
    App3.fetch_poster_body net movie_tmdb_id w = (Ok url, w')
    ∧ App3.fetch_poster_robust_cached net movie_tmdb_id w
      = (Ok url,
         mkWorld (clock w') (net_log w') (sleep_log w')
                 (<[movie_tmdb_id := (url, clock w')]> (poster_cache w')))
    ∧ (length (net_log w) < length (net_log w'))%nat.
Proof.
  intros Hstale.
  destruct (fetch_poster_body_total net movie_tmdb_id w)
    as (url & w' & Hbody & _ & Hlog).
  exists url, w'. split; [done|]. split; [|done].
  unfold App3.fetch_poster_robust_cached, App3.cache_data. rewrite Hbody.
  unfold stale in Hstale.
  destruct (poster_cache w !! movie_tmdb_id) as [[u stored]|]; [|done].
  destruct (clock w <? stored + App3.ttl) eqn:E; [|done].
  apply Z.ltb_lt in E. lia.
Qed.

Lemma stale_dec w movie_tmdb_id :
  stale w movie_tmdb_id
  ∨ ∃ url stored, poster_cache w !! movie_tmdb_id = Some (url, stored)
                  ∧ clock w < stored + App3.ttl.
Proof.
  unfold stale. destruct (poster_cache w !! movie_tmdb_id) as [[u stored]|];
    [|by left].
  destruct (decide (clock w < stored + App3.ttl)); [right; eauto|left; lia].
Qed.

(** The cached fetch never raises. *)
Lemma fetch_cached_total net movie_tmdb_id w :
  ∃ url w', App3.fetch_poster_robust_cached net movie_tmdb_id w = (Ok url, w').
Proof.
  destruct (stale_dec w movie_tmdb_id) as [Hs|(url & stored & Hc & Hf)].
  - destruct (fetch_cached_miss net movie_tmdb_id w Hs) as (url & w' & _ & -> & _).
    eauto.
  - rewrite (fetch_cached_hit _ _ _ _ _ Hc Hf). eauto.
Qed.

(** ** The batch of app3.py *)

(** The records [prepare] builds, numbered from [i]. *)
Fixpoint infos_from (movies : list movie) (i : nat) (entries : list (nat * Q))
    : list App3.movie_info :=
  match entries with
  | [] => []
  | e :: rest =>
      match movies !! fst e with
      | Some m =>
          App3.mkInfo (row_id m) (row_title m) i :: infos_from movies (S i) rest
      | None => infos_from movies (S i) rest
      end
  end.

Lemma prepare_eval movies i entries data :
  App3.prepare movies i entries data = Ok (data ++ infos_from movies i entries).
Proof.
  revert i data. induction entries as [|[idx s] rest IH]; intros i data; simpl.
  - by rewrite app_nil_r.
  - destruct (idx <? length movies)%nat eqn:E.
    + apply Nat.ltb_lt in E. apply lookup_lt_is_Some in E as [m Hm].
      unfold getitem. rewrite Hm. rewrite IH. by rewrite <- app_assoc.
    + apply Nat.ltb_ge in E. apply lookup_ge_None in E. rewrite E. apply IH.
Qed.

(** Every record sits at the position its [original_order] names. *)
Definition in_order (data : list App3.movie_info) : Prop :=
  ∀ k info, data !! k = Some info → App3.original_order info = k.

Lemma infos_from_lookup movies i entries k e m :
  Forall (fun e => (fst e < length movies)%nat) entries →
  entries !! k = Some e → movies !! fst e = Some m →
  infos_from movies i entries !! k
  = Some (App3.mkInfo (row_id m) (row_title m) (i + k)).
Proof.
  intros Hall. revert i k.
  induction Hall as [|e0 entries He _ IH]; intros i k Hk Hm; [done|].
  simpl. destruct k as [|k]; simpl in *.
  - injection Hk as ->. rewrite Hm. simpl. by rewrite Nat.add_0_r.
  - apply lookup_lt_is_Some in He as [m0 ->]. simpl.
    rewrite (IH (S i) k Hk Hm).
    by replace (S i + k)%nat with (i + S k)%nat by lia.
Qed.

Lemma length_infos_from movies i entries :
  Forall (fun e => (fst e < length movies)%nat) entries →
  length (infos_from movies i entries) = length entries.
Proof.
  intros Hall. revert i. induction Hall as [|e entries He _ IH]; intros i; [done|].
  simpl. apply lookup_lt_is_Some in He as [m ->]. simpl. by rewrite IH.
Qed.

Lemma infos_from_in_order movies entries :
  Forall (fun e => (fst e < length movies)%nat) entries →
  in_order (infos_from movies 0 entries).
Proof.
  intros Hall k info Hk.
  assert (Hlt : (k < length entries)%nat).
  { rewrite <- (length_infos_from movies 0 entries Hall).
    by eapply lookup_lt_Some. }
  apply lookup_lt_is_Some in Hlt as [e He].
  assert (Hm : is_Some (movies !! fst e)).
  { apply lookup_lt_is_Some. rewrite Forall_forall in Hall. apply Hall.
    apply list_elem_of_lookup. eauto. }
  destruct Hm as [m Hm].
  rewrite (infos_from_lookup movies 0 entries k e m Hall He Hm) in Hk.
  injection Hk as <-. done.
Qed.

Lemma run_pool_keeps job data completion fs w j :
  is_Some (fs !! j) →
  is_Some ((App3.run_pool job data completion fs w).1 !! j).
Proof.
  revert fs w. induction completion as [|i rest IH]; intros fs w Hj; simpl; [done|].
  destruct (data !! i) as [info|]; [|by apply IH].
  destruct (job (App3.tmdb_id info) w) as [r w']. apply IH.
  destruct (decide (i = j)) as [->|Hne].
  - rewrite lookup_insert_eq. eauto.
  - by rewrite lookup_insert_ne.
Qed.

(** Every future of the completion list is done when the pool is. *)
Lemma run_pool_done job data completion fs w j :
  j ∈ completion → is_Some (data !! j) →
  is_Some ((App3.run_pool job data completion fs w).1 !! j).
Proof.
  revert fs w. induction completion as [|i rest IH]; intros fs w Hin Hd; simpl.
  - by apply elem_of_nil in Hin.
  - destruct (decide (i = j)) as [->|Hne].
    + destruct Hd as [info ->].
      destruct (job (App3.tmdb_id info) w) as [r w'].
      apply run_pool_keeps. rewrite lookup_insert_eq. eauto.
    + apply elem_of_cons in Hin as [?|Hin]; [congruence|].
      destruct (data !! i) as [info|]; [|by apply IH].
      destruct (job (App3.tmdb_id info) w) as [r w']. by apply IH.
Qed.

(** After the loop over the finished futures, an id that some finished
    future was submitted for is mapped to that future's URL and title; any
    other id is mapped as before. *)
Lemma as_completed_loop_spec data fs completion pm0 tm0 id :
  (∀ j, j ∈ completion → is_Some (data !! j) → is_Some (fs !! j)) →
  let pm := (App3.as_completed_loop data fs completion pm0 tm0).1 in
  let tm := (App3.as_completed_loop data fs completion pm0 tm0).2 in
  (∃ j info r, j ∈ completion ∧ data !! j = Some info
               ∧ App3.tmdb_id info = id ∧ fs !! j = Some r
               ∧ pm !! id = Some (resolved r)
               ∧ tm !! id = Some (App3.title info))
  ∨ ((∀ j info, j ∈ completion → data !! j = Some info → App3.tmdb_id info ≠ id)
     ∧ pm !! id = pm0 !! id ∧ tm !! id = tm0 !! id).
Proof.
  revert pm0 tm0. induction completion as [|i rest IH]; intros pm0 tm0 Hfs; simpl.
  - right. split; [|done]. intros j info Hj. by apply elem_of_nil in Hj.
  - assert (Hrest : ∀ j, j ∈ rest → is_Some (data !! j) → is_Some (fs !! j)).
    { intros j Hj. apply Hfs. by right. }
    destruct (data !! i) as [info|] eqn:Ed.
    + destruct (Hfs i) as [r Hr]; [by left|eauto|]. rewrite Hr.
      assert (Hstep :
        App3.as_completed_loop data fs rest
          (<[App3.tmdb_id info := resolved r]> pm0)
          (<[App3.tmdb_id info := App3.title info]> tm0)
        = match r with
          | Ok poster_url =>
              App3.as_completed_loop data fs rest
                (<[App3.tmdb_id info := poster_url]> pm0)
                (<[App3.tmdb_id info := App3.title info]> tm0)
          | Raise _ =>
              App3.as_completed_loop data fs rest
                (<[App3.tmdb_id info :=
                   "https://via.placeholder.com/500x750.png?text=Error+Processing"]>
                   pm0)
                (<[App3.tmdb_id info := App3.title info]> tm0)
          end) by (by destruct r).
      rewrite <- Hstep. clear Hstep.
      destruct (IH (<[App3.tmdb_id info := resolved r]> pm0)
                   (<[App3.tmdb_id info := App3.title info]> tm0) Hrest)
        as [(j & info' & r' & Hj & Hd & Hid & Hf & Hp & Ht)|(Hnone & Hp & Ht)].
      * left. exists j, info', r'. repeat split; try done. by right.
      * destruct (decide (App3.tmdb_id info = id)) as [Heq|Hne].
        -- left. exists i, info, r. rewrite Hp, Ht, Heq, !lookup_insert_eq.
           repeat split; try done. by left.
        -- right. rewrite Hp, Ht, !lookup_insert_ne by done.
           split; [|done]. intros j info' Hj Hd.
           apply elem_of_cons in Hj as [->|Hj]; [congruence|eauto].
    + destruct (IH pm0 tm0 Hrest)
        as [(j & info' & r' & Hj & Hd & Hid & Hf & Hp & Ht)|(Hnone & Hp & Ht)].
      * left. exists j, info', r'. repeat split; try done. by right.
      * right. split; [|done]. intros j info' Hj Hd.
        apply elem_of_cons in Hj as [->|Hj]; [congruence|eauto].
Qed.

Definition title_for (tm : gmap Z string) (info : App3.movie_info) : string :=
  default "Title Not Found" (tm !! App3.tmdb_id info).

Definition poster_for (pm : gmap Z string) (info : App3.movie_info) : string :=
  default "https://via.placeholder.com/500x750.png?text=Poster+Not+Found"
          (pm !! App3.tmdb_id info).

(** The reassembly writes every record's title and poster at the record's
    [original_order], and nothing else. *)
Lemma reorder_spec todo pm tm ts0 ps0 :
  length ps0 = length ts0 →
  Forall (fun info => (App3.original_order info < length ts0)%nat) todo →
  NoDup (map App3.original_order todo) →
  ∃ ts ps,
    App3.reorder todo pm tm ts0 ps0 = Ok (ts, ps)
    ∧ length ts = length ts0 ∧ length ps = length ts0
    ∧ (∀ info, info ∈ todo →
         ts !! App3.original_order info = Some (Some (title_for tm info))
         ∧ ps !! App3.original_order info = Some (Some (poster_for pm info)))
    ∧ (∀ k, k ∉ map App3.original_order todo →
         ts !! k = ts0 !! k ∧ ps !! k = ps0 !! k).
Proof.
  intros Hlen Hall. revert ts0 ps0 Hlen Hall.
  induction todo as [|info rest IH]; intros ts0 ps0 Hlen Hall Hnd; simpl.
  - exists ts0, ps0. split; [done|]. split; [done|]. split; [done|].
    split; [|done]. intros info Hin. by apply elem_of_nil in Hin.
  - inversion Hall as [|? ? Ho Hall']; subst.
    apply NoDup_cons in Hnd as [Hfresh Hnd].
    unfold App3.setitem.
    assert (E1 : (App3.original_order info <? length ts0)%nat = true)
      by (by apply Nat.ltb_lt).
    assert (E2 : (App3.original_order info <? length ps0)%nat = true)
      by (apply Nat.ltb_lt; lia).
    rewrite E1, E2.
    fold (title_for tm info). fold (poster_for pm info).
    destruct (IH (<[App3.original_order info := Some (title_for tm info)]> ts0)
                 (<[App3.original_order info := Some (poster_for pm info)]> ps0))
      as (ts & ps & Heq & Hlts & Hlps & Hset & Hkeep).
    { by rewrite !length_insert. }
    { by rewrite length_insert. }
    { done. }
    exists ts, ps. rewrite length_insert in Hlts, Hlps.
    split; [done|]. split; [done|]. split; [done|]. split.
    + intros info' Hin.
      apply elem_of_cons in Hin as [->|Hin]; [|by apply Hset].
      destruct (Hkeep _ Hfresh) as [-> ->]. split.
      * by apply list_lookup_insert_eq.
      * apply list_lookup_insert_eq. lia.
    + intros k Hk.
      assert (Hne : App3.original_order info ≠ k).
      { intros <-. apply Hk. by left. }
      destruct (Hkeep k) as [-> ->].
      { intros Hk'. apply Hk. by right. }
      split; by apply list_lookup_insert_ne.
Qed.

Lemma in_order_orders data :
  in_order data → map App3.original_order data = seq 0 (length data).
Proof.
  intros Hord. apply list_eq. intros k.
  rewrite list_lookup_fmap.
  destruct (data !! k) as [info|] eqn:E; simpl.
  - rewrite (Hord k info E). symmetry. apply lookup_seq. split; [done|].
    by eapply lookup_lt_Some.
  - symmetry. apply lookup_ge_None. rewrite length_seq.
    by apply lookup_ge_None.
Qed.

(** Lines 109-145 for any job and any completion order: the pair comes
    back, both lists are as long as the input, and position i holds the
    title and the URL of a future submitted for the id at position i. *)
Lemma fetch_all_spec job completion data w :
  in_order data →
  completion ≡ₚ seq 0 (length data) →
  ∃ ts ps,
    App3.fetch_all job completion data w
    = (Ok (ts, ps), (App3.run_pool job data completion ∅ w).2)
    ∧ length ts = length data ∧ length ps = length data
    ∧ ∀ i info, data !! i = Some info →
        ∃ j info' r,
          data !! j = Some info'
          ∧ App3.tmdb_id info' = App3.tmdb_id info
          ∧ (App3.run_pool job data completion ∅ w).1 !! j = Some r
          ∧ ts !! i = Some (Some (App3.title info'))
          ∧ ps !! i = Some (Some (resolved r)).
Proof.
  intros Hord Hperm. unfold App3.fetch_all.
  destruct (App3.run_pool job data completion ∅ w) as [fs w'] eqn:Epool.
  assert (Hdone : ∀ j, j ∈ completion → is_Some (data !! j) → is_Some (fs !! j)).
  { intros j Hj Hd.
    pose proof (run_pool_done job data completion ∅ w j Hj Hd) as H.
    by rewrite Epool in H. }
  destruct (App3.as_completed_loop data fs completion ∅ ∅) as [pm tm] eqn:Eloop.
  destruct (reorder_spec data pm tm (replicate (length data) None)
              (replicate (length data) None))
    as (ts & ps & Heq & Hlts & Hlps & Hset & _).
  { done. }
  { rewrite length_replicate. apply Forall_forall. intros info Hin.
    apply list_elem_of_lookup in Hin as [k Hk].
    rewrite (Hord k info Hk). by eapply lookup_lt_Some. }
  { rewrite (in_order_orders data Hord). apply NoDup_seq. }
  rewrite length_replicate in Hlts, Hlps.
  exists ts, ps. simpl. split; [by rewrite Heq|]. split; [done|]. split; [done|].
  intros i info Hi.
  destruct (Hset info) as [Hts Hps].
  { apply list_elem_of_lookup. eauto. }
  rewrite (Hord i info Hi) in Hts, Hps.
  pose proof (as_completed_loop_spec data fs completion ∅ ∅
                (App3.tmdb_id info) Hdone) as Hloop.
  rewrite Eloop in Hloop. simpl in Hloop.
  destruct Hloop as [(j & info' & r & Hj & Hd & Hid & Hf & Hp & Ht)|(Hnone & _)].
  - exists j, info', r. unfold title_for in Hts. unfold poster_for in Hps.
    rewrite Ht in Hts. rewrite Hp in Hps. done.
  - exfalso. apply (Hnone i info); [|done|done].
    rewrite Hperm. apply elem_of_seq. split; [lia|].
    simpl. by eapply lookup_lt_Some.
Qed.

Lemma fetch_all_returns job completion data w :
  in_order data →
  ∃ ts ps w',
    App3.fetch_all job completion data w = (Ok (ts, ps), w')
    ∧ length ts = length data ∧ length ps = length data.
Proof.
  intros Hord. unfold App3.fetch_all.
  destruct (App3.run_pool job data completion ∅ w) as [fs w'].
  destruct (App3.as_completed_loop data fs completion ∅ ∅) as [pm tm].
  destruct (reorder_spec data pm tm (replicate (length data) None)
              (replicate (length data) None))
    as (ts & ps & Heq & Hlts & Hlps & _).
  { done. }
  { rewrite length_replicate. apply Forall_forall. intros info Hin.
    apply list_elem_of_lookup in Hin as [k Hk].
    rewrite (Hord k info Hk). by eapply lookup_lt_Some. }
  { rewrite (in_order_orders data Hord). apply NoDup_seq. }
  rewrite length_replicate in Hlts, Hlps.
  exists ts, ps, w'. by rewrite Heq.
Qed.

Lemma App3_recommend_eval movies similarity net completion t w q row :
  title_index movies t = Ok q →
  similarity !! q = Some row →
  App3.recommend_movies_final movies similarity net completion t w
  = match infos_from movies 0 (slice_1_6 (sorted_reverse (enumerate row))) with
    | [] => (Ok ([], []), w)
    | data =>
        App3.fetch_all (App3.fetch_poster_robust_cached net) completion data w
    end.
Proof.
  intros Ht Hrow. unfold App3.recommend_movies_final. rewrite Ht.
  unfold bind at 1, lift at 1, getitem at 1. rewrite Hrow.
  unfold bind at 1, lift at 1. rewrite prepare_eval. simpl.
  by destruct (infos_from movies 0 (slice_1_6 (sorted_reverse (enumerate row)))).
Qed.

Lemma App3_recommend_returns movies similarity net completion t w q row :
  title_index movies t = Ok q →
  similarity !! q = Some row →
  (length row ≤ length movies)%nat →
  ∃ ts ps w',
    App3.recommend_movies_final movies similarity net completion t w
    = (Ok (ts, ps), w')
    ∧ length ts = length (recommended_indices row)
    ∧ length ps = length (recommended_indices row).
Proof.
  intros Ht Hrow Hlen.
  rewrite (App3_recommend_eval movies similarity net completion t w q row Ht Hrow).
  assert (Hvalid : Forall (fun e => (fst e < length movies)%nat)
                     (slice_1_6 (sorted_reverse (enumerate row)))).
  { eapply Forall_impl; [apply slice_entries_bound|]. simpl. intros; lia. }
  pose proof (length_infos_from movies 0 _ Hvalid) as Hl.
  pose proof (infos_from_in_order movies _ Hvalid) as Hord.
  unfold recommended_indices. rewrite length_map, <- Hl.
  destruct (infos_from movies 0 (slice_1_6 (sorted_reverse (enumerate row))))
    as [|info data] eqn:E.
  - by exists [], [], w.
  - apply fetch_all_returns. exact Hord.
Qed.

Lemma titles_at_lookup movies idxs k i m :
  Forall (fun i => (i < length movies)%nat) idxs →
  idxs !! k = Some i → movies !! i = Some m →
  titles_at movies idxs !! k = Some (row_title m).
Proof.
  intros Hall. revert k.
  induction Hall as [|i0 idxs Hi _ IH]; intros k Hk Hm; [done|].
  unfold titles_at in *. simpl.
  apply lookup_lt_is_Some in Hi as [m0 Hm0]. rewrite Hm0. simpl.
  destruct k as [|k]; simpl in *.
  - injection Hk as ->. congruence.
  - by apply IH.
Qed.

Lemma reorder_lengths todo pm tm ts0 ps0 ts ps :
  App3.reorder todo pm tm ts0 ps0 = Ok (ts, ps) →
  length ts = length ts0 ∧ length ps = length ps0.
Proof.
  revert ts0 ps0. induction todo as [|info rest IH]; intros ts0 ps0; simpl.
  - by intros [= <- <-].
  - unfold App3.setitem.
    destruct (App3.original_order info <? length ts0)%nat; [|done].
    destruct (App3.original_order info <? length ps0)%nat; [|done].
    intros H. apply IH in H. by rewrite !length_insert in H.
Qed.

Lemma App3_recommend_lengths movies similarity net completion t w r w' :
  App3.recommend_movies_final movies similarity net completion t w = (Ok r, w') →
  length r.1 = length r.2.
Proof.
  unfold App3.recommend_movies_final.
  destruct (title_index movies t) as [q|e].
  - unfold bind at 1, lift at 1. destruct (getitem similarity q) as [row|];
      cbv beta iota; [|done].
    unfold bind at 1, lift at 1. rewrite prepare_eval. simpl.
    destruct (infos_from movies 0 (slice_1_6 (sorted_reverse (enumerate row))))
      as [|info data].
    + by intros [= <- _].
    + generalize (info :: data). intros todo. unfold App3.fetch_all.
      destruct (App3.run_pool _ _ _ _ _) as [fs w2].
      destruct (App3.as_completed_loop _ _ _ _ _) as [pm tm].
      destruct r as [ts ps]. intros [= H _].
      apply reorder_lengths in H as [H1 H2]. simpl.
      by rewrite H1, H2, !length_replicate.
  - destruct (is_IndexError e); [by intros [= <- _]|done].
Qed.

Lemma infos_from_titles movies i entries :
  map App3.title (infos_from movies i entries)
  = titles_at movies (map fst entries).
Proof.
  revert i. induction entries as [|e rest IH]; intros i; [done|].
  unfold titles_at in *. simpl.
  destruct (movies !! fst e) as [m|]; simpl; by rewrite IH.
Qed.

Lemma infos_from_ids movies i entries id :
  id ∈ map App3.tmdb_id (infos_from movies i entries) →
  ∃ e m, e ∈ entries ∧ movies !! fst e = Some m ∧ row_id m = id.
Proof.
  revert i. induction entries as [|e rest IH]; intros i; simpl.
  - intros H. by apply elem_of_nil in H.
  - destruct (movies !! fst e) as [m|] eqn:Em; simpl.
    + intros H. apply elem_of_cons in H as [->|H].
      * exists e, m. split; [left|done].
      * destruct (IH _ H) as (e' & m' & He' & Hm' & Hid).
        exists e', m'. split; [by right|done].
    + intros H. destruct (IH _ H) as (e' & m' & He' & Hm' & Hid).
      exists e', m'. split; [by right|done].
Qed.

(** Distinct ids in the catalog and distinct positions give distinct ids
    to fetch. *)
Lemma infos_from_ids_NoDup movies i entries :
  NoDup (map row_id movies) →
  NoDup (map fst entries) →
  NoDup (map App3.tmdb_id (infos_from movies i entries)).
Proof.
  intros Hids. revert i. induction entries as [|e rest IH]; intros i Hnd; simpl.
  - constructor.
  - simpl in Hnd. apply NoDup_cons in Hnd as [Hfresh Hnd].
    destruct (movies !! fst e) as [m|] eqn:Em; simpl; [|by apply IH].
    apply NoDup_cons. split; [|by apply IH].
    intros Hin. apply infos_from_ids in Hin as (e' & m' & He' & Hm' & Hid).
    assert (fst e' = fst e) as Heq.
    { eapply (NoDup_lookup (map row_id movies)); [done| |].
      - rewrite list_lookup_fmap, Hm'. simpl. by rewrite Hid.
      - by rewrite list_lookup_fmap, Em. }
    apply Hfresh. rewrite <- Heq. apply list_elem_of_fmap. eauto.
Qed.

Lemma slice_indices_NoDup (row : list Q) :
  NoDup (map fst (slice_1_6 (sorted_reverse (enumerate row)))).
Proof.
  unfold slice_1_6. rewrite fmap_take, fmap_drop.
  eapply sublist_NoDup; [|apply sublist_take].
  eapply sublist_NoDup; [|apply sublist_drop].
  apply sorted_indices_NoDup.
Qed.

(** With distinct ids the batch returns the titles of its input, in the
    order of its input. *)
Lemma fetch_all_titles job completion data w :
  in_order data →
  completion ≡ₚ seq 0 (length data) →
  NoDup (map App3.tmdb_id data) →
  ∃ posters w',
    App3.fetch_all job completion data w
    = (Ok (map (fun info => Some (App3.title info)) data, posters), w').
Proof.
  intros Hord Hperm Hnd.
  destruct (fetch_all_spec job completion data w Hord Hperm)
    as (ts & ps & Heq & Hlts & Hlps & Hpos).
  exists ps, (App3.run_pool job data completion ∅ w).2. rewrite Heq.
  do 3 f_equal. apply list_eq. intros i. rewrite list_lookup_fmap.
  destruct (data !! i) as [info|] eqn:Ei; simpl.
  - destruct (Hpos i info Ei) as (j & info' & r & Hj & Hid & _ & Ht & _).
    assert (j = i) as ->.
    { eapply (NoDup_lookup (map App3.tmdb_id data)); [done| |].
      - rewrite list_lookup_fmap, Hj. simpl. by rewrite Hid.
      - by rewrite list_lookup_fmap, Ei. }
    congruence.
  - apply lookup_ge_None. rewrite Hlts. by apply lookup_ge_None.
Qed.

(** The titles a result carries, or the exception raised instead. *)
Definition titles_of {A B} (x : result (A * B) * world) : result A :=
  match x.1 with
  | Ok r => Ok r.1
  | Raise e => Raise e
  end.

Lemma App2_for_entries_cons movies net e rest names posters w :
  App2.for_entries movies net (e :: rest) names posters w
  = match movies !! fst e with
    | Some m =>
        let url := api_url "b76bb27542ba7b7652281b79d2905180" (row_id m) in
        App2.for_entries movies net rest (names ++ [row_title m])
          (posters ++ [simple_answer "https://via.placeholder.com/500x750.png?text=No+Image"
                         (net (length (net_log w)) url)])
          (logged url w)
    | None => (Raise IndexError, w)
    end.
Proof.
  simpl. unfold bind at 1, lift at 1, getitem at 1.
  destruct (movies !! fst e) as [m|] eqn:Em; [|done].
  unfold bind at 1. rewrite App2_fetch_poster_eval.
  unfold bind at 1, lift at 1, getitem at 1. by rewrite Em.
Qed.

Lemma App2_for_entries_titles movies net1 net2 entries names p1 p2 w1 w2 :
  titles_of (App2.for_entries movies net1 entries names p1 w1)
  = titles_of (App2.for_entries movies net2 entries names p2 w2).
Proof.
  revert names p1 p2 w1 w2.
  induction entries as [|e rest IH]; intros names p1 p2 w1 w2; [done|].
  rewrite !App2_for_entries_cons.
  destruct (movies !! fst e) as [m|]; [apply IH|done].
Qed.

Lemma App_for_entries_cons movies net e rest names posters w :
  App.for_entries movies net (e :: rest) names posters w
  = match movies !! fst e with
    | Some m =>
        let url := api_url "b76bb27542ba7b7652281b79d2905180" (row_id m) in
        App.for_entries movies net rest (names ++ [row_title m])
          (posters ++ [simple_answer ("https://via.placeholder.com/500x750.png?text=" +:+ "No+Image")
                         (net (length (net_log w)) url)])
          (logged url w)
    | None => (Raise IndexError, w)
    end.
Proof.
  simpl. unfold bind at 1, lift at 1, getitem at 1.
  destruct (movies !! fst e) as [m|] eqn:Em; [|done].
  unfold bind at 1. rewrite App_fetch_poster_eval.
  unfold bind at 1, lift at 1, getitem at 1. by rewrite Em.
Qed.

Lemma App_for_entries_titles movies net1 net2 entries names p1 p2 w1 w2 :
  titles_of (App.for_entries movies net1 entries names p1 w1)
  = titles_of (App.for_entries movies net2 entries names p2 w2).
Proof.
  revert names p1 p2 w1 w2.
  induction entries as [|e rest IH]; intros names p1 p2 w1 w2; [done|].
  rewrite !App_for_entries_cons.
  destruct (movies !! fst e) as [m|]; [apply IH|done].
Qed.

(** The lookups of app.py and app2.py are not guarded: an unknown title
    ends them with [IndexError], before the matrix is looked at. *)
Lemma unguarded_lookup_raises movies similarity net t w :
  Forall (fun m => row_title m ≠ t) movies →
  App.recommend_movies movies similarity net t w = (Raise IndexError, w)
  ∧ App2.recommend movies similarity net t w = (Raise IndexError, w).
Proof.
  intros Hno. unfold App.recommend_movies, App2.recommend, bind, lift.
  by rewrite (title_index_unknown movies t Hno).
Qed.

(** * Sample data *)

(** The world at start-up: nothing requested, nothing cached. *)
Definition idle : world := mkWorld 0 [] [] ∅.

(** An endpoint that gives every request the same answer. *)
Definition steady (o : http_outcome) : endpoint := fun _ _ => o.

(** Row of A in the six-movie scenario: 1.0, .9, .2, .9, .5, .1. *)
Definition scenario_row : list Q :=
  [1; 9 # 10; 2 # 10; 9 # 10; 5 # 10; 1 # 10]%Q.

Definition six_movies : list movie :=
  [mkMovie 101 "A"; mkMovie 102 "B"; mkMovie 103 "C";
   mkMovie 104 "D"; mkMovie 105 "E"; mkMovie 106 "F"].

Definition six_matrix : list (list Q) :=
  [scenario_row;
   [9 # 10; 1; 3 # 10; 4 # 10; 2 # 10; 1 # 10];
   [2 # 10; 3 # 10; 1; 6 # 10; 1 # 10; 7 # 10];
   [9 # 10; 4 # 10; 6 # 10; 1; 3 # 10; 2 # 10];
   [5 # 10; 2 # 10; 1 # 10; 3 # 10; 1; 8 # 10];
   [1 # 10; 1 # 10; 7 # 10; 2 # 10; 8 # 10; 1]]%Q.

Lemma six_square : square six_movies six_matrix.
Proof. split; [reflexivity|]. repeat constructor. Qed.

(** Seven movies of which the first two have the same feature vector: B is
    as similar to A as to itself. *)
Definition seven_movies : list movie :=
  [mkMovie 201 "A"; mkMovie 202 "B"; mkMovie 203 "C"; mkMovie 204 "D";
   mkMovie 205 "E"; mkMovie 206 "F"; mkMovie 207 "G"].

Definition seven_matrix : list (list Q) :=
  [[1; 1; 5 # 10; 4 # 10; 3 # 10; 2 # 10; 1 # 10];
   [1; 1; 5 # 10; 4 # 10; 3 # 10; 2 # 10; 1 # 10];
   [5 # 10; 5 # 10; 1; 6 # 10; 2 # 10; 1 # 10; 3 # 10];
   [4 # 10; 4 # 10; 6 # 10; 1; 1 # 10; 3 # 10; 2 # 10];
   [3 # 10; 3 # 10; 2 # 10; 1 # 10; 1; 7 # 10; 4 # 10];
   [2 # 10; 2 # 10; 1 # 10; 3 # 10; 7 # 10; 1; 5 # 10];
   [1 # 10; 1 # 10; 3 # 10; 2 # 10; 4 # 10; 5 # 10; 1]]%Q.

Definition with_poster (path : string) : http_outcome :=
  Response 200 (JSONDict [("title", PyStr "A movie"); ("poster_path", PyStr path)]).

(** An endpoint that serves the first [k] requests of the process and
    answers 503 afterwards. *)
Definition serves_first (k : nat) (path : string) : endpoint :=
  fun n _ => if (n <? k)%nat then with_poster path else Response 503 NotJSON.

(** * The properties *)

(** ** C6 *)

(** C6: the row is sorted by descending score, entries of equal score in
    ascending index order, and the recommended titles are those of entries
    1 to 5 of the sorted row; in the six-movie scenario, whatever the ids,
    the other rows, the remote service and the world, the titles returned
    for A are B, D, E, C, F. *)
Theorem recommend_sorted_by_score :
  (∀ movies similarity net t w q row,
     title_index movies t = Ok q →
     similarity !! q = Some row →
     (length row ≤ length movies)%nat →
     let distances := sorted_reverse (enumerate row) in
     StronglySorted precedes distances
     ∧ distances ≡ₚ enumerate row
     ∧ (∃ posters w',
          App2.recommend movies similarity net t w
          = (Ok (titles_at movies (map fst (slice_1_6 distances)), posters), w'))
     ∧ (∃ posters w',
          App.recommend_movies movies similarity net t w
          = (Ok (titles_at movies (map fst (slice_1_6 distances)), posters), w')))
  ∧ (∀ ia ib ic id ie if_ rest net w,
       let movies := [mkMovie ia "A"; mkMovie ib "B"; mkMovie ic "C";
                      mkMovie id "D"; mkMovie ie "E"; mkMovie if_ "F"] in
       (∃ posters w',
          App2.recommend movies (scenario_row :: rest) net "A" w
          = (Ok (["B"; "D"; "E"; "C"; "F"], posters), w'))
       ∧ (∃ posters w',
            App.recommend_movies movies (scenario_row :: rest) net "A" w
            = (Ok (["B"; "D"; "E"; "C"; "F"], posters), w'))).
Proof.
  split.
  - intros movies similarity net t w q row Ht Hrow Hlen distances.
    destruct (sorted_reverse_spec row) as [Hs Hp].
    destruct (App2_recommend_eval movies similarity net t w q row Ht Hrow Hlen)
      as (w2 & H2 & _).
    destruct (App_recommend_movies_eval movies similarity net t w q row Ht Hrow Hlen)
      as (w1 & H1 & _).
    repeat split; try done; eauto.
  - intros ia ib ic id ie if_ rest net w movies. split.
    + destruct (App2_recommend_eval movies (scenario_row :: rest) net "A" w
                  0%nat scenario_row) as (w' & Heq & _); [done|done|simpl; lia|].
      eexists _, w'. exact Heq.
    + destruct (App_recommend_movies_eval movies (scenario_row :: rest) net "A" w
                  0%nat scenario_row) as (w' & Heq & _); [done|done|simpl; lia|].
      eexists _, w'. exact Heq.
Qed.

Lemma recommend_sorted_by_score_witness :
  title_index six_movies "C" = Ok 2%nat
  ∧ six_matrix !! 2%nat = Some [2 # 10; 3 # 10; 1; 6 # 10; 1 # 10; 7 # 10]%Q
  ∧ ∃ posters w',
      App2.recommend six_movies six_matrix (steady (with_poster "/x.jpg")) "C" idle
      = (Ok (["F"; "D"; "B"; "A"; "E"], posters), w').
Proof.
  split; [reflexivity|]. split; [reflexivity|].
  destruct recommend_sorted_by_score as [H _].
  destruct (H six_movies six_matrix (steady (with_poster "/x.jpg")) "C" idle
              2%nat [2 # 10; 3 # 10; 1; 6 # 10; 1 # 10; 7 # 10]%Q
              eq_refl eq_refl) as (_ & _ & (posters & w' & Heq) & _).
  { simpl. lia. }
  exists posters, w'. exact Heq.
Defined.

(** ** C1 *)

Lemma seven_infos_in_order :
  in_order (infos_from seven_movies 0
              (slice_1_6 (sorted_reverse (enumerate
                 [1; 1; 5 # 10; 4 # 10; 3 # 10; 2 # 10; 1 # 10]%Q)))).
Proof. apply infos_from_in_order. vm_compute. repeat constructor. Qed.

(** C1: on the seven-movie catalog, in which A and B have the same scores,
    each of the three recommendation functions, asked for B, returns five
    titles of which the first is B itself, whatever the remote service
    answers and whatever the world is (for app3.py with the five futures
    finishing in the order submitted, and in another order): in B's row A
    has B's own score and the smaller index, so A is the first sorted
    entry, the one the slice [1:6] drops, and B's entry is kept. *)
Theorem recommend_returns_the_query :
  title_index seven_movies "B" = Ok 1%nat
  ∧ recommended_indices [1; 1; 5 # 10; 4 # 10; 3 # 10; 2 # 10; 1 # 10]%Q
    = [1; 2; 3; 4; 5]%nat
  ∧ (∀ net w, ∃ posters w',
       App2.recommend seven_movies seven_matrix net "B" w
       = (Ok (["B"; "C"; "D"; "E"; "F"], posters), w'))
  ∧ (∀ net w, ∃ posters w',
       App.recommend_movies seven_movies seven_matrix net "B" w
       = (Ok (["B"; "C"; "D"; "E"; "F"], posters), w'))
  ∧ (∀ net w, ∃ posters w',
       App3.recommend_movies_final seven_movies seven_matrix net
         [0; 1; 2; 3; 4]%nat "B" w
       = (Ok ([Some "B"; Some "C"; Some "D"; Some "E"; Some "F"], posters), w'))
  ∧ (∀ net w, ∃ posters w',
       App3.recommend_movies_final seven_movies seven_matrix net
         [3; 0; 4; 2; 1]%nat "B" w
       = (Ok ([Some "B"; Some "C"; Some "D"; Some "E"; Some "F"], posters), w')).
Proof.
  split; [reflexivity|]. split; [reflexivity|].
  split; [|split; [|split]].
  - intros net w.
    destruct (App2_recommend_eval seven_movies seven_matrix net "B" w 1%nat
                [1; 1; 5 # 10; 4 # 10; 3 # 10; 2 # 10; 1 # 10]%Q)
      as (w' & Heq & _); [done|done|simpl; lia|].
    eexists _, w'. exact Heq.
  - intros net w.
    destruct (App_recommend_movies_eval seven_movies seven_matrix net "B" w 1%nat
                [1; 1; 5 # 10; 4 # 10; 3 # 10; 2 # 10; 1 # 10]%Q)
      as (w' & Heq & _); [done|done|simpl; lia|].
    eexists _, w'. exact Heq.
  - intros net w.
    rewrite (App3_recommend_eval seven_movies seven_matrix net _ "B" w 1%nat
               [1; 1; 5 # 10; 4 # 10; 3 # 10; 2 # 10; 1 # 10]%Q eq_refl eq_refl).
    destruct (fetch_all_titles (App3.fetch_poster_robust_cached net)
                [0; 1; 2; 3; 4]%nat _ w seven_infos_in_order)
      as (posters & w' & Heq).
    { reflexivity. }
    { compute_done. }
    exists posters, w'. exact Heq.
  - intros net w.
    rewrite (App3_recommend_eval seven_movies seven_matrix net _ "B" w 1%nat
               [1; 1; 5 # 10; 4 # 10; 3 # 10; 2 # 10; 1 # 10]%Q eq_refl eq_refl).
    destruct (fetch_all_titles (App3.fetch_poster_robust_cached net)
                [3; 0; 4; 2; 1]%nat _ w seven_infos_in_order)
      as (posters & w' & Heq).
    { compute_done. }
    { compute_done. }
    exists posters, w'. exact Heq.
Qed.

(** ** C2 *)

(** C2, amended: when no row of the catalog has the title asked for,
    [recommend_movies_final] returns the pair of empty lists, without
    raising, whatever the matrix is (the matrix is not looked at) and
    leaving the world as it was. *)
Theorem recommend_unknown_title :
  ∀ movies similarity net completion t w,
    Forall (fun m => row_title m ≠ t) movies →
    App3.recommend_movies_final movies similarity net completion t w
    = (Ok ([], []), w).
Proof.
  intros movies similarity net completion t w Hno.
  unfold App3.recommend_movies_final.
  by rewrite (title_index_unknown movies t Hno).
Qed.

Lemma recommend_unknown_title_witness :
  Forall (fun m => row_title m ≠ "Z") six_movies
  ∧ App3.recommend_movies_final six_movies [] (steady (with_poster "/x.jpg"))
      [] "Z" idle
    = (Ok ([], []), idle).
Proof.
  assert (H : Forall (fun m => row_title m ≠ "Z") six_movies).
  { repeat constructor; discriminate. }
  split; [exact H|].
  exact (recommend_unknown_title six_movies [] (steady (with_poster "/x.jpg"))
           [] "Z" idle H).
Defined.

(** The unguarded lookups of app2.py and app.py raise [IndexError] on an
    unknown title; [recommend_movies_final] does not fail but returns two
    empty lists. *)
Lemma recommend_unknown_title_counterexample :
  App2.recommend six_movies six_matrix (steady (with_poster "/x.jpg")) "Z" idle
  = (Raise IndexError, idle)
  ∧ App.recommend_movies six_movies six_matrix (steady (with_poster "/x.jpg"))
      "Z" idle
    = (Raise IndexError, idle)
  ∧ App3.recommend_movies_final six_movies six_matrix
      (steady (with_poster "/x.jpg")) [0; 1; 2; 3; 4]%nat "Z" idle
    = (Ok ([], []), idle).
Proof. repeat split; reflexivity. Qed.

(** ** C4 *)

(** C4: none of the three fetch functions ever raises; when the request
    ends in a timeout, a connection error, an error status or a body that
    is not a JSON object, the URL returned is the error placeholder; and a
    batch comes back whole: the sequential loops over valid catalog
    positions return a poster for every entry, and the concurrent batch
    returns a full-length pair even if a future raised. *)
Theorem fetch_never_raises :
  ∀ net movie_id fallback_text w,
    (∃ url w', App.fetch_poster net movie_id fallback_text w = (Ok url, w'))
    ∧ (∃ url w', App2.fetch_poster net movie_id w = (Ok url, w'))
    ∧ (∃ url w', App3.fetch_poster_robust_cached net movie_id w = (Ok url, w'))
    ∧ (failure (net (length (net_log w))
                  (api_url "b76bb27542ba7b7652281b79d2905180" movie_id)) = true →
       (∃ w', App.fetch_poster net movie_id fallback_text w = (Ok error_url, w'))
       ∧ (∃ w', App2.fetch_poster net movie_id w = (Ok error_url, w')))
    ∧ ((∀ n, failure (net n (robust_url movie_id)) = true) →
       stale w movie_id →
       ∃ w', App3.fetch_poster_robust_cached net movie_id w
             = (Ok App3.placeholder_error, w'))
    ∧ (∀ movies entries,
         Forall (fun e => (fst e < length movies)%nat) entries →
         (∃ names posters w',
            App.for_entries movies net entries [] [] w = (Ok (names, posters), w')
            ∧ length posters = length entries)
         ∧ (∃ names posters w',
              App2.for_entries movies net entries [] [] w
              = (Ok (names, posters), w')
              ∧ length posters = length entries))
    ∧ (∀ job completion data,
         in_order data →
         ∃ titles posters w',
           App3.fetch_all job completion data w = (Ok (titles, posters), w')
           ∧ length posters = length data).
Proof.
  intros net movie_id fallback_text w.
  split; [rewrite App_fetch_poster_eval; eauto|].
  split; [rewrite App2_fetch_poster_eval; eauto|].
  split; [apply fetch_cached_total|].
  split; [|split; [|split]].
  - intros Hfail. rewrite App_fetch_poster_eval, App2_fetch_poster_eval.
    rewrite !simple_answer_failure by done. eauto.
  - intros Hfail Hstale.
    destruct (fetch_cached_miss net movie_id w Hstale) as (url & w' & Hb & -> & _).
    destruct (fetch_poster_body_failure net movie_id w Hfail) as (w'' & Hb').
    rewrite Hb in Hb'. injection Hb' as -> ->. eauto.
  - intros movies entries Hvalid. split.
    + destruct (App_for_entries_eval movies net entries [] [] w Hvalid)
        as (w' & Heq & _).
      eexists _, _, w'. split; [exact Heq|].
      simpl. by apply length_sequential_posters.
    + destruct (App2_for_entries_eval movies net entries [] [] w Hvalid)
        as (w' & Heq & _).
      eexists _, _, w'. split; [exact Heq|].
      simpl. by apply length_sequential_posters.
  - intros job completion data Hord.
    destruct (fetch_all_returns job completion data w Hord)
      as (ts & ps & w' & Heq & _ & Hl).
    eauto.
Qed.

Lemma fetch_never_raises_witness :
  failure (steady (NoResponse ReadTimeout) (length (net_log idle))
             (api_url "b76bb27542ba7b7652281b79d2905180" 42)) = true
  ∧ (∀ n, failure (steady (NoResponse ReadTimeout) n (robust_url 42)) = true)
  ∧ stale idle 42
  ∧ (∃ w', App2.fetch_poster (steady (NoResponse ReadTimeout)) 42 idle
           = (Ok error_url, w'))
  ∧ (∃ w', App3.fetch_poster_robust_cached (steady (NoResponse ReadTimeout)) 42 idle
           = (Ok App3.placeholder_error, w')).
Proof.
  assert (H1 : failure (steady (NoResponse ReadTimeout) (length (net_log idle))
                 (api_url "b76bb27542ba7b7652281b79d2905180" 42)) = true)
    by reflexivity.
  assert (H2 : ∀ n, failure (steady (NoResponse ReadTimeout) n (robust_url 42)) = true)
    by (intros n; reflexivity).
  assert (H3 : stale idle 42) by exact I.
  split; [exact H1|]. split; [exact H2|]. split; [exact H3|].
  destruct (fetch_never_raises (steady (NoResponse ReadTimeout)) 42 "No+Image" idle)
    as (_ & _ & _ & Hsimple & Hrobust & _).
  split.
  - exact (proj2 (Hsimple H1)).
  - exact (Hrobust H2 H3).
Defined.

(** ** C5 *)

(** C5, amended: against an endpoint that answers 503 to every request,
    with or without a Retry-After header, [fetch_poster] of app.py and of
    app2.py sends exactly one request, does not pause, and returns the
    error placeholder; [fetch_poster_robust_cached], when the cache has no
    fresh entry for the id, sends the first request and the three retries
    that [Retry(total=3)] allows, four requests in all, and returns the
    error placeholder (which is then cached); none of them raises. *)
Theorem fetch_against_503 :
  ∀ net movie_id fallback_text w,
    (∀ n url, status_of (net n url) = Some 503) →
    App.fetch_poster net movie_id fallback_text w
    = (Ok error_url,
       mkWorld (clock w)
         (net_log w ++ [api_url "b76bb27542ba7b7652281b79d2905180" movie_id])
         (sleep_log w) (poster_cache w))
    ∧ App2.fetch_poster net movie_id w
      = (Ok error_url,
         mkWorld (clock w)
           (net_log w ++ [api_url "b76bb27542ba7b7652281b79d2905180" movie_id])
           (sleep_log w) (poster_cache w))
    ∧ (stale w movie_id →
       ∃ w',
         App3.fetch_poster_robust_cached net movie_id w
         = (Ok App3.placeholder_error, w')
         ∧ net_log w' = net_log w ++ replicate 4 (robust_url movie_id)
         ∧ poster_cache w'
           = <[movie_id := (App3.placeholder_error, clock w')]> (poster_cache w)).
Proof.
  intros net movie_id fallback_text w H503.
  assert (Hfail : ∀ url, failure (net (length (net_log w)) url) = true).
  { intros url. specialize (H503 (length (net_log w)) url).
    by destruct (net (length (net_log w)) url) as [e|s b|s ra b];
      [done| |]; injection H503 as ->. }
  split; [|split].
  - rewrite App_fetch_poster_eval. by rewrite simple_answer_failure.
  - rewrite App2_fetch_poster_eval. by rewrite simple_answer_failure.
  - intros Hstale.
    destruct (fetch_cached_miss net movie_id w Hstale) as (url & w' & Hb & -> & _).
    rewrite fetch_poster_body_eval in Hb.
    destruct (session_get_exhaust App3.retry_strategy net (robust_url movie_id)
                3 0 w) as (w1 & Hget & Hlog & Hcache).
    + intros n. specialize (H503 n (robust_url movie_id)).
      unfold status_of in H503.
      destruct (answered (net n (robust_url movie_id))) as [resp|]; [|done].
      exists resp. split; [done|]. injection H503 as ->. compute_done.
    + compute_done.
    + rewrite Hget in Hb. injection Hb as <- <-.
      eexists. split; [reflexivity|]. simpl. by rewrite Hlog, Hcache.
Qed.

Lemma fetch_against_503_witness :
  (∀ n url, status_of (steady (Response 503 NotJSON) n url) = Some 503)
  ∧ stale idle 42
  ∧ (App.fetch_poster (steady (Response 503 NotJSON)) 42 "No+Image" idle).1
    = Ok error_url
  ∧ length (net_log (App.fetch_poster (steady (Response 503 NotJSON)) 42
                       "No+Image" idle).2) = 1%nat
  ∧ (App3.fetch_poster_robust_cached (steady (Response 503 NotJSON)) 42 idle).1
    = Ok App3.placeholder_error
  ∧ net_log (App3.fetch_poster_robust_cached
               (steady (Response 503 NotJSON)) 42 idle).2
    = replicate 4 (robust_url 42).
Proof.
  assert (H : ∀ n url, status_of (steady (Response 503 NotJSON) n url) = Some 503).
  { intros n url. reflexivity. }
  assert (Hs : stale idle 42) by exact I.
  split; [exact H|]. split; [exact Hs|].
  destruct (fetch_against_503 (steady (Response 503 NotJSON)) 42 "No+Image" idle H)
    as (H1 & _ & H3).
  destruct (H3 Hs) as (w' & Heq & Hlog & _).
  rewrite H1, Heq. simpl. rewrite Hlog. repeat split; reflexivity.
Defined.

(** A fetch against such an endpoint makes one attempt in app.py and four
    in app3.py, never three. *)
Lemma fetch_against_503_counterexample :
  length (net_log (App.fetch_poster (steady (Response 503 NotJSON)) 42
                     "No+Image" idle).2) = 1%nat
  ∧ length (net_log (App.fetch_poster (steady (Response 503 NotJSON)) 42
                       "No+Image" idle).2) ≠ 3%nat
  ∧ length (net_log (App3.fetch_poster_robust_cached
                       (steady (Response 503 NotJSON)) 42 idle).2) = 4%nat
  ∧ length (net_log (App3.fetch_poster_robust_cached
                       (steady (Response 503 NotJSON)) 42 idle).2) ≠ 3%nat.
Proof. vm_compute. repeat split; lia. Qed.

(** ** C7 *)

Lemma is_retry_error_status n method s h :
  App3.is_retry App3.retry_strategy n method s h = true → 400 <= s < 600.
Proof.
  unfold App3.is_retry. intros H. apply andb_true_iff in H as [_ H].
  apply orb_true_iff in H as [H|H].
  - apply bool_decide_eq_true in H. simpl in H.
    repeat (apply elem_of_cons in H as [->|H]; [lia|]).
    by apply elem_of_nil in H.
  - apply andb_true_iff in H as [_ H].
    apply bool_decide_eq_true in H. unfold App3.RETRY_AFTER_STATUS_CODES in H.
    repeat (apply elem_of_cons in H as [->|H]; [lia|]).
    by apply elem_of_nil in H.
Qed.

(** An answer that is not to be retried ends the call at once. *)
Lemma session_get_first r k errs net url w s b :
  net (length (net_log w)) url = Response s b →
  App3.is_retry r k "GET" s false = false →
  App3.session_get r k errs net url w = (Ok (mkResponse s b), logged url w).
Proof.
  intros Hnet Hno.
  destruct k; simpl; unfold bind at 1, send at 1; cbv beta iota;
    by rewrite Hnet, Hno.
Qed.

(** C7: when the response has a status outside 400..599 and its JSON
    object holds a non-empty string under [poster_path], each fetch
    function returns the image host prefix followed by that string; the
    cached variant also stores the URL under the id with the current time.
    The scenario of the claim (id 42, [poster_path] "/x.jpg") is the
    instance proved after the theorem. *)
Theorem poster_url_from_path :
  ∀ net movie_id fallback_text w s fields p,
    ¬ (400 <= s < 600) →
    dict_get fields "poster_path" = PyStr p →
    p ≠ "" →
    (net (length (net_log w))
         (api_url "b76bb27542ba7b7652281b79d2905180" movie_id)
     = Response s (JSONDict fields) →
     App.fetch_poster net movie_id fallback_text w
     = (Ok (image_host +:+ p),
        logged (api_url "b76bb27542ba7b7652281b79d2905180" movie_id) w)
     ∧ App2.fetch_poster net movie_id w
       = (Ok (image_host +:+ p),
          logged (api_url "b76bb27542ba7b7652281b79d2905180" movie_id) w))
    ∧ (net (length (net_log w)) (robust_url movie_id)
       = Response s (JSONDict fields) →
       stale w movie_id →
       App3.fetch_poster_robust_cached net movie_id w
       = (Ok (image_host +:+ p),
          mkWorld (clock w) (net_log w ++ [robust_url movie_id]) (sleep_log w)
            (<[movie_id := (image_host +:+ p, clock w)]> (poster_cache w)))).
Proof.
  intros net movie_id fallback_text w s fields p Hs Hp Hne.
  assert (Hrange : (400 <=? s) && (s <? 600) = false).
  { destruct ((400 <=? s) && (s <? 600)) eqn:E; [|done].
    apply andb_true_iff in E as [E1 E2].
    apply Z.leb_le in E1. apply Z.ltb_lt in E2. lia. }
  assert (Hnonempty : String.eqb p "" = false) by (by apply String.eqb_neq).
  split.
  - intros Hnet.
    rewrite App_fetch_poster_eval, App2_fetch_poster_eval, Hnet.
    unfold simple_answer. by rewrite Hrange, Hp, Hnonempty.
  - intros Hnet Hstale.
    destruct (fetch_cached_miss net movie_id w Hstale) as (url & w' & Hb & -> & _).
    rewrite fetch_poster_body_eval in Hb.
    rewrite (session_get_first _ _ _ _ _ _ s (JSONDict fields) Hnet) in Hb.
    + unfold robust_answer in Hb. simpl in Hb.
      rewrite Hrange, Hp in Hb. simpl in Hb. rewrite Hnonempty in Hb.
      simpl in Hb. injection Hb as <- <-. done.
    + destruct (App3.is_retry App3.retry_strategy 3 "GET" s false) eqn:E; [|done].
      apply is_retry_error_status in E. lia.
Qed.

Lemma poster_url_from_path_witness :
  ¬ (400 <= 200 < 600)
  ∧ dict_get [("title", PyStr "A movie"); ("poster_path", PyStr "/x.jpg")]
             "poster_path" = PyStr "/x.jpg"
  ∧ "/x.jpg" ≠ ""
  ∧ stale idle 42
  ∧ (App.fetch_poster (steady (with_poster "/x.jpg")) 42 "No+Image" idle).1
    = Ok (image_host +:+ "/x.jpg")
  ∧ (App2.fetch_poster (steady (with_poster "/x.jpg")) 42 idle).1
    = Ok (image_host +:+ "/x.jpg")
  ∧ (App3.fetch_poster_robust_cached (steady (with_poster "/x.jpg")) 42 idle).1
    = Ok (image_host +:+ "/x.jpg").
Proof.
  assert (H1 : ¬ (400 <= 200 < 600)) by lia.
  assert (H2 : dict_get [("title", PyStr "A movie"); ("poster_path", PyStr "/x.jpg")]
                 "poster_path" = PyStr "/x.jpg") by reflexivity.
  assert (H3 : "/x.jpg" ≠ "") by discriminate.
  assert (H4 : stale idle 42) by exact I.
  split; [exact H1|]. split; [exact H2|]. split; [exact H3|]. split; [exact H4|].
  destruct (poster_url_from_path (steady (with_poster "/x.jpg")) 42 "No+Image"
              idle 200 _ "/x.jpg" H1 H2 H3) as [Hsimple Hrobust].
  destruct (Hsimple eq_refl) as [Ha Hb].
  rewrite Ha, Hb, (Hrobust eq_refl H4). repeat split; reflexivity.
Defined.

(** ** C8 *)

(** C8, amended: [fetch_poster_robust_cached] is cached for six hours
    (21600 seconds).  A fetch leaves an entry for the id holding the URL it
    returned; a later fetch of the id made before the entry is six hours
    old returns that URL and changes nothing, in particular sends no
    request; a fetch made once the entry is six hours old sends a request.
    [fetch_poster] of app.py and of app2.py has no cache: every call sends
    one request. *)
Theorem cached_fetch_ttl :
  App3.ttl = 21600
  ∧ (∀ net movie_id w,
       ∃ url w1 stored,
         App3.fetch_poster_robust_cached net movie_id w = (Ok url, w1)
         ∧ poster_cache w1 !! movie_id = Some (url, stored)
         ∧ (stale w movie_id →
            stored = clock w1 ∧ (length (net_log w) < length (net_log w1))%nat)
         ∧ ∀ d,
             (clock w1 + d < stored + App3.ttl →
              App3.fetch_poster_robust_cached net movie_id (elapse d w1)
              = (Ok url, elapse d w1))
             ∧ (stored + App3.ttl <= clock w1 + d →
                (length (net_log w1)
                 < length (net_log (App3.fetch_poster_robust_cached net movie_id
                                      (elapse d w1)).2))%nat))
  ∧ (∀ net movie_id fallback_text w,
       length (net_log (App.fetch_poster net movie_id fallback_text w).2)
       = S (length (net_log w))
       ∧ length (net_log (App2.fetch_poster net movie_id w).2)
         = S (length (net_log w))).
Proof.
  split; [reflexivity|]. split.
  - intros net movie_id w.
    assert (Hlater : ∀ url w1 stored,
      poster_cache w1 !! movie_id = Some (url, stored) →
      ∀ d,
        (clock w1 + d < stored + App3.ttl →
         App3.fetch_poster_robust_cached net movie_id (elapse d w1)
         = (Ok url, elapse d w1))
        ∧ (stored + App3.ttl <= clock w1 + d →
           (length (net_log w1)
            < length (net_log (App3.fetch_poster_robust_cached net movie_id
                                 (elapse d w1)).2))%nat)).
    { intros url w1 stored Hc d. split.
      - intros Hfresh. by apply (fetch_cached_hit net movie_id _ url stored).
      - intros Hold.
        destruct (fetch_cached_miss net movie_id (elapse d w1))
          as (url' & w2 & _ & -> & Hlog).
        + unfold stale. simpl. by rewrite Hc.
        + exact Hlog. }
    destruct (stale_dec w movie_id) as [Hs|(url & stored & Hc & Hf)].
    + destruct (fetch_cached_miss net movie_id w Hs) as (url & w' & Hb & Heq & Hlog).
      eexists url, _, (clock w'). split; [exact Heq|].
      split; [simpl; by rewrite lookup_insert_eq|].
      split; [done|].
      apply (Hlater url _ (clock w')). simpl. by rewrite lookup_insert_eq.
    + exists url, w, stored.
      split; [by apply (fetch_cached_hit net movie_id w url stored)|].
      split; [done|]. split; [|by apply (Hlater url w stored)].
      intros Hs. unfold stale in Hs. rewrite Hc in Hs. lia.
  - intros net movie_id fallback_text w.
    rewrite App_fetch_poster_eval, App2_fetch_poster_eval. simpl.
    rewrite length_app. simpl. lia.
Qed.

Lemma cached_fetch_ttl_witness :
  stale idle 42
  ∧ ∃ url w1,
      App3.fetch_poster_robust_cached (serves_first 1 "/x.jpg") 42 idle
      = (Ok url, w1)
      ∧ App3.fetch_poster_robust_cached (serves_first 1 "/x.jpg") 42
          (elapse 3600 w1)
        = (Ok url, elapse 3600 w1)
      ∧ (length (net_log w1)
         < length (net_log (App3.fetch_poster_robust_cached
                              (serves_first 1 "/x.jpg") 42 (elapse 21600 w1)).2))%nat.
Proof.
  assert (Hs : stale idle 42) by exact I.
  split; [exact Hs|].
  destruct cached_fetch_ttl as (Httl & Hcached & _).
  destruct (Hcached (serves_first 1 "/x.jpg") 42 idle)
    as (url & w1 & stored & Heq & _ & Hst & Hd).
  destruct (Hst Hs) as [Hstored _].
  exists url, w1. split; [exact Heq|]. split.
  - apply (proj1 (Hd 3600)). rewrite Hstored, Httl. lia.
  - apply (proj2 (Hd 21600)). rewrite Hstored, Httl. lia.
Defined.

(** [fetch_poster] of app2.py, called again at once for the same id, sends
    a second request and, the service failing meanwhile, returns another
    URL. *)
Lemma cached_fetch_ttl_counterexample :
  (App2.fetch_poster (serves_first 1 "/x.jpg") 42 idle).1
  = Ok "https://image.tmdb.org/t/p/w500//x.jpg"
  ∧ (App2.fetch_poster (serves_first 1 "/x.jpg") 42
       (App2.fetch_poster (serves_first 1 "/x.jpg") 42 idle).2).1
    = Ok "https://via.placeholder.com/500x750.png?text=Error"
  ∧ length (net_log (App2.fetch_poster (serves_first 1 "/x.jpg") 42 idle).2)
    = 1%nat
  ∧ length (net_log
              (App2.fetch_poster (serves_first 1 "/x.jpg") 42
                 (App2.fetch_poster (serves_first 1 "/x.jpg") 42 idle).2).2)
    = 2%nat.
Proof. repeat split; reflexivity. Qed.

(** ** C3 *)

(** C3: the concurrent batch of app3.py, for any submitted function, any state of the
    world and any order in which the futures complete, returns two lists as
    long as its input, in which position i holds the title and the URL of a
    future submitted for the id at position i (of future i itself when the
    ids are distinct); the sequential loops of app.py and app2.py return,
    at position k, the title of the k-th entry and the answer to the request
    sent for the k-th entry's id. *)
Theorem batch_keeps_order :
  (∀ job completion data w,
     in_order data →
     completion ≡ₚ seq 0 (length data) →
     ∃ titles posters w',
       App3.fetch_all job completion data w = (Ok (titles, posters), w')
       ∧ length titles = length data
       ∧ length posters = length data
       ∧ (∀ i info, data !! i = Some info →
            ∃ j info' r,
              data !! j = Some info'
              ∧ App3.tmdb_id info' = App3.tmdb_id info
              ∧ (App3.run_pool job data completion ∅ w).1 !! j = Some r
              ∧ titles !! i = Some (Some (App3.title info'))
              ∧ posters !! i = Some (Some (resolved r)))
       ∧ (NoDup (map App3.tmdb_id data) →
          ∀ i info, data !! i = Some info →
            ∃ r,
              (App3.run_pool job data completion ∅ w).1 !! i = Some r
              ∧ titles !! i = Some (Some (App3.title info))
              ∧ posters !! i = Some (Some (resolved r))))
  ∧ (∀ movies net entries w,
       Forall (fun e => (fst e < length movies)%nat) entries →
       (∃ names posters w',
          App2.for_entries movies net entries [] [] w = (Ok (names, posters), w')
          ∧ length posters = length entries
          ∧ ∀ k e m, entries !! k = Some e → movies !! fst e = Some m →
              names !! k = Some (row_title m)
              ∧ posters !! k
                = Some (simple_answer
                          "https://via.placeholder.com/500x750.png?text=No+Image"
                          (net (length (net_log w) + k)%nat
                             (api_url "b76bb27542ba7b7652281b79d2905180"
                                      (row_id m)))))
       ∧ (∃ names posters w',
            App.for_entries movies net entries [] [] w = (Ok (names, posters), w')
            ∧ length posters = length entries
            ∧ ∀ k e m, entries !! k = Some e → movies !! fst e = Some m →
                names !! k = Some (row_title m)
                ∧ posters !! k
                  = Some (simple_answer
                            "https://via.placeholder.com/500x750.png?text=No+Image"
                            (net (length (net_log w) + k)%nat
                               (api_url "b76bb27542ba7b7652281b79d2905180"
                                        (row_id m)))))).
Proof.
  split.
  - intros job completion data w Hord Hperm.
    destruct (fetch_all_spec job completion data w Hord Hperm)
      as (ts & ps & Heq & Hlts & Hlps & Hpos).
    exists ts, ps, (App3.run_pool job data completion ∅ w).2.
    split; [done|]. split; [done|]. split; [done|]. split; [done|].
    intros Hnd i info Hi.
    destruct (Hpos i info Hi) as (j & info' & r & Hj & Hid & Hf & Ht & Hp).
    assert (j = i) as ->.
    { eapply (NoDup_lookup (map App3.tmdb_id data)); [done| |].
      - rewrite list_lookup_fmap, Hj. simpl. by rewrite Hid.
      - by rewrite list_lookup_fmap, Hi. }
    assert (info' = info) as -> by congruence.
    eauto.
  - intros movies net entries w Hvalid.
    assert (Hidx : Forall (fun i => (i < length movies)%nat) (map fst entries)).
    { by apply Forall_fmap. }
    split.
    + destruct (App2_for_entries_eval movies net entries [] [] w Hvalid)
        as (w' & Heq & _).
      eexists _, _, w'. split; [exact Heq|]. simpl.
      split; [by apply length_sequential_posters|].
      intros k e m Hk Hm. split.
      * apply (titles_at_lookup movies (map fst entries) k (fst e) m Hidx); [|done].
        by rewrite list_lookup_fmap, Hk.
      * by apply (sequential_posters_lookup _ movies net _ entries k e m).
    + destruct (App_for_entries_eval movies net entries [] [] w Hvalid)
        as (w' & Heq & _).
      eexists _, _, w'. split; [exact Heq|]. simpl.
      split; [by apply length_sequential_posters|].
      intros k e m Hk Hm. split.
      * apply (titles_at_lookup movies (map fst entries) k (fst e) m Hidx); [|done].
        by rewrite list_lookup_fmap, Hk.
      * by apply (sequential_posters_lookup _ movies net _ entries k e m).
Qed.

Definition two_infos : list App3.movie_info :=
  [App3.mkInfo 102 "B" 0; App3.mkInfo 104 "D" 1].

Lemma two_infos_in_order : in_order two_infos.
Proof.
  intros k info Hk. destruct k as [|[|k]]; simpl in Hk; try done;
    by injection Hk as <-.
Qed.

Lemma batch_keeps_order_witness :
  in_order two_infos
  ∧ [1; 0]%nat ≡ₚ seq 0 (length two_infos)
  ∧ NoDup (map App3.tmdb_id two_infos)
  ∧ ∃ titles posters w',
      App3.fetch_all (App3.fetch_poster_robust_cached (serves_first 1 "/x.jpg"))
        [1; 0]%nat two_infos idle
      = (Ok (titles, posters), w')
      ∧ length posters = 2%nat
      ∧ titles !! 0%nat = Some (Some "B")
      ∧ titles !! 1%nat = Some (Some "D").
Proof.
  assert (Hperm : [1; 0]%nat ≡ₚ seq 0 (length two_infos)).
  { simpl. apply Permutation_swap. }
  assert (Hnd : NoDup (map App3.tmdb_id two_infos)).
  { simpl. apply NoDup_cons. split.
    - intros H. apply elem_of_cons in H as [H|H]; [discriminate H|].
      by apply elem_of_nil in H.
    - apply NoDup_singleton. }
  split; [exact two_infos_in_order|]. split; [exact Hperm|]. split; [exact Hnd|].
  destruct batch_keeps_order as [Hbatch _].
  destruct (Hbatch (App3.fetch_poster_robust_cached (serves_first 1 "/x.jpg"))
              [1; 0]%nat two_infos idle two_infos_in_order Hperm)
    as (titles & posters & w' & Heq & _ & Hlen & _ & Hdistinct).
  exists titles, posters, w'. split; [exact Heq|]. split; [exact Hlen|].
  destruct (Hdistinct Hnd 0%nat (App3.mkInfo 102 "B" 0) eq_refl) as (r0 & _ & H0 & _).
  destruct (Hdistinct Hnd 1%nat (App3.mkInfo 104 "D" 1) eq_refl) as (r1 & _ & H1 & _).
  split; [exact H0|exact H1].
Defined.

(** ** C9 *)

(** C9, amended: the titles a recommendation call returns (or the
    exception it raises instead) are determined by the catalog, the matrix
    and the title: in app.py and app2.py they are the same for any two
    behaviours of the remote service and any two states of the world; in
    app3.py, for a title of a catalog with distinct ids, they are the
    titles at the recommended positions whatever the service, the world and
    the order in which the futures complete.  The calls themselves do send
    requests and their posters depend on the answers. *)
Theorem lookup_part_is_pure :
  ∀ movies similarity t,
    (∀ net1 net2 w1 w2,
       titles_of (App.recommend_movies movies similarity net1 t w1)
       = titles_of (App.recommend_movies movies similarity net2 t w2))
    ∧ (∀ net1 net2 w1 w2,
         titles_of (App2.recommend movies similarity net1 t w1)
         = titles_of (App2.recommend movies similarity net2 t w2))
    ∧ (∀ q row,
         title_index movies t = Ok q →
         similarity !! q = Some row →
         (length row ≤ length movies)%nat →
         NoDup (map row_id movies) →
         ∀ net completion w,
           completion ≡ₚ seq 0 (length (recommended_indices row)) →
           titles_of (App3.recommend_movies_final movies similarity net
                        completion t w)
           = Ok (map Some (titles_at movies (recommended_indices row)))).
Proof.
  intros movies similarity t. split; [|split].
  - intros net1 net2 w1 w2. unfold App.recommend_movies.
    unfold bind at 1 3, lift at 1 3.
    destruct (title_index movies t) as [q|]; cbv beta iota; [|done].
    unfold bind at 1 2, lift at 1 2.
    destruct (getitem similarity q) as [row|]; cbv beta iota; [|done].
    apply App_for_entries_titles.
  - intros net1 net2 w1 w2. unfold App2.recommend.
    unfold bind at 1 3, lift at 1 3.
    destruct (title_index movies t) as [q|]; cbv beta iota; [|done].
    unfold bind at 1 2, lift at 1 2.
    destruct (getitem similarity q) as [row|]; cbv beta iota; [|done].
    apply App2_for_entries_titles.
  - intros q row Ht Hrow Hlen Hids net completion w Hperm.
    rewrite (App3_recommend_eval movies similarity net completion t w q row Ht Hrow).
    assert (Hvalid : Forall (fun e => (fst e < length movies)%nat)
                       (slice_1_6 (sorted_reverse (enumerate row)))).
    { eapply Forall_impl; [apply slice_entries_bound|]. simpl. intros; lia. }
    pose proof (length_infos_from movies 0 _ Hvalid) as Hl.
    pose proof (infos_from_in_order movies _ Hvalid) as Hord.
    pose proof (infos_from_ids_NoDup movies 0 _ Hids (slice_indices_NoDup row))
      as Hnd.
    pose proof (infos_from_titles movies 0
                  (slice_1_6 (sorted_reverse (enumerate row)))) as Htitles.
    fold (recommended_indices row) in Htitles.
    unfold recommended_indices in Hperm. rewrite length_map, <- Hl in Hperm.
    destruct (infos_from movies 0 (slice_1_6 (sorted_reverse (enumerate row))))
      as [|info data] eqn:E.
    + simpl in Htitles. by rewrite <- Htitles.
    + destruct (fetch_all_titles (App3.fetch_poster_robust_cached net) completion
                  (info :: data) w Hord Hperm Hnd) as (posters & w' & ->).
      unfold titles_of. cbn [fst]. rewrite <- Htitles.
      by rewrite <- list_fmap_compose.
Qed.

Lemma lookup_part_is_pure_witness :
  title_index six_movies "A" = Ok 0%nat
  ∧ six_matrix !! 0%nat = Some scenario_row
  ∧ NoDup (map row_id six_movies)
  ∧ [4; 2; 0; 3; 1]%nat ≡ₚ seq 0 (length (recommended_indices scenario_row))
  ∧ titles_of (App3.recommend_movies_final six_movies six_matrix
                 (serves_first 2 "/x.jpg") [4; 2; 0; 3; 1]%nat "A" idle)
    = Ok [Some "B"; Some "D"; Some "E"; Some "C"; Some "F"].
Proof.
  assert (Hnd : NoDup (map row_id six_movies)) by compute_done.
  assert (Hperm : [4; 2; 0; 3; 1]%nat
                  ≡ₚ seq 0 (length (recommended_indices scenario_row)))
    by compute_done.
  split; [reflexivity|]. split; [reflexivity|].
  split; [exact Hnd|]. split; [exact Hperm|].
  destruct (lookup_part_is_pure six_movies six_matrix "A") as (_ & _ & H3).
  apply (H3 0%nat scenario_row eq_refl eq_refl); [simpl; lia|exact Hnd|exact Hperm].
Defined.

(** One call of [recommend_movies] sends five requests, and a second call
    with the same title, catalog and matrix returns other posters once the
    service has started failing. *)
Lemma lookup_part_is_pure_counterexample :
  length (net_log (App.recommend_movies six_movies six_matrix
                     (serves_first 5 "/x.jpg") "A" idle).2) = 5%nat
  ∧ (App.recommend_movies six_movies six_matrix (serves_first 5 "/x.jpg") "A"
       idle).1
    = Ok (["B"; "D"; "E"; "C"; "F"],
          replicate 5 "https://image.tmdb.org/t/p/w500//x.jpg")
  ∧ (App.recommend_movies six_movies six_matrix (serves_first 5 "/x.jpg") "A"
       (App.recommend_movies six_movies six_matrix (serves_first 5 "/x.jpg")
          "A" idle).2).1
    = Ok (["B"; "D"; "E"; "C"; "F"],
          replicate 5 "https://via.placeholder.com/500x750.png?text=Error").
Proof. repeat split; vm_compute; reflexivity. Qed.

(** ** C10 *)

(** What [recommend_movies_final] returns for a title of the catalog when
    every future finishes: position i holds the title and the URL of one
    and the same future, submitted for the id of the i-th record. *)
Lemma App3_recommend_cells movies similarity net completion t w q row :
  title_index movies t = Ok q →
  similarity !! q = Some row →
  (length row ≤ length movies)%nat →
  completion ≡ₚ seq 0 (length (recommended_indices row)) →
  let data := infos_from movies 0 (slice_1_6 (sorted_reverse (enumerate row))) in
  ∃ titles posters w',
    App3.recommend_movies_final movies similarity net completion t w
    = (Ok (titles, posters), w')
    ∧ length titles = length (recommended_indices row)
    ∧ length posters = length (recommended_indices row)
    ∧ ∀ i info, data !! i = Some info →
        ∃ j info' r,
          data !! j = Some info'
          ∧ App3.tmdb_id info' = App3.tmdb_id info
          ∧ (App3.run_pool (App3.fetch_poster_robust_cached net) data
               completion ∅ w).1 !! j = Some r
          ∧ titles !! i = Some (Some (App3.title info'))
          ∧ posters !! i = Some (Some (resolved r)).
Proof.
  intros Ht Hrow Hlen Hperm data.
  rewrite (App3_recommend_eval movies similarity net completion t w q row Ht Hrow).
  assert (Hvalid : Forall (fun e => (fst e < length movies)%nat)
                     (slice_1_6 (sorted_reverse (enumerate row)))).
  { eapply Forall_impl; [apply slice_entries_bound|]. simpl. intros; lia. }
  pose proof (length_infos_from movies 0 _ Hvalid) as Hl.
  pose proof (infos_from_in_order movies _ Hvalid) as Hord.
  unfold recommended_indices in *. rewrite length_map in *.
  fold data in Hl, Hord |- *. rewrite <- Hl in *.
  destruct (fetch_all_spec (App3.fetch_poster_robust_cached net) completion
              data w Hord Hperm) as (ts & ps & Heq & Hlts & Hlps & Hpos).
  destruct data as [|info0 rest] eqn:E.
  - exists [], [], w. repeat split; try done.
  - eexists ts, ps, _. split; [exact Heq|]. done.
Qed.

(** C10: whenever one of the three recommendation functions returns, its
    two lists have the same length; for a title of the catalog and a
    square matrix each of them does return, and position i of the two lists
    belongs to one and the same recommended movie.  In app.py and app2.py
    the titles and the posters are those of the same entries, position by
    position.  In app3.py, when every future finishes, position i holds the
    title and the URL of one and the same future, submitted for the id of
    the movie at the i-th recommended position, that is, when the ids of
    the catalog are distinct, the title of that movie and the URL fetched
    for it. *)
Theorem titles_and_posters_same_length :
  ∀ movies similarity net completion t w,
    (∀ r w', App.recommend_movies movies similarity net t w = (Ok r, w') →
             length r.1 = length r.2)
    ∧ (∀ r w', App2.recommend movies similarity net t w = (Ok r, w') →
               length r.1 = length r.2)
    ∧ (∀ r w', App3.recommend_movies_final movies similarity net completion t w
               = (Ok r, w') →
               length r.1 = length r.2)
    ∧ (square movies similarity →
       (∃ m, m ∈ movies ∧ row_title m = t) →
       ∃ q row,
         title_index movies t = Ok q ∧ similarity !! q = Some row
         ∧ (∃ w',
              App.recommend_movies movies similarity net t w
              = (Ok (titles_at movies
                       (map fst (slice_1_6 (sorted_reverse (enumerate row)))),
                     sequential_posters
                       "https://via.placeholder.com/500x750.png?text=No+Image"
                       movies net (length (net_log w))
                       (slice_1_6 (sorted_reverse (enumerate row)))), w'))
         ∧ (∃ w',
              App2.recommend movies similarity net t w
              = (Ok (titles_at movies
                       (map fst (slice_1_6 (sorted_reverse (enumerate row)))),
                     sequential_posters
                       "https://via.placeholder.com/500x750.png?text=No+Image"
                       movies net (length (net_log w))
                       (slice_1_6 (sorted_reverse (enumerate row)))), w'))
         ∧ (∃ titles posters w',
              App3.recommend_movies_final movies similarity net completion t w
              = (Ok (titles, posters), w')
              ∧ length titles = length posters)
         ∧ (completion ≡ₚ seq 0 (length (recommended_indices row)) →
            ∃ data titles posters w',
              App3.prepare movies 0
                (slice_1_6 (sorted_reverse (enumerate row))) [] = Ok data
              ∧ App3.recommend_movies_final movies similarity net completion t w
                = (Ok (titles, posters), w')
              ∧ length titles = length (recommended_indices row)
              ∧ length posters = length (recommended_indices row)
              ∧ (∀ i pos m,
                   recommended_indices row !! i = Some pos →
                   movies !! pos = Some m →
                   data !! i = Some (App3.mkInfo (row_id m) (row_title m) i)
                   ∧ ∃ j info' r,
                       data !! j = Some info'
                       ∧ App3.tmdb_id info' = row_id m
                       ∧ (App3.run_pool (App3.fetch_poster_robust_cached net)
                            data completion ∅ w).1 !! j = Some r
                       ∧ titles !! i = Some (Some (App3.title info'))
                       ∧ posters !! i = Some (Some (resolved r)))
              ∧ (NoDup (map row_id movies) →
                 ∀ i pos m,
                   recommended_indices row !! i = Some pos →
                   movies !! pos = Some m →
                   ∃ r,
                     (App3.run_pool (App3.fetch_poster_robust_cached net)
                        data completion ∅ w).1 !! i = Some r
                     ∧ titles !! i = Some (Some (row_title m))
                     ∧ posters !! i = Some (Some (resolved r))))).
Proof.
  intros movies similarity net completion t w.
  split; [intros r w'; apply App_recommend_movies_lengths|].
  split; [intros r w'; apply App2_recommend_lengths|].
  split; [intros r w'; apply App3_recommend_lengths|].
  intros Hsq Hin.
  destruct (title_index_known movies t Hin) as (q & Ht & Hq & _).
  destruct (square_row movies similarity q Hsq Hq) as (row & Hrow & Hlen).
  exists q, row. split; [done|]. split; [done|].
  split; [|split; [|split]].
  - destruct (App_recommend_movies_eval movies similarity net t w q row Ht Hrow)
      as (w' & Heq & _); [lia|].
    exists w'. exact Heq.
  - destruct (App2_recommend_eval movies similarity net t w q row Ht Hrow)
      as (w' & Heq & _); [lia|].
    exists w'. exact Heq.
  - destruct (App3_recommend_returns movies similarity net completion t w q row
                Ht Hrow) as (ts & ps & w' & Heq & Hts & Hps); [lia|].
    exists ts, ps, w'. split; [done|]. by rewrite Hts, Hps.
  - intros Hperm.
    assert (Hvalid : Forall (fun e => (fst e < length movies)%nat)
                       (slice_1_6 (sorted_reverse (enumerate row)))).
    { eapply Forall_impl; [apply slice_entries_bound|]. simpl. intros; lia. }
    destruct (App3_recommend_cells movies similarity net completion t w q row
                Ht Hrow) as (ts & ps & w' & Heq & Hlts & Hlps & Hpos);
      [lia|done|].
    set (data := infos_from movies 0 (slice_1_6 (sorted_reverse (enumerate row))))
      in *.
    assert (Hdata : ∀ i pos m,
              recommended_indices row !! i = Some pos → movies !! pos = Some m →
              data !! i = Some (App3.mkInfo (row_id m) (row_title m) i)).
    { intros i pos m Hi Hm. unfold recommended_indices in Hi.
      rewrite list_lookup_fmap in Hi.
      destruct (slice_1_6 (sorted_reverse (enumerate row)) !! i) as [e|] eqn:Ee;
        [|done].
      injection Hi as <-.
      apply (infos_from_lookup movies 0 _ i e m Hvalid Ee Hm). }
    exists data, ts, ps, w'.
    split; [apply (prepare_eval movies 0 _ [])|].
    split; [done|]. split; [done|]. split; [done|]. split.
    + intros i pos m Hi Hm. pose proof (Hdata i pos m Hi Hm) as Hd.
      split; [done|].
      destruct (Hpos _ _ Hd) as (j & info' & r & Hj & Hid & Hf & Hti & Hpi).
      exists j, info', r. done.
    + intros Hids i pos m Hi Hm. pose proof (Hdata i pos m Hi Hm) as Hd.
      destruct (Hpos _ _ Hd) as (j & info' & r & Hj & Hid & Hf & Hti & Hpi).
      pose proof (infos_from_ids_NoDup movies 0 _ Hids (slice_indices_NoDup row))
        as Hnd.
      fold data in Hnd.
      assert (j = i) as ->.
      { eapply (NoDup_lookup (map App3.tmdb_id data)); [done| |].
        - rewrite list_lookup_fmap, Hj. simpl. by rewrite Hid.
        - by rewrite list_lookup_fmap, Hd. }
      assert (info' = App3.mkInfo (row_id m) (row_title m) i) as -> by congruence.
      exists r. done.
Qed.

Lemma titles_and_posters_same_length_witness :
  square six_movies six_matrix
  ∧ (∃ m, m ∈ six_movies ∧ row_title m = "E")
  ∧ [2; 0; 1; 4; 3]%nat
    ≡ₚ seq 0 (length (recommended_indices
                        [5 # 10; 2 # 10; 1 # 10; 3 # 10; 1; 8 # 10]%Q))
  ∧ NoDup (map row_id six_movies)
  ∧ recommended_indices [5 # 10; 2 # 10; 1 # 10; 3 # 10; 1; 8 # 10]%Q
    = [5; 0; 3; 1; 2]%nat
  ∧ ∃ titles posters w',
      App3.recommend_movies_final six_movies six_matrix
        (serves_first 3 "/x.jpg") [2; 0; 1; 4; 3]%nat "E" idle
      = (Ok (titles, posters), w')
      ∧ length titles = length posters
      ∧ titles !! 0%nat = Some (Some "F")
      ∧ posters !! 0%nat = Some (Some "https://image.tmdb.org/t/p/w500//x.jpg")
      ∧ titles !! 4%nat = Some (Some "C")
      ∧ posters !! 4%nat = Some (Some App3.placeholder_error).
Proof.
  assert (Hin : ∃ m, m ∈ six_movies ∧ row_title m = "E").
  { exists (mkMovie 105 "E"). split; [|reflexivity].
    do 4 right. left. }
  assert (Hperm : [2; 0; 1; 4; 3]%nat
                  ≡ₚ seq 0 (length (recommended_indices
                                      [5 # 10; 2 # 10; 1 # 10; 3 # 10; 1; 8 # 10]%Q)))
    by compute_done.
  assert (Hnd : NoDup (map row_id six_movies)) by compute_done.
  split; [exact six_square|]. split; [exact Hin|].
  split; [exact Hperm|]. split; [exact Hnd|]. split; [reflexivity|].
  destruct (titles_and_posters_same_length six_movies six_matrix
              (serves_first 3 "/x.jpg") [2; 0; 1; 4; 3]%nat "E" idle)
    as (_ & _ & _ & H).
  destruct (H six_square Hin) as (q & row & Hq & Hrow & _ & _ & _ & H4).
  injection Hq as <-. injection Hrow as <-.
  destruct (H4 Hperm)
    as (data & titles & posters & w' & Hprep & Heq & Hlt & Hlp & _ & Hcells).
  injection Hprep as <-.
  exists titles, posters, w'. split; [exact Heq|].
  split; [by rewrite Hlt, Hlp|].
  destruct (Hcells Hnd 0%nat 5%nat (mkMovie 106 "F") eq_refl eq_refl)
    as (r0 & Hr0 & Ht0 & Hp0).
  destruct (Hcells Hnd 4%nat 2%nat (mkMovie 103 "C") eq_refl eq_refl)
    as (r4 & Hr4 & Ht4 & Hp4).
  vm_compute in Hr0. injection Hr0 as <-.
  vm_compute in Hr4. injection Hr4 as <-.
  split; [exact Ht0|]. split; [exact Hp0|]. split; [exact Ht4|exact Hp4].
Defined.

(** * Further properties of the scripts *)

(** ** The title lookup *)

Lemma matching_from_least pos movies t q l :
  matching_from pos movies t = q :: l →
  ∀ j m, (j < q - pos)%nat → movies !! j = Some m → row_title m ≠ t.
Proof.
  revert pos. induction movies as [|m0 rest IH]; intros pos Heq j m Hj Hm;
    simpl in Heq; [done|].
  destruct (String.eqb (row_title m0) t) eqn:E.
  - injection Heq as <- _. lia.
  - assert (Hq : q ∈ matching_from (S pos) rest t) by (rewrite Heq; left).
    apply matching_from_bounds in Hq as [Hle _].
    destruct j as [|j]; simpl in Hm.
    + injection Hm as <-. by apply String.eqb_neq.
    + apply (IH (S pos) Heq j m); [lia|done].
Qed.

(** X1: a title that occurs in several rows resolves to the first of them:
    the position found holds the title, and no earlier row does. *)
Theorem title_index_first_match :
  ∀ movies t q,
    title_index movies t = Ok q →
    (row_title <$> movies !! q) = Some t
    ∧ ∀ j m, (j < q)%nat → movies !! j = Some m → row_title m ≠ t.
Proof.
  intros movies t q Ht. split; [by apply title_index_Ok in Ht as [_ ?]|].
  unfold title_index in Ht.
  destruct (matching_from 0 movies t) as [|q' l] eqn:E; [done|].
  injection Ht as ->. intros j m Hj.
  apply (matching_from_least 0 movies t q l E). lia.
Qed.

Definition twice_listed : list movie :=
  [mkMovie 1 "Heat"; mkMovie 2 "Batman"; mkMovie 3 "Alien"; mkMovie 4 "Batman"].

Lemma title_index_first_match_witness :
  title_index twice_listed "Batman" = Ok 1%nat
  ∧ (row_title <$> twice_listed !! 1%nat) = Some "Batman"
  ∧ ∀ j m, (j < 1)%nat → twice_listed !! j = Some m → row_title m ≠ "Batman".
Proof.
  split; [reflexivity|].
  exact (title_index_first_match twice_listed "Batman" 1%nat eq_refl).
Defined.

(** ** The entry that the slice drops *)

Lemma strongly_sorted_app_precedes (l1 l2 : list (nat * Q)) x y :
  StronglySorted precedes (l1 ++ l2) → x ∈ l1 → y ∈ l2 → precedes x y.
Proof.
  induction l1 as [|a l1 IH]; intros Hs Hx Hy.
  - by apply elem_of_nil in Hx.
  - simpl in Hs. inversion Hs as [|? ? Hs' Ha]; subst.
    apply elem_of_cons in Hx as [->|Hx]; [|by apply IH].
    rewrite Forall_forall in Ha. apply Ha. apply elem_of_app. by right.
Qed.

Lemma head_sorts_first (row : list Q) q own T :
  sorted_reverse (enumerate row) = (q, own) :: T → sorts_first row q.
Proof.
  intros E. destruct (sorted_reverse_spec row) as [Hs Hp].
  pose proof (sorted_indices_NoDup row) as Hnd. rewrite E in Hs, Hp, Hnd.
  exists own. split.
  { apply enumerate_lookup. rewrite <- Hp. left. }
  intros j s Hj Hne.
  assert (Hin : (j, s) ∈ T).
  { assert (H : (j, s) ∈ (q, own) :: T).
    { rewrite Hp. by apply enumerate_lookup. }
    apply elem_of_cons in H as [H|H]; [congruence|done]. }
  inversion Hs as [|? ? _ Hall]; subst.
  rewrite Forall_forall in Hall. specialize (Hall _ Hin).
  destruct Hall as [Hlt|[Heq Hidx]]; simpl in *.
  - split; [by apply Qlt_le_weak|done].
  - split; [rewrite Heq; apply Qle_refl|]. intros Hjq. lia.
Qed.

Lemma sorts_first_head (row : list Q) q :
  sorts_first row q →
  ∃ own T, sorted_reverse (enumerate row) = (q, own) :: T.
Proof.
  intros (own & Hown & Hdom).
  destruct (sorted_reverse_spec row) as [Hs Hp].
  assert (Hin : (q, own) ∈ sorted_reverse (enumerate row)).
  { rewrite Hp. by apply enumerate_lookup. }
  destruct (sorted_reverse (enumerate row)) as [|[j s] T] eqn:E.
  { by apply elem_of_nil in Hin. }
  apply elem_of_cons in Hin as [Hin|Hin]; [injection Hin as <- <-; eauto|].
  exfalso. inversion Hs as [|? ? _ Hall]; subst.
  rewrite Forall_forall in Hall. specialize (Hall _ Hin).
  assert (Hj : row !! j = Some s).
  { apply enumerate_lookup. rewrite <- Hp. left. }
  destruct (decide (j = q)) as [->|Hne].
  - assert (s = own) as -> by congruence.
    pose proof (sorted_indices_NoDup row) as Hnd. rewrite E in Hnd.
    simpl in Hnd. apply NoDup_cons in Hnd as [Hnot _]. apply Hnot.
    apply list_elem_of_fmap. by exists (q, own).
  - destruct (Hdom j s Hj Hne) as [Hle Hlt].
    destruct Hall as [H|[Heq Hidx]]; simpl in *.
    + exact (Qle_not_lt _ _ Hle H).
    + specialize (Hlt Hidx). rewrite Heq in Hlt. exact (Qlt_irrefl _ Hlt).
Qed.

(** X2: the entry that [[1:6]] drops is the query's own exactly when no
    score of the row is above the query's and no earlier entry ties with
    it; and in a catalog of at most six movies the query is missing from
    its own recommendations exactly in that case. *)
Theorem dropped_entry_is_query :
  ∀ (row : list Q) q,
    ((∃ own T, sorted_reverse (enumerate row) = (q, own) :: T)
     ↔ sorts_first row q)
    ∧ ((q < length row)%nat → (length row ≤ 6)%nat →
       (q ∉ recommended_indices row ↔ sorts_first row q)).
Proof.
  intros row q. split.
  - split; [intros (own & T & E); by eapply head_sorts_first
           |apply sorts_first_head].
  - intros Hq Hlen. split; [|apply sorts_first_excluded].
    intros Hnot. apply lookup_lt_is_Some in Hq as [own Hown].
    destruct (sorted_reverse_spec row) as [_ Hp].
    assert (Hin : (q, own) ∈ sorted_reverse (enumerate row)).
    { rewrite Hp. by apply enumerate_lookup. }
    pose proof (length_sorted_reverse (enumerate row)) as Hl.
    rewrite length_enumerate in Hl.
    unfold recommended_indices, slice_1_6 in Hnot.
    destruct (sorted_reverse (enumerate row)) as [|h T] eqn:E.
    { by apply elem_of_nil in Hin. }
    simpl in Hnot, Hl. rewrite drop_0 in Hnot. rewrite take_ge in Hnot by lia.
    apply elem_of_cons in Hin as [<-|Hin].
    + by eapply head_sorts_first.
    + exfalso. apply Hnot. apply list_elem_of_fmap. by exists (q, own).
Qed.

Lemma dropped_entry_is_query_witness :
  (1 < length [1; 1; 5 # 10]%Q)%nat
  ∧ (length [1; 1; 5 # 10]%Q ≤ 6)%nat
  ∧ (1%nat ∈ recommended_indices [1; 1; 5 # 10]%Q
     ↔ ¬ sorts_first [1; 1; 5 # 10]%Q 1).
Proof.
  assert (H1 : (1 < length [1; 1; 5 # 10]%Q)%nat) by (simpl; lia).
  assert (H2 : (length [1; 1; 5 # 10]%Q ≤ 6)%nat) by (simpl; lia).
  split; [exact H1|]. split; [exact H2|].
  destruct (dropped_entry_is_query [1; 1; 5 # 10]%Q 1) as [_ H].
  destruct (H H1 H2) as [Hfwd Hbwd]. split.
  - intros Hin Hsf. exact (Hbwd Hsf Hin).
  - intros Hnsf. destruct (decide (1%nat ∈ recommended_indices [1; 1; 5 # 10]%Q))
      as [Hin|Hnin]; [exact Hin|]. exfalso. exact (Hnsf (Hfwd Hnin)).
Defined.

(** X3: no catalog position is recommended twice, every recommended
    position is a position of the row, and at most five are recommended. *)
Theorem recommended_positions_distinct :
  ∀ row : list Q,
    NoDup (recommended_indices row)
    ∧ Forall (fun i => (i < length row)%nat) (recommended_indices row)
    ∧ (length (recommended_indices row) ≤ 5)%nat.
Proof.
  intros row. split; [apply slice_indices_NoDup|].
  split; [apply recommended_indices_bound|].
  rewrite length_recommended_indices. lia.
Qed.

(** X4: the recommended entries are the best of the row after the dropped
    one: a position that is neither dropped nor recommended never has a
    score above that of a recommended position. *)
Theorem recommended_are_top :
  ∀ (row : list Q) h T i s j s',
    sorted_reverse (enumerate row) = h :: T →
    i ∈ recommended_indices row → row !! i = Some s →
    row !! j = Some s' → j ≠ fst h → j ∉ recommended_indices row →
    (s' <= s)%Q.
Proof.
  intros row h T i s j s' E Hi Hs Hs' Hjh Hj.
  destruct (sorted_reverse_spec row) as [Hsorted Hp]. rewrite E in Hsorted, Hp.
  unfold recommended_indices, slice_1_6 in Hi, Hj. rewrite E in Hi, Hj.
  simpl in Hi, Hj. rewrite drop_0 in Hi, Hj.
  assert (Hin_i : (i, s) ∈ take 5 T).
  { apply list_elem_of_fmap in Hi as ([i0 s0] & Hi0 & Hin). simpl in Hi0. subst i0.
    assert (H : (i, s0) ∈ h :: T).
    { right. apply list_elem_of_lookup in Hin as [k Hk].
      apply lookup_take_Some in Hk as [Hk _]. apply list_elem_of_lookup. eauto. }
    rewrite Hp in H. apply enumerate_lookup in H. congruence. }
  assert (Hin_j : (j, s') ∈ drop 5 T).
  { assert (H : (j, s') ∈ h :: T).
    { rewrite Hp. by apply enumerate_lookup. }
    apply elem_of_cons in H as [H|H]; [by subst h|].
    rewrite <- (take_drop 5 T) in H. apply elem_of_app in H as [H|H]; [|done].
    exfalso. apply Hj. apply list_elem_of_fmap. by exists (j, s'). }
  inversion Hsorted as [|? ? HT _]; subst.
  rewrite <- (take_drop 5 T) in HT.
  destruct (strongly_sorted_app_precedes _ _ _ _ HT Hin_i Hin_j)
    as [Hlt|[Heq _]]; simpl in *.
  - by apply Qlt_le_weak.
  - rewrite Heq. apply Qle_refl.
Qed.

Definition eight_scores : list Q :=
  [1; 2 # 10; 9 # 10; 4 # 10; 1 # 10; 8 # 10; 6 # 10; 7 # 10]%Q.

Lemma recommended_are_top_witness :
  5%nat ∈ recommended_indices eight_scores
  ∧ (1%nat ∉ recommended_indices eight_scores)
  ∧ ((2 # 10) <= (8 # 10))%Q.
Proof.
  assert (Hi : 5%nat ∈ recommended_indices eight_scores) by compute_done.
  assert (Hj : 1%nat ∉ recommended_indices eight_scores) by compute_done.
  split; [exact Hi|]. split; [exact Hj|].
  exact (recommended_are_top eight_scores (0%nat, 1%Q) _ 5%nat (8 # 10)%Q
           1%nat (2 # 10)%Q eq_refl Hi eq_refl eq_refl ltac:(simpl; lia) Hj).
Defined.

(** ** How many titles come back *)

(** With distinct ids in the catalog and every future finished,
    [recommend_movies_final] returns the titles at the recommended
    positions. *)
Lemma App3_recommend_titles movies similarity net completion t w q row :
  title_index movies t = Ok q →
  similarity !! q = Some row →
  (length row ≤ length movies)%nat →
  NoDup (map row_id movies) →
  completion ≡ₚ seq 0 (length (recommended_indices row)) →
  ∃ posters w',
    App3.recommend_movies_final movies similarity net completion t w
    = (Ok (map Some (titles_at movies (recommended_indices row)), posters), w').
Proof.
  intros Ht Hrow Hlen Hids Hperm.
  rewrite (App3_recommend_eval movies similarity net completion t w q row Ht Hrow).
  assert (Hvalid : Forall (fun e => (fst e < length movies)%nat)
                     (slice_1_6 (sorted_reverse (enumerate row)))).
  { eapply Forall_impl; [apply slice_entries_bound|]. simpl. intros; lia. }
  pose proof (length_infos_from movies 0 _ Hvalid) as Hl.
  pose proof (infos_from_in_order movies _ Hvalid) as Hord.
  pose proof (infos_from_ids_NoDup movies 0 _ Hids (slice_indices_NoDup row))
    as Hnd.
  pose proof (infos_from_titles movies 0
                (slice_1_6 (sorted_reverse (enumerate row)))) as Htitles.
  fold (recommended_indices row) in Htitles.
  unfold recommended_indices in Hperm. rewrite length_map, <- Hl in Hperm.
  destruct (infos_from movies 0 (slice_1_6 (sorted_reverse (enumerate row))))
    as [|info data] eqn:E.
  + simpl in Htitles. rewrite <- Htitles. by exists [], w.
  + destruct (fetch_all_titles (App3.fetch_poster_robust_cached net) completion
                (info :: data) w Hord Hperm Hnd) as (posters & w' & ->).
    exists posters, w'. rewrite <- Htitles.
    by rewrite <- list_fmap_compose.
Qed.

(** X18: for a title of the catalog and a square matrix, each of the three
    recommendation functions returns exactly [min 5 (catalog size - 1)]
    titles, the count 5 being fixed by the slice; they are the titles at
    the recommended positions (in app3.py when the ids of the catalog are
    distinct and every future finishes); and when the query's own entry
    sorts first in its row, the query's position is not among the
    recommended ones. *)
Theorem recommend_count_and_self :
  ∀ movies similarity t,
    square movies similarity →
    (∃ m, m ∈ movies ∧ row_title m = t) →
    ∃ q row,
      title_index movies t = Ok q
      ∧ similarity !! q = Some row
      ∧ length (recommended_indices row) = Nat.min 5 (length movies - 1)
      ∧ (∀ net w, ∃ names posters w',
           App2.recommend movies similarity net t w = (Ok (names, posters), w')
           ∧ names = titles_at movies (recommended_indices row)
           ∧ length names = Nat.min 5 (length movies - 1))
      ∧ (∀ net w, ∃ names posters w',
           App.recommend_movies movies similarity net t w
           = (Ok (names, posters), w')
           ∧ names = titles_at movies (recommended_indices row)
           ∧ length names = Nat.min 5 (length movies - 1))
      ∧ (∀ net completion w, ∃ titles posters w',
           App3.recommend_movies_final movies similarity net completion t w
           = (Ok (titles, posters), w')
           ∧ length titles = Nat.min 5 (length movies - 1)
           ∧ (NoDup (map row_id movies) →
              completion ≡ₚ seq 0 (length (recommended_indices row)) →
              titles = map Some (titles_at movies (recommended_indices row))))
      ∧ (sorts_first row q → q ∉ recommended_indices row).
Proof.
  intros movies similarity t Hsq Hin.
  destruct (title_index_known movies t Hin) as (q & Ht & Hq & _).
  destruct (square_row movies similarity q Hsq Hq) as (row & Hrow & Hlen).
  assert (Hcount : length (recommended_indices row) = Nat.min 5 (length movies - 1)).
  { by rewrite length_recommended_indices, Hlen. }
  assert (Htitles : length (titles_at movies (recommended_indices row))
                    = Nat.min 5 (length movies - 1)).
  { rewrite length_titles_at; [done|].
    rewrite <- Hlen. apply recommended_indices_bound. }
  exists q, row. split; [done|]. split; [done|]. split; [done|].
  split; [|split; [|split]].
  - intros net w.
    destruct (App2_recommend_eval movies similarity net t w q row Ht Hrow)
      as (w' & Heq & _); [lia|].
    eexists _, _, w'. split; [exact Heq|]. split; done.
  - intros net w.
    destruct (App_recommend_movies_eval movies similarity net t w q row Ht Hrow)
      as (w' & Heq & _); [lia|].
    eexists _, _, w'. split; [exact Heq|]. split; done.
  - intros net completion w.
    destruct (App3_recommend_returns movies similarity net completion t w q row
                Ht Hrow) as (ts & ps & w' & Heq & Hts & _); [lia|].
    exists ts, ps, w'. split; [done|]. split; [by rewrite Hts|].
    intros Hids Hperm.
    destruct (App3_recommend_titles movies similarity net completion t w q row
                Ht Hrow) as (ps' & w'' & Heq'); [lia|done|done|].
    rewrite Heq in Heq'. by injection Heq' as -> _ _.
  - apply sorts_first_excluded.
Qed.

Lemma recommend_count_and_self_witness :
  square six_movies six_matrix
  ∧ (∃ m, m ∈ six_movies ∧ row_title m = "A")
  ∧ NoDup (map row_id six_movies)
  ∧ [4; 2; 0; 3; 1]%nat ≡ₚ seq 0 (length (recommended_indices scenario_row))
  ∧ sorts_first scenario_row 0
  ∧ (0%nat ∉ recommended_indices scenario_row)
  ∧ (∃ names posters w',
       App2.recommend six_movies six_matrix (steady (with_poster "/x.jpg")) "A" idle
       = (Ok (names, posters), w')
       ∧ length names = 5%nat)
  ∧ (∃ posters w',
       App3.recommend_movies_final six_movies six_matrix
         (steady (with_poster "/x.jpg")) [4; 2; 0; 3; 1]%nat "A" idle
       = (Ok ([Some "B"; Some "D"; Some "E"; Some "C"; Some "F"], posters), w')).
Proof.
  assert (Hin : ∃ m, m ∈ six_movies ∧ row_title m = "A").
  { exists (mkMovie 101 "A"). split; [left|reflexivity]. }
  assert (Hnd : NoDup (map row_id six_movies)) by compute_done.
  assert (Hperm : [4; 2; 0; 3; 1]%nat
                  ≡ₚ seq 0 (length (recommended_indices scenario_row)))
    by compute_done.
  assert (Hfirst : sorts_first scenario_row 0).
  { exists 1%Q. split; [reflexivity|]. intros j s Hj Hne.
    split; [|lia].
    destruct j as [|[|[|[|[|[|j]]]]]]; simpl in Hj; try done;
      injection Hj as <-; done. }
  split; [exact six_square|]. split; [exact Hin|]. split; [exact Hnd|].
  split; [exact Hperm|]. split; [exact Hfirst|].
  destruct (recommend_count_and_self six_movies six_matrix "A" six_square Hin)
    as (q & row & Hq & Hrow & _ & H2 & _ & H3 & Hself).
  injection Hq as <-. injection Hrow as <-.
  split; [exact (Hself Hfirst)|]. split.
  - destruct (H2 (steady (with_poster "/x.jpg")) idle)
      as (names & posters & w' & Heq & _ & Hl).
    exists names, posters, w'. split; [exact Heq|exact Hl].
  - destruct (H3 (steady (with_poster "/x.jpg")) [4; 2; 0; 3; 1]%nat idle)
      as (titles & posters & w' & Heq & _ & Hts).
    exists posters, w'. rewrite Heq. by rewrite (Hts Hnd Hperm).
Defined.

(** ** Unknown titles in app.py and app2.py *)

(** X5: in app.py and app2.py a title that is in no row ends the call with
    [IndexError] at once: whatever the matrix and the remote service are,
    no request is sent and the world is left as it was. *)
Theorem unknown_title_fails_early :
  ∀ movies similarity net t w,
    Forall (fun m => row_title m ≠ t) movies →
    App.recommend_movies movies similarity net t w = (Raise IndexError, w)
    ∧ App2.recommend movies similarity net t w = (Raise IndexError, w).
Proof. intros. by apply unguarded_lookup_raises. Qed.

Lemma unknown_title_fails_early_witness :
  Forall (fun m => row_title m ≠ "Zodiac") twice_listed
  ∧ App2.recommend twice_listed [] (steady (with_poster "/x.jpg")) "Zodiac" idle
    = (Raise IndexError, idle).
Proof.
  assert (H : Forall (fun m => row_title m ≠ "Zodiac") twice_listed).
  { repeat constructor; discriminate. }
  split; [exact H|].
  exact (proj2 (unknown_title_fails_early twice_listed []
                  (steady (with_poster "/x.jpg")) "Zodiac" idle H)).
Defined.

(** ** Answers without a poster *)

Lemma dict_get_missing fields key :
  key ∉ map fst fields → dict_get fields key = PyNone.
Proof.
  induction fields as [|[k v] rest IH]; intros Hno; simpl; [done|].
  destruct (String.eqb k key) eqn:E.
  - apply String.eqb_eq in E. exfalso. apply Hno. simpl. subst. left.
  - apply IH. intros Hin. apply Hno. simpl. by right.
Qed.

(** X6: when the service answers with a status outside 400..599 and a JSON
    object whose [poster_path] is missing, null or the empty string, the
    fetch functions return their no-image placeholder: in app.py the one
    built from [fallback_text], in app2.py the "No+Image" one, in app3.py
    the "No+Poster+Available" one, which app3.py then keeps in its cache
    like any other URL. *)
Theorem no_poster_placeholder :
  ∀ net movie_id fallback_text w s fields,
    ¬ (400 <= s < 600) →
    ("poster_path" ∉ map fst fields
     ∨ dict_get fields "poster_path" = PyNone
     ∨ dict_get fields "poster_path" = PyStr "") →
    (net (length (net_log w))
         (api_url "b76bb27542ba7b7652281b79d2905180" movie_id)
     = Response s (JSONDict fields) →
     App.fetch_poster net movie_id fallback_text w
     = (Ok ("https://via.placeholder.com/500x750.png?text=" +:+ fallback_text),
        logged (api_url "b76bb27542ba7b7652281b79d2905180" movie_id) w)
     ∧ App2.fetch_poster net movie_id w
       = (Ok "https://via.placeholder.com/500x750.png?text=No+Image",
          logged (api_url "b76bb27542ba7b7652281b79d2905180" movie_id) w))
    ∧ (net (length (net_log w)) (robust_url movie_id)
       = Response s (JSONDict fields) →
       stale w movie_id →
       App3.fetch_poster_robust_cached net movie_id w
       = (Ok "https://via.placeholder.com/500x750.png?text=No+Poster+Available",
          mkWorld (clock w) (net_log w ++ [robust_url movie_id]) (sleep_log w)
            (<[movie_id :=
                 ("https://via.placeholder.com/500x750.png?text=No+Poster+Available",
                  clock w)]> (poster_cache w)))).
Proof.
  intros net movie_id fallback_text w s fields Hs Hpath.
  assert (Hrange : (400 <=? s) && (s <? 600) = false).
  { destruct ((400 <=? s) && (s <? 600)) eqn:E; [|done].
    apply andb_true_iff in E as [E1 E2].
    apply Z.leb_le in E1. apply Z.ltb_lt in E2. lia. }
  assert (Hv : dict_get fields "poster_path" = PyNone
               ∨ dict_get fields "poster_path" = PyStr "").
  { destruct Hpath as [H|[H|H]]; [left; by apply dict_get_missing|by left|by right]. }
  split.
  - intros Hnet.
    rewrite App_fetch_poster_eval, App2_fetch_poster_eval, Hnet.
    unfold simple_answer. rewrite Hrange. by destruct Hv as [-> | ->].
  - intros Hnet Hstale.
    destruct (fetch_cached_miss net movie_id w Hstale) as (url & w' & Hb & -> & _).
    rewrite fetch_poster_body_eval in Hb.
    rewrite (session_get_first _ _ _ _ _ _ s (JSONDict fields) Hnet) in Hb.
    + unfold robust_answer in Hb. simpl in Hb. rewrite Hrange in Hb.
      destruct Hv as [Hv|Hv]; rewrite Hv in Hb; simpl in Hb;
        injection Hb as <- <-; done.
    + destruct (App3.is_retry App3.retry_strategy 3 "GET" s false) eqn:E; [|done].
      apply is_retry_error_status in E. lia.
Qed.

Lemma no_poster_placeholder_witness :
  ¬ (400 <= 200 < 600)
  ∧ ("poster_path" ∉ map fst [("title", PyStr "A movie")])
  ∧ stale idle 7
  ∧ (App.fetch_poster (steady (Response 200 (JSONDict [("title", PyStr "A movie")])))
       7 "Nothing" idle).1
    = Ok "https://via.placeholder.com/500x750.png?text=Nothing"
  ∧ (App3.fetch_poster_robust_cached
       (steady (Response 200 (JSONDict [("title", PyStr "A movie")]))) 7 idle).1
    = Ok "https://via.placeholder.com/500x750.png?text=No+Poster+Available".
Proof.
  assert (H1 : ¬ (400 <= 200 < 600)) by lia.
  assert (H2 : "poster_path" ∉ map fst [("title", PyStr "A movie")]).
  { simpl. intros H. apply elem_of_cons in H as [H|H]; [discriminate H|].
    by apply elem_of_nil in H. }
  assert (H3 : stale idle 7) by exact I.
  split; [exact H1|]. split; [exact H2|]. split; [exact H3|].
  destruct (no_poster_placeholder
              (steady (Response 200 (JSONDict [("title", PyStr "A movie")])))
              7 "Nothing" idle 200 _ H1 (or_introl H2)) as [Hsimple Hrobust].
  destruct (Hsimple eq_refl) as [Ha _].
  rewrite Ha, (Hrobust eq_refl H3). split; reflexivity.
Defined.

(** ** Retries of app3.py *)

(** A request that the session repeats while a retry is left: no response,
    a status of the force list, or a status 413, 429 or 503 whose response
    carries a Retry-After header. *)
Definition transient (o : http_outcome) : bool :=
  match o with
  | NoResponse _ => true
  | Response s _ => App3.is_retry App3.retry_strategy 1 "GET" s false
  | ResponseRetryAfter s _ _ => App3.is_retry App3.retry_strategy 1 "GET" s true
  end.

Lemma is_retry_while_left r n method s h :
  App3.is_retry r (S n) method s h = App3.is_retry r 1 method s h.
Proof. reflexivity. Qed.

Lemma is_retry_without_header r n method s :
  App3.is_retry r n method s false = App3.is_retry r 0 method s false.
Proof. unfold App3.is_retry. by rewrite !andb_false_r. Qed.

(** While a retry is left, such a request is followed by another one. *)
Lemma session_get_step net url retries errs w :
  transient (net (length (net_log w)) url) = true →
  ∃ w1,
    App3.session_get App3.retry_strategy (S retries) errs net url w
    = App3.session_get App3.retry_strategy retries (S errs) net url w1
    ∧ net_log w1 = net_log w ++ [url]
    ∧ poster_cache w1 = poster_cache w.
Proof.
  intros H0. simpl. unfold bind at 1, send at 1. cbv beta iota.
  destruct (net (length (net_log w)) url) as [e|s0 b0|s0 ra b0]; simpl in H0.
  - unfold bind at 1.
    edestruct (sleep_backoff_effect App3.retry_strategy (S errs))
      as (w1 & -> & Hn1 & Hc1 & _).
    exists w1. done.
  - rewrite is_retry_while_left, H0. unfold bind at 1.
    edestruct (retry_sleep_effect App3.retry_strategy None (S errs))
      as (w1 & -> & Hn1 & Hc1 & _).
    exists w1. done.
  - rewrite is_retry_while_left, H0. unfold bind at 1.
    edestruct (retry_sleep_effect App3.retry_strategy (Some ra) (S errs))
      as (w1 & -> & Hn1 & Hc1 & _).
    exists w1. done.
Qed.

Lemma session_get_recovers net url k retries errs w s b :
  (k ≤ retries)%nat →
  (∀ i, (i < k)%nat → transient (net (length (net_log w) + i)%nat url) = true) →
  net (length (net_log w) + k)%nat url = Response s b →
  App3.is_retry App3.retry_strategy 0 "GET" s false = false →
  ∃ w',
    App3.session_get App3.retry_strategy retries errs net url w
    = (Ok (mkResponse s b), w')
    ∧ net_log w' = net_log w ++ replicate (S k) url
    ∧ poster_cache w' = poster_cache w.
Proof.
  revert retries errs w.
  induction k as [|k IH]; intros retries errs w Hk Htr Hok Hno.
  - rewrite Nat.add_0_r in Hok.
    rewrite (session_get_first _ retries _ _ _ _ s b Hok).
    + eexists. split; [reflexivity|]. done.
    + by rewrite is_retry_without_header.
  - destruct retries as [|retries]; [lia|].
    pose proof (Htr 0%nat ltac:(lia)) as H0. rewrite Nat.add_0_r in H0.
    destruct (session_get_step net url retries errs w H0) as (w1 & -> & Hn1 & Hc1).
    destruct (IH retries (S errs) w1) as (w' & -> & Hlog & Hc).
    + lia.
    + intros i Hi. rewrite Hn1, length_app. simpl.
      replace (length (net_log w) + 1 + i)%nat
        with (length (net_log w) + S i)%nat by lia.
      apply Htr. lia.
    + rewrite Hn1, length_app. simpl.
      by replace (length (net_log w) + 1 + k)%nat
        with (length (net_log w) + S k)%nat by lia.
    + done.
    + exists w'. split; [done|]. rewrite Hlog, Hc, Hn1, Hc1. simpl.
      by rewrite <- app_assoc.
Qed.

(** X7: [fetch_poster_robust_cached] recovers from up to three failed
    attempts in a row (no response, a status among 429, 500, 502, 503, 504,
    or a status 413 with a Retry-After header): if the attempt after them
    is answered with a poster path, the fetch returns the image URL, having
    sent exactly one request per attempt, and stores that URL in the
    cache. *)
Theorem fetch_recovers_after_retries :
  ∀ net movie_id w k s fields p,
    (k ≤ 3)%nat →
    stale w movie_id →
    (∀ i, (i < k)%nat →
       transient (net (length (net_log w) + i)%nat (robust_url movie_id)) = true) →
    net (length (net_log w) + k)%nat (robust_url movie_id)
    = Response s (JSONDict fields) →
    ¬ (400 <= s < 600) →
    dict_get fields "poster_path" = PyStr p →
    p ≠ "" →
    ∃ w',
      App3.fetch_poster_robust_cached net movie_id w = (Ok (image_host +:+ p), w')
      ∧ net_log w' = net_log w ++ replicate (S k) (robust_url movie_id)
      ∧ poster_cache w'
        = <[movie_id := (image_host +:+ p, clock w')]> (poster_cache w).
Proof.
  intros net movie_id w k s fields p Hk Hstale Htr Hok Hs Hp Hne.
  assert (Hrange : (400 <=? s) && (s <? 600) = false).
  { destruct ((400 <=? s) && (s <? 600)) eqn:E; [|done].
    apply andb_true_iff in E as [E1 E2].
    apply Z.leb_le in E1. apply Z.ltb_lt in E2. lia. }
  assert (Hno : App3.is_retry App3.retry_strategy 0 "GET" s false = false).
  { destruct (App3.is_retry App3.retry_strategy 0 "GET" s false) eqn:E; [|done].
    apply is_retry_error_status in E. lia. }
  assert (Hnonempty : String.eqb p "" = false) by (by apply String.eqb_neq).
  destruct (fetch_cached_miss net movie_id w Hstale) as (url & w' & Hb & -> & _).
  rewrite fetch_poster_body_eval in Hb.
  destruct (session_get_recovers net (robust_url movie_id) k 3 0 w s
              (JSONDict fields) Hk Htr Hok Hno) as (w1 & Hget & Hlog & Hc).
  rewrite Hget in Hb.
  unfold robust_answer in Hb. simpl in Hb. rewrite Hrange, Hp in Hb.
  simpl in Hb. rewrite Hnonempty in Hb. simpl in Hb.
  injection Hb as <- <-.
  eexists. split; [reflexivity|]. simpl. by rewrite Hlog, Hc.
Qed.

(** An endpoint that fails the first [k] requests with 503. *)
Definition fails_first (k : nat) (path : string) : endpoint :=
  fun n _ => if (n <? k)%nat then Response 503 NotJSON else with_poster path.

Lemma fetch_recovers_after_retries_witness :
  (3 ≤ 3)%nat
  ∧ stale idle 9
  ∧ (App3.fetch_poster_robust_cached (fails_first 3 "/y.png") 9 idle).1
    = Ok "https://image.tmdb.org/t/p/w500//y.png"
  ∧ net_log (App3.fetch_poster_robust_cached (fails_first 3 "/y.png") 9 idle).2
    = replicate 4 (robust_url 9).
Proof.
  assert (Hs : stale idle 9) by exact I.
  split; [lia|]. split; [exact Hs|].
  destruct (fetch_recovers_after_retries (fails_first 3 "/y.png") 9 idle 3 200
              [("title", PyStr "A movie"); ("poster_path", PyStr "/y.png")] "/y.png")
    as (w' & Heq & Hlog & _).
  - lia.
  - exact Hs.
  - intros i Hi. destruct i as [|[|[|i]]]; [reflexivity..|lia].
  - reflexivity.
  - lia.
  - reflexivity.
  - discriminate.
  - rewrite Heq. simpl. rewrite Hlog. split; reflexivity.
Defined.

(** X8: a status of 400..599 outside the force list, such as 404, is not
    retried, unless it is a 413 whose response carries a Retry-After
    header: [fetch_poster_robust_cached] sends one request, does not
    pause, and returns the error placeholder.  A 413 with a Retry-After
    header is followed by a second request. *)
Theorem fetch_does_not_retry_other_errors :
  ∀ net movie_id w s b,
    400 <= s < 600 →
    s ∉ [429; 500; 502; 503; 504] →
    stale w movie_id →
    (net (length (net_log w)) (robust_url movie_id) = Response s b
     ∨ (s ≠ 413
        ∧ ∃ seconds,
            net (length (net_log w)) (robust_url movie_id)
            = ResponseRetryAfter s seconds b) →
     App3.fetch_poster_robust_cached net movie_id w
     = (Ok App3.placeholder_error,
        mkWorld (clock w) (net_log w ++ [robust_url movie_id]) (sleep_log w)
          (<[movie_id := (App3.placeholder_error, clock w)]> (poster_cache w))))
    ∧ (s = 413 →
       (∃ seconds,
          net (length (net_log w)) (robust_url movie_id)
          = ResponseRetryAfter s seconds b) →
       ∃ url w',
         App3.fetch_poster_robust_cached net movie_id w = (Ok url, w')
         ∧ (length (net_log w) + 2 ≤ length (net_log w'))%nat).
Proof.
  intros net movie_id w s b Hs Hnot Hstale.
  assert (Hrange : (400 <=? s) && (s <? 600) = true).
  { apply andb_true_iff. split; [apply Z.leb_le|apply Z.ltb_lt]; lia. }
  destruct (fetch_cached_miss net movie_id w Hstale) as (url & w' & Hb & -> & _).
  rewrite fetch_poster_body_eval in Hb.
  split.
  - intros Hnet.
    assert (Hget : App3.session_get App3.retry_strategy 3 0 net
                     (robust_url movie_id) w
                   = (Ok (mkResponse s b), logged (robust_url movie_id) w)).
    { destruct Hnet as [Hnet|(H413 & seconds & Hnet)].
      - apply (session_get_first _ _ _ _ _ _ s b Hnet).
        unfold App3.is_retry. rewrite andb_false_r, orb_false_r.
        apply andb_false_iff. right. by apply bool_decide_eq_false.
      - simpl. unfold bind at 1, send at 1. cbv beta iota. rewrite Hnet.
        assert (Hno : App3.is_retry App3.retry_strategy 3 "GET" s true = false).
        { unfold App3.is_retry. apply andb_false_iff. right.
          apply orb_false_iff. split; [by apply bool_decide_eq_false|].
          apply andb_false_iff. right. apply bool_decide_eq_false.
          unfold App3.RETRY_AFTER_STATUS_CODES. intros Hin. apply Hnot.
          apply elem_of_cons in Hin as [->|Hin]; [done|].
          apply elem_of_cons in Hin as [->|Hin]; [compute_done|].
          apply elem_of_cons in Hin as [->|Hin]; [compute_done|].
          by apply elem_of_nil in Hin. }
        by rewrite Hno. }
    rewrite Hget in Hb. unfold robust_answer in Hb. simpl in Hb.
    rewrite Hrange in Hb. injection Hb as <- <-. done.
  - intros -> (seconds & Hnet).
    eexists _, _. split; [reflexivity|]. simpl.
    destruct (session_get_step net (robust_url movie_id) 2 0 w)
      as (w1 & Hstep & Hn1 & _); [by rewrite Hnet|].
    rewrite Hstep in Hb.
    destruct (session_get_shape App3.retry_strategy 2 1 net (robust_url movie_id)
                w1) as (res & w2 & Hget & _ & Hlog & _).
    rewrite Hget in Hb. rewrite Hn1 in Hlog. simpl in Hlog.
    rewrite length_app in Hlog. simpl in Hlog.
    destruct res; injection Hb as _ <-; lia.
Qed.

Lemma fetch_does_not_retry_other_errors_witness :
  400 <= 404 < 600
  ∧ (404 ∉ [429; 500; 502; 503; 504])
  ∧ stale idle 9
  ∧ length (net_log (App3.fetch_poster_robust_cached
                       (steady (Response 404 NotJSON)) 9 idle).2) = 1%nat
  ∧ sleep_log (App3.fetch_poster_robust_cached
                 (steady (Response 404 NotJSON)) 9 idle).2 = [].
Proof.
  assert (H1 : 400 <= 404 < 600) by lia.
  assert (H2 : 404 ∉ [429; 500; 502; 503; 504]) by compute_done.
  assert (H3 : stale idle 9) by exact I.
  split; [exact H1|]. split; [exact H2|]. split; [exact H3|].
  destruct (fetch_does_not_retry_other_errors (steady (Response 404 NotJSON)) 9
              idle 404 NotJSON H1 H2 H3) as [H _].
  rewrite (H (or_introl eq_refl)). split; reflexivity.
Defined.

(** X9: what a fetch returned stays in the cache for six hours whatever
    the service does afterwards; in particular, after a fetch that ended in
    the error placeholder, every fetch of that id in the next six hours
    returns the error placeholder without sending a request, even from a
    service that would now answer with a poster. *)
Theorem failure_is_cached :
  ∀ net later movie_id w,
    stale w movie_id →
    (∀ n, failure (net n (robust_url movie_id)) = true) →
    ∃ w1,
      App3.fetch_poster_robust_cached net movie_id w
      = (Ok App3.placeholder_error, w1)
      ∧ ∀ d, d < App3.ttl →
          App3.fetch_poster_robust_cached later movie_id (elapse d w1)
          = (Ok App3.placeholder_error, elapse d w1).
Proof.
  intros net later movie_id w Hstale Hfail.
  destruct (fetch_cached_miss net movie_id w Hstale) as (url & w' & Hb & Heq & _).
  destruct (fetch_poster_body_failure net movie_id w Hfail) as (w'' & Hb').
  rewrite Hb in Hb'. injection Hb' as -> ->.
  eexists. split; [exact Heq|].
  intros d Hd.
  apply (fetch_cached_hit later movie_id _ App3.placeholder_error (clock w'')).
  - simpl. by rewrite lookup_insert_eq.
  - simpl. lia.
Qed.

Lemma failure_is_cached_witness :
  stale idle 9
  ∧ (∀ n, failure (steady (NoResponse ConnectionFailed) n (robust_url 9)) = true)
  ∧ ∃ w1,
      App3.fetch_poster_robust_cached (steady (NoResponse ConnectionFailed)) 9 idle
      = (Ok App3.placeholder_error, w1)
      ∧ App3.fetch_poster_robust_cached (steady (with_poster "/x.jpg")) 9
          (elapse 3600 w1)
        = (Ok App3.placeholder_error, elapse 3600 w1).
Proof.
  assert (H1 : stale idle 9) by exact I.
  assert (H2 : ∀ n, failure (steady (NoResponse ConnectionFailed) n (robust_url 9))
                    = true) by (intros n; reflexivity).
  split; [exact H1|]. split; [exact H2|].
  destruct (failure_is_cached (steady (NoResponse ConnectionFailed))
              (steady (with_poster "/x.jpg")) 9 idle H1 H2) as (w1 & Heq & Hlater).
  exists w1. split; [exact Heq|]. apply Hlater. reflexivity.
Defined.

(** ** The requests of the sequential loops *)

(** The URLs requested for a list of catalog positions. *)
Definition request_urls (movies : list movie) (idxs : list nat) : list string :=
  omap (fun i => (fun m => api_url "b76bb27542ba7b7652281b79d2905180" (row_id m))
                   <$> movies !! i) idxs.

Definition after_requests (urls : list string) (w : world) : world :=
  mkWorld (clock w) (net_log w ++ urls) (sleep_log w) (poster_cache w).

Lemma after_requests_nil w : after_requests [] w = w.
Proof. destruct w. unfold after_requests. simpl. by rewrite app_nil_r. Qed.

Lemma after_requests_logged url urls w :
  after_requests urls (logged url w) = after_requests (url :: urls) w.
Proof. unfold after_requests, logged. simpl. by rewrite <- app_assoc. Qed.

Lemma App2_for_entries_world movies net pre rest names posters w :
  Forall (fun e => (fst e < length movies)%nat) pre →
  ∃ names' posters',
    App2.for_entries movies net (pre ++ rest) names posters w
    = App2.for_entries movies net rest names' posters'
        (after_requests (request_urls movies (map fst pre)) w).
Proof.
  intros Hall. revert names posters w.
  induction Hall as [|e pre He _ IH]; intros names posters w.
  - exists names, posters. by rewrite after_requests_nil.
  - rewrite <- app_comm_cons, App2_for_entries_cons.
    apply lookup_lt_is_Some in He as [m Hm]. rewrite Hm. cbv zeta.
    edestruct IH as (names' & posters' & ->).
    exists names', posters'. rewrite after_requests_logged.
    unfold request_urls. simpl. by rewrite Hm.
Qed.

Lemma App_for_entries_world movies net pre rest names posters w :
  Forall (fun e => (fst e < length movies)%nat) pre →
  ∃ names' posters',
    App.for_entries movies net (pre ++ rest) names posters w
    = App.for_entries movies net rest names' posters'
        (after_requests (request_urls movies (map fst pre)) w).
Proof.
  intros Hall. revert names posters w.
  induction Hall as [|e pre He _ IH]; intros names posters w.
  - exists names, posters. by rewrite after_requests_nil.
  - rewrite <- app_comm_cons, App_for_entries_cons.
    apply lookup_lt_is_Some in He as [m Hm]. rewrite Hm. cbv zeta.
    edestruct IH as (names' & posters' & ->).
    exists names', posters'. rewrite after_requests_logged.
    unfold request_urls. simpl. by rewrite Hm.
Qed.

(** X10: a call of [recommend] (app2.py) or [recommend_movies] (app.py) for
    a title of the catalog sends exactly one request per recommended
    position, in the order of the recommendations, each to the URL of that
    position's id; it never pauses and leaves the clock and the cache
    alone. *)
Theorem sequential_requests :
  ∀ movies similarity net t w q row,
    title_index movies t = Ok q →
    similarity !! q = Some row →
    (length row ≤ length movies)%nat →
    (App2.recommend movies similarity net t w).2
    = after_requests (request_urls movies (recommended_indices row)) w
    ∧ (App.recommend_movies movies similarity net t w).2
      = after_requests (request_urls movies (recommended_indices row)) w.
Proof.
  intros movies similarity net t w q row Ht Hrow Hlen.
  assert (Hvalid : Forall (fun e => (fst e < length movies)%nat)
                     (slice_1_6 (sorted_reverse (enumerate row)))).
  { eapply Forall_impl; [apply slice_entries_bound|]. simpl. intros; lia. }
  split.
  - unfold App2.recommend. unfold bind at 1, lift at 1. rewrite Ht.
    unfold bind at 1, lift at 1, getitem at 1. rewrite Hrow.
    destruct (App2_for_entries_world movies net _ [] [] [] w Hvalid)
      as (names' & posters' & Heq).
    rewrite app_nil_r in Heq. by rewrite Heq.
  - unfold App.recommend_movies. unfold bind at 1, lift at 1. rewrite Ht.
    unfold bind at 1, lift at 1, getitem at 1. rewrite Hrow.
    destruct (App_for_entries_world movies net _ [] [] [] w Hvalid)
      as (names' & posters' & Heq).
    rewrite app_nil_r in Heq. by rewrite Heq.
Qed.

Lemma sequential_requests_witness :
  title_index six_movies "A" = Ok 0%nat
  ∧ six_matrix !! 0%nat = Some scenario_row
  ∧ net_log (App2.recommend six_movies six_matrix (serves_first 2 "/x.jpg")
               "A" idle).2
    = map (api_url "b76bb27542ba7b7652281b79d2905180") [102; 104; 105; 103; 106].
Proof.
  split; [reflexivity|]. split; [reflexivity|].
  rewrite (proj1 (sequential_requests six_movies six_matrix
                    (serves_first 2 "/x.jpg") "A" idle 0%nat scenario_row
                    eq_refl eq_refl ltac:(simpl; lia))).
  reflexivity.
Defined.

(** X11: when the loop of app.py or app2.py comes to a position that is
    not in the catalog (a row of the matrix longer than the catalog), the
    call ends with [IndexError] and returns nothing, although the posters
    of the positions before it have been requested. *)
Theorem loop_stops_at_missing_row :
  ∀ movies net pre e post names posters w,
    Forall (fun e => (fst e < length movies)%nat) pre →
    (length movies ≤ fst e)%nat →
    App2.for_entries movies net (pre ++ e :: post) names posters w
    = (Raise IndexError, after_requests (request_urls movies (map fst pre)) w)
    ∧ App.for_entries movies net (pre ++ e :: post) names posters w
      = (Raise IndexError, after_requests (request_urls movies (map fst pre)) w).
Proof.
  intros movies net pre e post names posters w Hpre He.
  apply lookup_ge_None in He. split.
  - destruct (App2_for_entries_world movies net pre (e :: post) names posters w Hpre)
      as (names' & posters' & ->).
    by rewrite App2_for_entries_cons, He.
  - destruct (App_for_entries_world movies net pre (e :: post) names posters w Hpre)
      as (names' & posters' & ->).
    by rewrite App_for_entries_cons, He.
Qed.

Lemma loop_stops_at_missing_row_witness :
  Forall (fun e => (fst e < length twice_listed)%nat) [(2%nat, 1%Q); (0%nat, 1%Q)]
  ∧ (length twice_listed ≤ 9)%nat
  ∧ App2.for_entries twice_listed (steady (with_poster "/x.jpg"))
      ([(2%nat, 1%Q); (0%nat, 1%Q)] ++ [(9%nat, 1%Q); (1%nat, 1%Q)]) [] [] idle
    = (Raise IndexError,
       mkWorld 0 (map (api_url "b76bb27542ba7b7652281b79d2905180") [3; 1]) [] ∅).
Proof.
  assert (H1 : Forall (fun e => (fst e < length twice_listed)%nat)
                 [(2%nat, 1%Q); (0%nat, 1%Q)]).
  { repeat constructor; simpl; lia. }
  assert (H2 : (length twice_listed ≤ 9)%nat) by (simpl; lia).
  split; [exact H1|]. split; [exact H2|].
  exact (proj1 (loop_stops_at_missing_row twice_listed
                  (steady (with_poster "/x.jpg")) _ (9%nat, 1%Q) [(1%nat, 1%Q)]
                  [] [] idle H1 H2)).
Defined.

(** ** Ids that occur twice in one batch *)

Lemma fetch_all_cells job completion data w :
  in_order data →
  ∃ ts ps w' pm tm,
    App3.fetch_all job completion data w = (Ok (ts, ps), w')
    ∧ ∀ i info, data !! i = Some info →
        ts !! i = Some (Some (title_for tm info))
        ∧ ps !! i = Some (Some (poster_for pm info)).
Proof.
  intros Hord. unfold App3.fetch_all.
  destruct (App3.run_pool job data completion ∅ w) as [fs w'].
  destruct (App3.as_completed_loop data fs completion ∅ ∅) as [pm tm].
  destruct (reorder_spec data pm tm (replicate (length data) None)
              (replicate (length data) None))
    as (ts & ps & Heq & _ & _ & Hset & _).
  { done. }
  { rewrite length_replicate. apply Forall_forall. intros info Hin.
    apply list_elem_of_lookup in Hin as [k Hk].
    rewrite (Hord k info Hk). by eapply lookup_lt_Some. }
  { rewrite (in_order_orders data Hord). apply NoDup_seq. }
  exists ts, ps, w', pm, tm. split; [by rewrite Heq|].
  intros i info Hi. destruct (Hset info) as [Hts Hps].
  { apply list_elem_of_lookup. eauto. }
  by rewrite (Hord i info Hi) in Hts, Hps.
Qed.

(** X12: the batch of app3.py keys its results by id, so two records of one
    batch that carry the same id come back with the same title and the
    same poster, whatever their own titles were, for any submitted function
    and any completion order. *)
Theorem same_id_same_cell :
  ∀ job completion data w i i' info info',
    in_order data →
    data !! i = Some info →
    data !! i' = Some info' →
    App3.tmdb_id info = App3.tmdb_id info' →
    ∃ titles posters w',
      App3.fetch_all job completion data w = (Ok (titles, posters), w')
      ∧ titles !! i = titles !! i'
      ∧ posters !! i = posters !! i'.
Proof.
  intros job completion data w i i' info info' Hord Hi Hi' Hid.
  destruct (fetch_all_cells job completion data w Hord)
    as (ts & ps & w' & pm & tm & Heq & Hcells).
  exists ts, ps, w'. split; [done|].
  destruct (Hcells i info Hi) as [-> ->].
  destruct (Hcells i' info' Hi') as [-> ->].
  unfold title_for, poster_for. by rewrite Hid.
Qed.

Definition remake_infos : list App3.movie_info :=
  [App3.mkInfo 77 "Solaris (1972)" 0; App3.mkInfo 12 "Stalker" 1;
   App3.mkInfo 77 "Solaris (2002)" 2].

Lemma remake_infos_in_order : in_order remake_infos.
Proof.
  intros k info Hk. destruct k as [|[|[|k]]]; simpl in Hk; try done;
    by injection Hk as <-.
Qed.

Lemma same_id_same_cell_witness :
  in_order remake_infos
  ∧ ∃ titles posters w',
      App3.fetch_all (App3.fetch_poster_robust_cached (serves_first 9 "/x.jpg"))
        [2; 1; 0]%nat remake_infos idle
      = (Ok (titles, posters), w')
      ∧ titles !! 0%nat = titles !! 2%nat.
Proof.
  split; [exact remake_infos_in_order|].
  destruct (same_id_same_cell
              (App3.fetch_poster_robust_cached (serves_first 9 "/x.jpg"))
              [2; 1; 0]%nat remake_infos idle 0%nat 2%nat _ _
              remake_infos_in_order eq_refl eq_refl eq_refl)
    as (titles & posters & w' & Heq & Ht & _).
  exists titles, posters, w'. split; [exact Heq|exact Ht].
Defined.

(** ** The bounds check of app3.py *)

Lemma infos_from_order_ge movies i entries m info :
  infos_from movies i entries !! m = Some info →
  (i + m ≤ App3.original_order info)%nat.
Proof.
  revert i m. induction entries as [|e rest IH]; intros i m Hm; simpl in Hm; [done|].
  destruct (movies !! fst e) as [mv|].
  - destruct m as [|m]; simpl in Hm.
    + injection Hm as <-. simpl. lia.
    + apply IH in Hm. lia.
  - apply IH in Hm. lia.
Qed.

Lemma infos_from_kept movies i entries e :
  e ∈ entries → (fst e < length movies)%nat →
  (0 < length (infos_from movies i entries))%nat.
Proof.
  revert i. induction entries as [|e0 rest IH]; intros i Hin He.
  - by apply elem_of_nil in Hin.
  - simpl. apply elem_of_cons in Hin as [->|Hin].
    + apply lookup_lt_is_Some in He as [m ->]. simpl. lia.
    + destruct (movies !! fst e0); simpl; [lia|by apply IH].
Qed.

(** A skipped entry in front of a kept one leaves a record whose
    [original_order] is not a position of the list of records. *)
Lemma infos_from_gap movies i skipped e between rest :
  (length movies ≤ fst skipped)%nat →
  (fst e < length movies)%nat →
  ∀ front,
    ∃ info,
      info ∈ infos_from movies i (front ++ skipped :: between ++ e :: rest)
      ∧ (i + length (infos_from movies i
                       (front ++ skipped :: between ++ e :: rest))
         ≤ App3.original_order info)%nat.
Proof.
  intros Hskip Hkept front. revert i.
  induction front as [|f front IH]; intros i.
  - simpl. apply lookup_ge_None in Hskip. rewrite Hskip.
    set (data := infos_from movies (S i) (between ++ e :: rest)).
    assert (Hpos : (0 < length data)%nat).
    { apply (infos_from_kept movies (S i) _ e); [|done].
      apply elem_of_app. right. left. }
    destruct (lookup_lt_is_Some_2 data (length data - 1)) as [info Hinfo]; [lia|].
    exists info. split; [apply list_elem_of_lookup; eauto|].
    apply infos_from_order_ge in Hinfo. lia.
  - simpl. destruct (IH (S i)) as (info & Hin & Hle).
    destruct (movies !! fst f) as [m|]; simpl.
    + exists info. split; [by right|lia].
    + exists info. split; [done|lia].
Qed.

Lemma reorder_out_of_range todo pm tm ts0 ps0 info :
  length ps0 = length ts0 →
  info ∈ todo → (length ts0 ≤ App3.original_order info)%nat →
  App3.reorder todo pm tm ts0 ps0 = Raise IndexError.
Proof.
  revert ts0 ps0. induction todo as [|info0 rest IH]; intros ts0 ps0 Hlen Hin Hbad.
  - by apply elem_of_nil in Hin.
  - simpl. unfold App3.setitem.
    destruct (App3.original_order info0 <? length ts0)%nat eqn:E; [|done].
    rewrite <- Hlen in E. rewrite E.
    apply elem_of_cons in Hin as [->|Hin].
    + apply Nat.ltb_lt in E. lia.
    + apply IH; [by rewrite !length_insert|done|by rewrite length_insert].
Qed.

(** X13: the bounds check of [recommend_movies_final] skips a position that
    is not in the catalog but keeps numbering the others by their place in
    the slice; so when a skipped position is followed by a position of the
    catalog, the reassembly writes past the end of its lists and the batch
    ends with [IndexError] instead of returning the remaining titles. *)
Theorem skipped_position_breaks_reassembly :
  ∀ movies front skipped between e rest data job completion w,
    (length movies ≤ fst skipped)%nat →
    (fst e < length movies)%nat →
    App3.prepare movies 0 (front ++ skipped :: between ++ e :: rest) []
    = Ok data →
    (App3.fetch_all job completion data w).1 = Raise IndexError.
Proof.
  intros movies front skipped between e rest data job completion w
    Hskip Hkept Hprep.
  rewrite prepare_eval in Hprep. simpl in Hprep. injection Hprep as <-.
  destruct (infos_from_gap movies 0 skipped e between rest Hskip Hkept front)
    as (info & Hin & Hbad).
  unfold App3.fetch_all.
  destruct (App3.run_pool _ _ _ _ _) as [fs w'].
  destruct (App3.as_completed_loop _ _ _ _ _) as [pm tm]. simpl.
  apply (reorder_out_of_range _ pm tm _ _ info); [done|done|].
  rewrite length_replicate. lia.
Qed.

(** A matrix row wider than the four-movie catalog. *)
Definition wide_row : list Q :=
  [1; 1 # 2; 1 # 3; 1 # 4; 1 # 5; 1 # 6; 1 # 7; 1 # 8; 1 # 9; 9 # 10]%Q.

Lemma skipped_position_breaks_reassembly_witness :
  (length twice_listed ≤ 9)%nat
  ∧ (1 < length twice_listed)%nat
  ∧ (App3.recommend_movies_final twice_listed [wide_row]
       (steady (with_poster "/x.jpg")) [0; 1; 2; 3]%nat "Heat" idle).1
    = Raise IndexError.
Proof.
  assert (H1 : (length twice_listed ≤ 9)%nat) by (simpl; lia).
  assert (H2 : (1 < length twice_listed)%nat) by (simpl; lia).
  split; [exact H1|]. split; [exact H2|].
  rewrite (App3_recommend_eval twice_listed [wide_row]
             (steady (with_poster "/x.jpg"))
             [0; 1; 2; 3]%nat "Heat" idle 0%nat wide_row eq_refl eq_refl).
  exact (skipped_position_breaks_reassembly twice_listed []
           (9%nat, (9 # 10)%Q) [] (1%nat, (1 # 2)%Q)
           [(2%nat, (1 # 3)%Q); (3%nat, (1 # 4)%Q); (4%nat, (1 # 5)%Q)]
           _ (App3.fetch_poster_robust_cached (steady (with_poster "/x.jpg")))
           [0; 1; 2; 3]%nat idle H1 H2 eq_refl).
Defined.

(** ** Asking again within six hours *)

Lemma session_get_clock r k errs net url w :
  clock w <= clock (App3.session_get r k errs net url w).2.
Proof.
  revert errs w. induction k as [|k IH]; intros errs w; simpl;
    unfold bind at 1, send at 1; cbv beta iota;
    destruct (net (length (net_log w)) url) as [e|s b|s ra b].
  - simpl. lia.
  - destruct (App3.is_retry r 0 "GET" s false); simpl; lia.
  - destruct (App3.is_retry r 0 "GET" s true); simpl; lia.
  - unfold bind at 1.
    edestruct (sleep_backoff_effect r (S errs)) as (w1 & -> & _ & _ & Hclk).
    etrans; [|apply IH]. simpl in *. lia.
  - destruct (App3.is_retry r (S k) "GET" s false).
    + unfold bind at 1.
      edestruct (retry_sleep_effect r None (S errs)) as (w1 & -> & _ & _ & Hclk).
      etrans; [|apply IH]. simpl in *. lia.
    + simpl. lia.
  - destruct (App3.is_retry r (S k) "GET" s true).
    + unfold bind at 1.
      edestruct (retry_sleep_effect r (Some ra) (S errs))
        as (w1 & -> & _ & _ & Hclk).
      etrans; [|apply IH]. simpl in *. lia.
    + simpl. lia.
Qed.

(** A fetch without a fresh entry writes the cache at its own id only, and
    the clock does not go back. *)
Lemma fetch_miss_effect net movie_tmdb_id w :
  stale w movie_tmdb_id →
  ∃ url w',
    App3.fetch_poster_robust_cached net movie_tmdb_id w = (Ok url, w')
    ∧ poster_cache w' = <[movie_tmdb_id := (url, clock w')]> (poster_cache w)
    ∧ clock w <= clock w'.
Proof.
  intros Hstale.
  destruct (fetch_cached_miss net movie_tmdb_id w Hstale)
    as (url & wb & Hb & Heq & _).
  destruct (fetch_poster_body_total net movie_tmdb_id w)
    as (url' & wb' & Hb' & Hc & _).
  rewrite Hb in Hb'. injection Hb' as <- <-.
  eexists url, _. split; [exact Heq|]. simpl. rewrite Hc. split; [done|].
  pose proof (session_get_clock App3.retry_strategy 3 0 net
                (robust_url movie_tmdb_id) w) as Hclk.
  rewrite fetch_poster_body_eval in Hb.
  destruct (App3.session_get App3.retry_strategy 3 0 net
              (robust_url movie_tmdb_id) w) as [[resp|e] w0];
    injection Hb as _ <-; exact Hclk.
Qed.

Lemma run_pool_cold net data completion fs0 w :
  NoDup completion →
  NoDup (map App3.tmdb_id data) →
  (∀ j info, j ∈ completion → data !! j = Some info →
     stale w (App3.tmdb_id info)) →
  ∃ fs w',
    App3.run_pool (App3.fetch_poster_robust_cached net) data completion fs0 w
    = (fs, w')
    ∧ clock w <= clock w'
    ∧ (∀ id', (∀ j info, j ∈ completion → data !! j = Some info →
                 App3.tmdb_id info ≠ id') →
         poster_cache w' !! id' = poster_cache w !! id')
    ∧ (∀ j info, j ∈ completion → data !! j = Some info →
         ∃ url stored,
           fs !! j = Some (Ok url)
           ∧ poster_cache w' !! App3.tmdb_id info = Some (url, stored)
           ∧ clock w <= stored)
    ∧ (∀ j, j ∉ completion → fs !! j = fs0 !! j).
Proof.
  intros Hnd Hids. revert fs0 w.
  induction Hnd as [|j rest Hj Hnd IH]; intros fs0 w Hstale.
  - exists fs0, w. split; [done|]. split; [lia|]. split; [done|].
    split; [|done]. intros j info Hin. by apply elem_of_nil in Hin.
  - simpl. destruct (data !! j) as [info|] eqn:Ed.
    + assert (Hs : stale w (App3.tmdb_id info)).
      { apply (Hstale j); [left|done]. }
      destruct (fetch_miss_effect net (App3.tmdb_id info) w Hs)
        as (url & w2 & Hfetch & Hcache & Hclk).
      rewrite Hfetch.
      assert (Hother : ∀ j' info', j' ∈ rest → data !! j' = Some info' →
                         App3.tmdb_id info' ≠ App3.tmdb_id info).
      { intros j' info' Hj' Hd' Heq. apply Hj.
        assert (j' = j) as ->; [|done].
        eapply (NoDup_lookup (map App3.tmdb_id data)); [done| |].
        - rewrite list_lookup_fmap, Hd'. simpl. by rewrite Heq.
        - by rewrite list_lookup_fmap, Ed. }
      destruct (IH (<[j := Ok url]> fs0) w2)
        as (fs & w' & Hrun & Hclk' & Hkeep & Hdone & Hrest).
      { intros j' info' Hj' Hd'. unfold stale.
        rewrite Hcache, lookup_insert_ne by (apply not_eq_sym; eauto).
        pose proof (Hstale j' info' ltac:(by right) Hd') as Hs'.
        unfold stale in Hs'.
        destruct (poster_cache w !! App3.tmdb_id info') as [[u st]|]; [lia|done]. }
      exists fs, w'. split; [done|]. split; [lia|]. split; [|split].
      * intros id' Hnone.
        rewrite Hkeep by (intros j' info' Hj'; apply Hnone; by right).
        rewrite Hcache, lookup_insert_ne; [done|].
        apply (Hnone j info); [left|done].
      * intros j0 info0 Hin Hd0.
        apply elem_of_cons in Hin as [->|Hin].
        -- assert (info0 = info) as -> by congruence.
           exists url, (clock w2). rewrite (Hrest j Hj), lookup_insert_eq.
           split; [done|]. split; [|done].
           rewrite Hkeep by done. by rewrite Hcache, lookup_insert_eq.
        -- destruct (Hdone j0 info0 Hin Hd0) as (u & st & Hf & Hc & Hst).
           exists u, st. split; [done|]. split; [done|lia].
      * intros j0 Hnot. rewrite Hrest.
        -- apply lookup_insert_ne. intros ->. apply Hnot. left.
        -- intros Hin. apply Hnot. by right.
    + destruct (IH fs0 w) as (fs & w' & Hrun & Hclk' & Hkeep & Hdone & Hrest).
      { intros j' info' Hj'. apply Hstale. by right. }
      exists fs, w'. split; [done|]. split; [done|]. split; [|split].
      * intros id' Hnone. apply Hkeep. intros j' info' Hj'. apply Hnone. by right.
      * intros j0 info0 Hin Hd0.
        apply elem_of_cons in Hin as [->|Hin]; [congruence|by apply Hdone].
      * intros j0 Hnot. apply Hrest. intros Hin. apply Hnot. by right.
Qed.

Lemma run_pool_hits net data completion fs0 w :
  (∀ j info, j ∈ completion → data !! j = Some info →
     ∃ url stored,
       poster_cache w !! App3.tmdb_id info = Some (url, stored)
       ∧ clock w < stored + App3.ttl) →
  ∃ fs,
    App3.run_pool (App3.fetch_poster_robust_cached net) data completion fs0 w
    = (fs, w)
    ∧ (∀ j info url stored,
         j ∈ completion → data !! j = Some info →
         poster_cache w !! App3.tmdb_id info = Some (url, stored) →
         fs !! j = Some (Ok url))
    ∧ (∀ j, j ∉ completion → fs !! j = fs0 !! j).
Proof.
  revert fs0. induction completion as [|j rest IH]; intros fs0 Hfresh.
  - exists fs0. split; [done|]. split; [|done].
    intros j info url stored Hin. by apply elem_of_nil in Hin.
  - simpl. destruct (data !! j) as [info|] eqn:Ed.
    + destruct (Hfresh j info ltac:(left) Ed) as (url & stored & Hc & Hf).
      rewrite (fetch_cached_hit net _ w url stored Hc Hf).
      destruct (IH (<[j := Ok url]> fs0)) as (fs & Hrun & Hdone & Hrest).
      { intros j' info' Hj'. apply Hfresh. by right. }
      exists fs. split; [done|]. split.
      * intros j0 info0 url0 stored0 Hin Hd0 Hc0.
        destruct (decide (j0 ∈ rest)) as [Hr|Hr]; [by eapply Hdone|].
        apply elem_of_cons in Hin as [->|Hin]; [|done].
        rewrite (Hrest j Hr), lookup_insert_eq. congruence.
      * intros j0 Hnot. rewrite Hrest.
        -- apply lookup_insert_ne. intros ->. apply Hnot. left.
        -- intros Hin. apply Hnot. by right.
    + destruct (IH fs0) as (fs & Hrun & Hdone & Hrest).
      { intros j' info' Hj'. apply Hfresh. by right. }
      exists fs. split; [done|]. split.
      * intros j0 info0 url0 stored0 Hin Hd0 Hc0.
        apply elem_of_cons in Hin as [->|Hin]; [congruence|by eapply Hdone].
      * intros j0 Hnot. apply Hrest. intros Hin. apply Hnot. by right.
Qed.

(** With distinct ids, position i of the batch's result holds the title of
    record i and the URL of future i. *)
Lemma fetch_all_spec_distinct job completion data w :
  in_order data →
  completion ≡ₚ seq 0 (length data) →
  NoDup (map App3.tmdb_id data) →
  ∃ ts ps,
    App3.fetch_all job completion data w
    = (Ok (ts, ps), (App3.run_pool job data completion ∅ w).2)
    ∧ length ts = length data ∧ length ps = length data
    ∧ ∀ i info, data !! i = Some info →
        ∃ r,
          (App3.run_pool job data completion ∅ w).1 !! i = Some r
          ∧ ts !! i = Some (Some (App3.title info))
          ∧ ps !! i = Some (Some (resolved r)).
Proof.
  intros Hord Hperm Hnd.
  destruct (fetch_all_spec job completion data w Hord Hperm)
    as (ts & ps & Heq & Hlts & Hlps & Hpos).
  exists ts, ps. split; [done|]. split; [done|]. split; [done|].
  intros i info Hi.
  destruct (Hpos i info Hi) as (j & info' & r & Hj & Hid & Hf & Ht & Hp).
  assert (j = i) as ->.
  { eapply (NoDup_lookup (map App3.tmdb_id data)); [done| |].
    - rewrite list_lookup_fmap, Hj. simpl. by rewrite Hid.
    - by rewrite list_lookup_fmap, Hi. }
  assert (info' = info) as -> by congruence.
  eauto.
Qed.

(** The batch run again while every entry written by the first run is
    fresh gives the first run's result and leaves the world alone. *)
Lemma fetch_all_again net later c1 c2 data w d :
  in_order data →
  NoDup (map App3.tmdb_id data) →
  c1 ≡ₚ seq 0 (length data) →
  c2 ≡ₚ seq 0 (length data) →
  (∀ info, info ∈ data → stale w (App3.tmdb_id info)) →
  ∃ r w1,
    App3.fetch_all (App3.fetch_poster_robust_cached net) c1 data w = (Ok r, w1)
    ∧ clock w <= clock w1
    ∧ (clock w1 + d < clock w + App3.ttl →
       App3.fetch_all (App3.fetch_poster_robust_cached later) c2 data
         (elapse d w1)
       = (Ok r, elapse d w1)).
Proof.
  intros Hord Hids Hp1 Hp2 Hstale.
  assert (Hnd1 : NoDup c1) by (rewrite Hp1; apply NoDup_seq).
  destruct (run_pool_cold net data c1 ∅ w Hnd1 Hids)
    as (fs1 & w1 & Hrun1 & Hclk & _ & Hdone1 & _).
  { intros j info _ Hd. apply Hstale. apply list_elem_of_lookup. eauto. }
  destruct (fetch_all_spec_distinct (App3.fetch_poster_robust_cached net)
              c1 data w Hord Hp1 Hids) as (ts1 & ps1 & Heq1 & Hlt1 & Hlp1 & Hpos1).
  rewrite Hrun1 in Heq1, Hpos1. simpl in Heq1, Hpos1.
  exists (ts1, ps1), w1. split; [done|]. split; [done|]. intros Hd.
  destruct (run_pool_hits later data c2 ∅ (elapse d w1))
    as (fs2 & Hrun2 & Hdone2 & _).
  { intros j info Hj Hdj.
    assert (Hj1 : j ∈ c1).
    { rewrite Hp1. rewrite Hp2 in Hj. done. }
    destruct (Hdone1 j info Hj1 Hdj) as (url & stored & _ & Hc & Hst).
    exists url, stored. simpl. split; [done|lia]. }
  destruct (fetch_all_spec_distinct (App3.fetch_poster_robust_cached later)
              c2 data (elapse d w1) Hord Hp2 Hids)
    as (ts2 & ps2 & Heq2 & Hlt2 & Hlp2 & Hpos2).
  rewrite Hrun2 in Heq2, Hpos2. simpl in Heq2, Hpos2.
  rewrite Heq2. do 2 f_equal. f_equal.
  - apply list_eq. intros i. destruct (data !! i) as [info|] eqn:Ei.
    + destruct (Hpos1 i info Ei) as (r1 & _ & -> & _).
      by destruct (Hpos2 i info Ei) as (r2 & _ & -> & _).
    + apply lookup_ge_None in Ei.
      rewrite (proj2 (lookup_ge_None ts1 i)) by lia.
      by rewrite (proj2 (lookup_ge_None ts2 i)) by lia.
  - apply list_eq. intros i. destruct (data !! i) as [info|] eqn:Ei.
    + destruct (Hpos1 i info Ei) as (r1 & Hr1 & _ & ->).
      destruct (Hpos2 i info Ei) as (r2 & Hr2 & _ & ->).
      assert (Hi1 : i ∈ c1).
      { rewrite Hp1. apply elem_of_seq. split; [lia|].
        simpl. by eapply lookup_lt_Some. }
      assert (Hi2 : i ∈ c2).
      { rewrite Hp2. apply elem_of_seq. split; [lia|].
        simpl. by eapply lookup_lt_Some. }
      destruct (Hdone1 i info Hi1 Ei) as (url & stored & Hf1 & Hc & _).
      pose proof (Hdone2 i info url stored Hi2 Ei Hc) as Hf2.
      congruence.
    + apply lookup_ge_None in Ei.
      rewrite (proj2 (lookup_ge_None ps2 i)) by lia.
      by rewrite (proj2 (lookup_ge_None ps1 i)) by lia.
Qed.

(** X14: in app3.py, for a title of a catalog with distinct ids whose
    posters are not in the cache (or only in entries that have expired),
    [recommend_movies_final] returns a result, and a second call for the
    same title made less than six hours after the first one began returns
    the same titles and the same posters without sending any request,
    whatever the remote service has become and in whatever order the
    futures complete. *)
Theorem recommend_again_within_ttl :
  ∀ movies similarity net later c1 c2 t w d q row,
    title_index movies t = Ok q →
    similarity !! q = Some row →
    (length row ≤ length movies)%nat →
    NoDup (map row_id movies) →
    c1 ≡ₚ seq 0 (length (recommended_indices row)) →
    c2 ≡ₚ seq 0 (length (recommended_indices row)) →
    (∀ m, m ∈ movies → stale w (row_id m)) →
    ∃ r w1,
      App3.recommend_movies_final movies similarity net c1 t w = (Ok r, w1)
      ∧ (clock w1 + d < clock w + App3.ttl →
         App3.recommend_movies_final movies similarity later c2 t (elapse d w1)
         = (Ok r, elapse d w1)).
Proof.
  intros movies similarity net later c1 c2 t w d q row
    Ht Hrow Hlen Hids Hp1 Hp2 Hstale.
  rewrite (App3_recommend_eval movies similarity net c1 t w q row Ht Hrow).
  assert (Hvalid : Forall (fun e => (fst e < length movies)%nat)
                     (slice_1_6 (sorted_reverse (enumerate row)))).
  { eapply Forall_impl; [apply slice_entries_bound|]. simpl. intros; lia. }
  pose proof (length_infos_from movies 0 _ Hvalid) as Hl.
  pose proof (infos_from_in_order movies _ Hvalid) as Hord.
  pose proof (infos_from_ids_NoDup movies 0 _ Hids (slice_indices_NoDup row))
    as Hnd.
  unfold recommended_indices in Hp1, Hp2.
  rewrite length_map, <- Hl in Hp1, Hp2.
  assert (Hcold : ∀ info,
            info ∈ infos_from movies 0 (slice_1_6 (sorted_reverse (enumerate row))) →
            stale w (App3.tmdb_id info)).
  { intros info Hin.
    destruct (infos_from_ids movies 0
                (slice_1_6 (sorted_reverse (enumerate row))) (App3.tmdb_id info))
      as (e & m & _ & Hm & Hid).
    { apply list_elem_of_fmap. eauto. }
    rewrite <- Hid.
    apply Hstale. apply list_elem_of_lookup. eauto. }
  destruct (infos_from movies 0 (slice_1_6 (sorted_reverse (enumerate row))))
    as [|info data] eqn:E.
  - exists ([], []), w. split; [done|]. intros _.
    rewrite (App3_recommend_eval movies similarity later c2 t _ q row Ht Hrow).
    by rewrite E.
  - destruct (fetch_all_again net later c1 c2 (info :: data) w d Hord Hnd Hp1 Hp2
                Hcold) as (r & w1 & Heq & _ & Hagain).
    exists r, w1. split; [done|]. intros Hd.
    rewrite (App3_recommend_eval movies similarity later c2 t _ q row Ht Hrow).
    rewrite E. by apply Hagain.
Qed.

Lemma recommend_again_within_ttl_witness :
  title_index six_movies "A" = Ok 0%nat
  ∧ six_matrix !! 0%nat = Some scenario_row
  ∧ NoDup (map row_id six_movies)
  ∧ (∀ m, m ∈ six_movies → stale idle (row_id m))
  ∧ ∃ r w1,
      App3.recommend_movies_final six_movies six_matrix (serves_first 3 "/x.jpg")
        [4; 2; 0; 3; 1]%nat "A" idle
      = (Ok r, w1)
      ∧ App3.recommend_movies_final six_movies six_matrix
          (steady (Response 503 NotJSON)) [0; 1; 2; 3; 4]%nat "A"
          (elapse 3600 w1)
        = (Ok r, elapse 3600 w1).
Proof.
  assert (Hnd : NoDup (map row_id six_movies)) by compute_done.
  assert (Hp1 : [4; 2; 0; 3; 1]%nat
                ≡ₚ seq 0 (length (recommended_indices scenario_row)))
    by compute_done.
  assert (Hp2 : [0; 1; 2; 3; 4]%nat
                ≡ₚ seq 0 (length (recommended_indices scenario_row)))
    by compute_done.
  assert (Hcold : ∀ m, m ∈ six_movies → stale idle (row_id m)).
  { intros m _. unfold stale, idle. simpl. by rewrite lookup_empty. }
  split; [reflexivity|]. split; [reflexivity|]. split; [exact Hnd|].
  split; [exact Hcold|].
  destruct (recommend_again_within_ttl six_movies six_matrix
              (serves_first 3 "/x.jpg") (steady (Response 503 NotJSON))
              [4; 2; 0; 3; 1]%nat [0; 1; 2; 3; 4]%nat "A" idle 3600 0%nat
              scenario_row eq_refl eq_refl ltac:(simpl; lia) Hnd Hp1 Hp2 Hcold)
    as (r & w1 & Heq & Hagain).
  exists r, w1. split; [exact Heq|]. apply Hagain.
  (* the first call pauses at most 5 * 6 seconds *)
  assert (Hw1 : w1 = (App3.recommend_movies_final six_movies six_matrix
                        (serves_first 3 "/x.jpg") [4; 2; 0; 3; 1]%nat "A" idle).2)
    by (by rewrite Heq).
  rewrite Hw1. vm_compute. reflexivity.
Defined.

(** ** The pages *)

Definition pair_column (t p : string) : list element := [Text t; Image p].

Lemma show_pairs_ok names posters i n :
  (i + n ≤ length names)%nat → (i + n ≤ length posters)%nat →
  show_pairs names posters i n
  = (zip_with pair_column (take n (drop i names)) (take n (drop i posters)), None).
Proof.
  revert i. induction n as [|n IH]; intros i Hn Hp; [done|].
  destruct (lookup_lt_is_Some_2 names i) as [t Ht]; [lia|].
  destruct (lookup_lt_is_Some_2 posters i) as [p Hp'] ; [lia|].
  simpl. unfold show_pair, getitem. rewrite Ht, Hp'.
  rewrite IH by lia.
  rewrite (drop_S names t i Ht), (drop_S posters p i Hp'). done.
Qed.

Lemma show_pairs_short names posters i n :
  length posters = length names →
  (i ≤ length names)%nat → (length names < i + n)%nat →
  show_pairs names posters i n
  = (zip_with pair_column (drop i names) (drop i posters)
       ++ replicate (i + n - length names) [],
     Some IndexError).
Proof.
  intros Hlen. revert i. induction n as [|n IH]; intros i Hi Hn; [lia|].
  simpl. unfold show_pair, getitem.
  destruct (decide (i < length names)%nat) as [Hlt|Hge].
  - destruct (lookup_lt_is_Some_2 names i) as [t Ht]; [lia|].
    destruct (lookup_lt_is_Some_2 posters i) as [p Hp]; [lia|].
    rewrite Ht, Hp. rewrite IH by lia.
    rewrite (drop_S names t i Ht), (drop_S posters p i Hp). simpl.
    by replace (S (i + n) - length names)%nat with (i + S n - length names)%nat by lia.
  - rewrite (proj2 (lookup_ge_None names i)) by lia.
    rewrite !drop_ge by lia. simpl.
    by replace (i + S n - length names)%nat with (S n) by lia.
Qed.

(** X15: the pages of app.py and app2.py always lay out five columns and
    read five names and five posters.  For a title of a catalog of at least
    six movies the page shows the five recommendations, each name above its
    poster; for a smaller catalog it shows the recommendations there are
    and then fails with [IndexError], leaving the remaining columns
    empty. *)
Theorem pages_want_five :
  ∀ movies similarity net t w,
    square movies similarity →
    (∃ m, m ∈ movies ∧ row_title m = t) →
    (∃ names posters w',
       App2.recommend movies similarity net t w = (Ok (names, posters), w')
       ∧ ((6 ≤ length movies)%nat →
          App2.on_show_recommendation movies similarity net t w
          = ((zip_with pair_column names posters, None), w')
          ∧ length names = 5%nat)
       ∧ ((length movies < 6)%nat →
          App2.on_show_recommendation movies similarity net t w
          = ((zip_with pair_column names posters
                ++ replicate (6 - length movies) [], Some IndexError), w')
          ∧ length names = (length movies - 1)%nat))
    ∧ (∃ names posters w',
         App.recommend_movies movies similarity net t w
         = (Ok (names, posters), w')
         ∧ ((6 ≤ length movies)%nat →
            App.on_recommend movies similarity net t w
            = ((zip_with pair_column names posters, None), w')
            ∧ length names = 5%nat)
         ∧ ((length movies < 6)%nat →
            App.on_recommend movies similarity net t w
            = ((zip_with pair_column names posters
                  ++ replicate (6 - length movies) [], Some IndexError), w')
            ∧ length names = (length movies - 1)%nat)).
Proof.
  intros movies similarity net t w Hsq Hin.
  destruct (title_index_known movies t Hin) as (q & Ht & Hq & _).
  destruct (square_row movies similarity q Hsq Hq) as (row & Hrow & Hlen).
  assert (Hvalid : Forall (fun e => (fst e < length movies)%nat)
                     (slice_1_6 (sorted_reverse (enumerate row)))).
  { eapply Forall_impl; [apply slice_entries_bound|]. simpl. intros; lia. }
  assert (Hnames : length (titles_at movies (recommended_indices row))
                   = Nat.min 5 (length movies - 1)).
  { rewrite length_titles_at; [by rewrite length_recommended_indices, Hlen|].
    rewrite <- Hlen. apply recommended_indices_bound. }
  assert (Hposters : ∀ no_image n0,
            length (sequential_posters no_image movies net n0
                      (slice_1_6 (sorted_reverse (enumerate row))))
            = Nat.min 5 (length movies - 1)).
  { intros no_image n0. rewrite length_sequential_posters by done.
    by rewrite length_slice_1_6, length_sorted_reverse, length_enumerate, Hlen. }
  split.
  - destruct (App2_recommend_eval movies similarity net t w q row Ht Hrow)
      as (w' & Heq & _); [lia|].
    eexists _, _, w'. split; [exact Heq|].
    unfold App2.on_show_recommendation. rewrite Heq. split.
    + intros Hbig. split; [|rewrite Hnames; lia].
      rewrite show_pairs_ok by (rewrite ?Hnames, ?Hposters; lia).
      rewrite !drop_0, !take_ge by (rewrite ?Hnames, ?Hposters; lia). done.
    + intros Hsmall. split; [|rewrite Hnames; lia].
      rewrite show_pairs_short by (rewrite ?Hnames, ?Hposters; lia).
      rewrite !drop_0, Hnames.
      by replace (0 + 5 - Nat.min 5 (length movies - 1))%nat
        with (6 - length movies)%nat by lia.
  - destruct (App_recommend_movies_eval movies similarity net t w q row Ht Hrow)
      as (w' & Heq & _); [lia|].
    eexists _, _, w'. split; [exact Heq|].
    unfold App.on_recommend. rewrite Heq. split.
    + intros Hbig. split; [|rewrite Hnames; lia].
      rewrite show_pairs_ok by (rewrite ?Hnames, ?Hposters; lia).
      rewrite !drop_0, !take_ge by (rewrite ?Hnames, ?Hposters; lia). done.
    + intros Hsmall. split; [|rewrite Hnames; lia].
      rewrite show_pairs_short by (rewrite ?Hnames, ?Hposters; lia).
      rewrite !drop_0, Hnames.
      by replace (0 + 5 - Nat.min 5 (length movies - 1))%nat
        with (6 - length movies)%nat by lia.
Qed.

Definition three_movies : list movie :=
  [mkMovie 1 "Heat"; mkMovie 2 "Ronin"; mkMovie 3 "Alien"].

Definition three_matrix : list (list Q) :=
  [[1; 8 # 10; 1 # 10]; [8 # 10; 1; 2 # 10]; [1 # 10; 2 # 10; 1]]%Q.

Lemma three_square : square three_movies three_matrix.
Proof. split; [reflexivity|]. repeat constructor. Qed.

Lemma pages_want_five_witness :
  square three_movies three_matrix
  ∧ (∃ m, m ∈ three_movies ∧ row_title m = "Heat")
  ∧ (App2.on_show_recommendation three_movies three_matrix
       (steady (with_poster "/x.jpg")) "Heat" idle).1
    = ([[Text "Ronin"; Image "https://image.tmdb.org/t/p/w500//x.jpg"];
        [Text "Alien"; Image "https://image.tmdb.org/t/p/w500//x.jpg"];
        []; []; []],
       Some IndexError).
Proof.
  assert (Hin : ∃ m, m ∈ three_movies ∧ row_title m = "Heat").
  { exists (mkMovie 1 "Heat"). split; [left|reflexivity]. }
  split; [exact three_square|]. split; [exact Hin|].
  destruct (pages_want_five three_movies three_matrix
              (steady (with_poster "/x.jpg")) "Heat" idle three_square Hin)
    as [(names & posters & w' & Heq & _ & Hsmall) _].
  destruct (Hsmall ltac:(simpl; lia)) as [Hpage _].
  rewrite Hpage.
  assert (Hnp : (names, posters)
                = (["Ronin"; "Alien"],
                   ["https://image.tmdb.org/t/p/w500//x.jpg";
                    "https://image.tmdb.org/t/p/w500//x.jpg"])).
  { assert (H : Ok (names, posters)
                = (App2.recommend three_movies three_matrix
                     (steady (with_poster "/x.jpg")) "Heat" idle).1)
      by (by rewrite Heq).
    vm_compute in H. by injection H as -> ->. }
  injection Hnp as -> ->. reflexivity.
Defined.

(** The heading [st.markdown] writes for a title cell. *)
Definition bold_title (cell : option string) : element :=
  Markdown ("**" +:+ default "None" cell +:+ "**").

Lemma show_cells_ok titles posters i n :
  (i + n ≤ length titles)%nat → (i + n ≤ length posters)%nat →
  ∃ cols,
    App3.show_cells titles posters i n = (cols, None)
    ∧ length cols = n
    ∧ ∀ k cell, (k < n)%nat → titles !! (i + k)%nat = Some cell →
        ∃ rest, cols !! k = Some (bold_title cell :: rest).
Proof.
  revert i. induction n as [|n IH]; intros i Hn Hp.
  - exists []. simpl. repeat split. intros k cell Hk. lia.
  - destruct (lookup_lt_is_Some_2 titles i) as [t Ht]; [lia|].
    destruct (lookup_lt_is_Some_2 posters i) as [p Hp']; [lia|].
    destruct (IH (S i)) as (cols & Heq & Hl & Hheads); [lia|lia|].
    simpl. unfold getitem. rewrite Ht, Hp', Heq.
    eexists. split; [reflexivity|]. simpl. split; [by rewrite Hl|].
    intros k cell Hk Hcell. destruct k as [|k]; simpl.
    + rewrite Nat.add_0_r in Hcell. rewrite Ht in Hcell. injection Hcell as <-.
      eexists. reflexivity.
    + apply Hheads; [lia|].
      by replace (S i + k)%nat with (i + S k)%nat by lia.
Qed.

(** X16: the page of app3.py lays out as many columns as there are
    recommendations, so it does not fail on a small catalog: for a
    non-empty title of the catalog and a square matrix it shows the heading
    and [min 5 (catalog size - 1)] columns, column i beginning with the
    i-th returned title in bold, when the catalog has at least two movies,
    and the error box when the catalog has only the movie asked for. *)
Theorem page_fits_the_catalog :
  ∀ movies similarity net completion t w,
    square movies similarity →
    (∃ m, m ∈ movies ∧ row_title m = t) →
    t ≠ "" →
    ∃ titles posters w',
      App3.recommend_movies_final movies similarity net completion t w
      = (Ok (titles, posters), w')
      ∧ ((2 ≤ length movies)%nat →
         ∃ cols,
           App3.on_get_recommendations movies similarity net completion (Some t) w
           = ((App3.mkPage
                 [Subheader ("Recommended Movies for You (based on " +:+ t +:+ "):")]
                 cols, None), w')
           ∧ length cols = Nat.min 5 (length movies - 1)
           ∧ ∀ i cell, titles !! i = Some cell →
               ∃ rest, cols !! i = Some (bold_title cell :: rest))
      ∧ (length movies = 1%nat →
         App3.on_get_recommendations movies similarity net completion (Some t) w
         = ((App3.mkPage
               [ErrorBox "Sorry, couldn't fetch recommendations. Please try another movie or check the console for errors."]
               [], None), w')).
Proof.
  intros movies similarity net completion t w Hsq Hin Hne.
  destruct (title_index_known movies t Hin) as (q & Ht & Hq & _).
  destruct (square_row movies similarity q Hsq Hq) as (row & Hrow & Hlen).
  destruct (App3_recommend_returns movies similarity net completion t w q row
              Ht Hrow) as (ts & ps & w' & Heq & Hts & Hps); [lia|].
  rewrite length_recommended_indices, Hlen in Hts, Hps.
  exists ts, ps, w'. split; [done|].
  assert (Htruth : App3.cell_truth (Some t) = true).
  { simpl. apply negb_true_iff. by apply String.eqb_neq. }
  unfold App3.on_get_recommendations. rewrite Htruth. simpl default.
  rewrite Heq. split.
  - intros Hbig.
    assert (Hnt : bool_decide (ts = []) = false).
    { apply bool_decide_eq_false. intros ->. cbn [length] in Hts. lia. }
    assert (Hnp : bool_decide (ps = []) = false).
    { apply bool_decide_eq_false. intros ->. cbn [length] in Hps. lia. }
    rewrite Hnt, Hnp. simpl negb. simpl andb.
    assert (Hpos : (0 <? length ts)%nat = true) by (apply Nat.ltb_lt; lia).
    rewrite Hpos.
    destruct (show_cells_ok ts ps 0 (length ts)) as (cols & Hc & Hl & Hheads);
      [lia|lia|].
    rewrite Hc. exists cols. split; [done|]. split; [by rewrite Hl, Hts|].
    intros i cell Hi. apply Hheads; [by eapply lookup_lt_Some|done].
  - intros Hone.
    assert (ts = []) as ->.
    { apply length_zero_iff_nil. rewrite Hts. lia. }
    done.
Qed.

Lemma page_fits_the_catalog_witness :
  square three_movies three_matrix
  ∧ (∃ m, m ∈ three_movies ∧ row_title m = "Heat")
  ∧ "Heat" ≠ ""
  ∧ ∃ cols rest0 rest1,
      (App3.on_get_recommendations three_movies three_matrix
         (steady (with_poster "/x.jpg")) [1; 0]%nat (Some "Heat") idle).1
      = (App3.mkPage [Subheader "Recommended Movies for You (based on Heat):"]
           cols, None)
      ∧ length cols = 2%nat
      ∧ cols !! 0%nat = Some (Markdown "**Ronin**" :: rest0)
      ∧ cols !! 1%nat = Some (Markdown "**Alien**" :: rest1).
Proof.
  assert (Hin : ∃ m, m ∈ three_movies ∧ row_title m = "Heat").
  { exists (mkMovie 1 "Heat"). split; [left|reflexivity]. }
  assert (Hne : "Heat" ≠ "") by discriminate.
  split; [exact three_square|]. split; [exact Hin|]. split; [exact Hne|].
  destruct (page_fits_the_catalog three_movies three_matrix
              (steady (with_poster "/x.jpg")) [1; 0]%nat "Heat" idle
              three_square Hin Hne) as (titles & posters & w' & Heq & Hbig & _).
  destruct (Hbig ltac:(simpl; lia)) as (cols & Hpage & Hlen & Hheads).
  assert (Hts : titles = [Some "Ronin"; Some "Alien"]).
  { assert (H : Ok (titles, posters)
                = (App3.recommend_movies_final three_movies three_matrix
                     (steady (with_poster "/x.jpg")) [1; 0]%nat "Heat" idle).1)
      by (by rewrite Heq).
    vm_compute in H. by injection H as -> _. }
  subst titles.
  destruct (Hheads 0%nat (Some "Ronin") eq_refl) as (rest0 & H0).
  destruct (Hheads 1%nat (Some "Alien") eq_refl) as (rest1 & H1).
  exists cols, rest0, rest1. rewrite Hpage.
  split; [reflexivity|]. split; [exact Hlen|]. split; [exact H0|exact H1].
Defined.

(** X17: on the page of app3.py, pressing the button without a selection
    shows the warning, and a title that is in no row shows the error box;
    in both cases nothing is requested and the world is left as it was. *)
Theorem page_without_a_match :
  ∀ movies similarity net completion t w,
    t ≠ "" →
    Forall (fun m => row_title m ≠ t) movies →
    App3.on_get_recommendations movies similarity net completion None w
    = ((App3.mkPage [WarningBox "Please select a movie first!"] [], None), w)
    ∧ App3.on_get_recommendations movies similarity net completion (Some t) w
      = ((App3.mkPage
            [ErrorBox "Sorry, couldn't fetch recommendations. Please try another movie or check the console for errors."]
            [], None), w).
Proof.
  intros movies similarity net completion t w Hne Hno. split; [done|].
  unfold App3.on_get_recommendations.
  assert (Htruth : App3.cell_truth (Some t) = true).
  { simpl. apply negb_true_iff. by apply String.eqb_neq. }
  rewrite Htruth. simpl default.
  unfold App3.recommend_movies_final.
  by rewrite (title_index_unknown movies t Hno).
Qed.

Lemma page_without_a_match_witness :
  "Zodiac" ≠ ""
  ∧ Forall (fun m => row_title m ≠ "Zodiac") three_movies
  ∧ App3.on_get_recommendations three_movies three_matrix
      (steady (with_poster "/x.jpg")) [] (Some "Zodiac") idle
    = ((App3.mkPage
          [ErrorBox "Sorry, couldn't fetch recommendations. Please try another movie or check the console for errors."]
          [], None), idle).
Proof.
  assert (H1 : "Zodiac" ≠ "") by discriminate.
  assert (H2 : Forall (fun m => row_title m ≠ "Zodiac") three_movies).
  { repeat constructor; discriminate. }
  split; [exact H1|]. split; [exact H2|].
  exact (proj2 (page_without_a_match three_movies three_matrix
                  (steady (with_poster "/x.jpg")) [] "Zodiac" idle H1 H2)).
Defined.
